(** * Canonicalisation of sums: [sympy/core/add.py]

    A shallow embedding of [Add.flatten], [Add.as_coeff_Add], [Add.primitive]
    and [Add._eval_subs], and the properties of the sum canonicaliser that
    follow from the code.

    Conventions of the embedding.
    - Numerals are exact rationals kept in lowest terms, plus the sentinels
      [Infinity] (1/0), [NegativeInfinity] (-1/0) and [NaN] (0/0); all of them
      answer [is_Rational] and [is_Number], exactly the reason why the source
      tests [a.q] and [c.q] before dividing.  Floating point numerals are not
      part of the model.
    - [ComplexInfinity] is an atom that is not a [Number]; the source tests it
      by identity in a branch of its own.
    - Everything that lives in other modules of the library (the hash used as
      sort key, the assumption system, [Order.contains], the product
      constructor, the power constructor, ...) is collected in the record
      [Env] and every function of this file is parametrised by it.
    - The worklist loop [for o in seq: ... seq.extend(...)] takes a fuel
      argument that counts loop iterations. *)

From Stdlib Require Import ZArith QArith Qreduction List String Ascii Bool Lia.
From Stdlib Require Import Permutation Sorted.
Import ListNotations.
Open Scope Z_scope.

(** ** Numerals *)

Inductive Number : Type :=
| Rat (r : Q)
| Infinity
| NegativeInfinity
| NaN.

Definition Zero : Number := Rat (0 # 1).
Definition One : Number := Rat (1 # 1).
Definition NegativeOne : Number := Rat (-1 # 1).

(** [Rational(p, q)]: the quotient in lowest terms; a zero denominator gives
    a sentinel according to the sign of [p]. *)
Definition Rational (p q : Z) : Number :=
  match q with
  | Z0 => if p =? 0 then NaN else if 0 <? p then Infinity else NegativeInfinity
  | Zpos d => Rat (Qred (p # d))
  | Zneg d => Rat (Qred ((- p) # d))
  end.

Definition Integer (p : Z) : Number := Rat (p # 1).

(** The fields [p] and [q] of a numeral. *)
Definition number_p (n : Number) : Z :=
  match n with
  | Rat r => Qnum r
  | Infinity => 1
  | NegativeInfinity => -1
  | NaN => 0
  end.

Definition number_q (n : Number) : Z :=
  match n with
  | Rat r => Zpos (Qden r)
  | _ => 0
  end.

(** Modelled from the spec: the numeral class is not part of the sources.
    Addition of numerals: exact on rationals, [NaN] is absorbing,
    "PositiveInfinity + NegativeInfinity resolves to NotANumber", and an
    infinity absorbs every finite numeral. *)
Definition number_add (a b : Number) : Number :=
  match a, b with
  | NaN, _ | _, NaN => NaN
  | Infinity, NegativeInfinity | NegativeInfinity, Infinity => NaN
  | Infinity, _ | _, Infinity => Infinity
  | NegativeInfinity, _ | _, NegativeInfinity => NegativeInfinity
  | Rat x, Rat y => Rat (Qred (x + y))
  end.

(** Modelled from the spec: unary minus of a numeral. *)
Definition number_neg (a : Number) : Number :=
  match a with
  | Rat x => Rat (Qred (- x))
  | Infinity => NegativeInfinity
  | NegativeInfinity => Infinity
  | NaN => NaN
  end.

(** Modelled from the spec: product of numerals (used by the small instance
    of the product constructor below; zero times an infinity is [NaN]). *)
Definition number_mul (a b : Number) : Number :=
  match a, b with
  | NaN, _ | _, NaN => NaN
  | Rat x, Rat y => Rat (Qred (x * y))
  | Rat x, Infinity | Infinity, Rat x =>
      if Qnum x =? 0 then NaN else if 0 <? Qnum x then Infinity else NegativeInfinity
  | Rat x, NegativeInfinity | NegativeInfinity, Rat x =>
      if Qnum x =? 0 then NaN else if 0 <? Qnum x then NegativeInfinity else Infinity
  | Infinity, Infinity | NegativeInfinity, NegativeInfinity => Infinity
  | Infinity, NegativeInfinity | NegativeInfinity, Infinity => NegativeInfinity
  end.

(** [n.is_bounded] for a numeral: [True] on rationals, [False] on the two
    infinities, unknown on [NaN]. *)
Definition number_is_bounded (n : Number) : option bool :=
  match n with
  | Rat _ => Some true
  | Infinity | NegativeInfinity => Some false
  | NaN => None
  end.

Lemma Q_eq_dec : forall a b : Q, {a = b} + {a <> b}.
Proof.
  decide equality; [apply Pos.eq_dec | apply Z.eq_dec].
Defined.

Lemma Number_eq_dec : forall a b : Number, {a = b} + {a <> b}.
Proof.
  decide equality; apply Q_eq_dec.
Defined.

Definition Number_eqb (a b : Number) : bool :=
  if Number_eq_dec a b then true else false.

(** ** Expression nodes *)

#[local] Set Warnings "-register-all".

Inductive Expr : Type :=
| Num (n : Number)
| ComplexInfinity
| Symbol (name : string)
| Add (args : list Expr)
| Mul (args : list Expr)
| Pow (base exponent : Expr)
| Order (expr : Expr)
| Function (name : string) (args : list Expr).

Lemma Expr_eq_dec : forall a b : Expr, {a = b} + {a <> b}.
Proof.
  fix IH 1.
  decide equality;
    try apply (list_eq_dec IH); try apply string_dec; try apply Number_eq_dec.
Defined.

Definition Expr_eqb (a b : Expr) : bool :=
  if Expr_eq_dec a b then true else false.

Lemma Expr_eqb_eq : forall a b, Expr_eqb a b = true <-> a = b.
Proof.
  intros a b. unfold Expr_eqb. destruct (Expr_eq_dec a b); split; congruence.
Qed.

Lemma Expr_eqb_refl : forall a, Expr_eqb a a = true.
Proof.
  intros a. apply Expr_eqb_eq. reflexivity.
Qed.

Lemma Expr_eqb_neq : forall a b, Expr_eqb a b = false <-> a <> b.
Proof.
  intros a b. unfold Expr_eqb. destruct (Expr_eq_dec a b); split; congruence.
Qed.

Lemma Expr_eqb_sym_false : forall a b, Expr_eqb a b = false -> Expr_eqb b a = false.
Proof.
  intros a b H. apply Expr_eqb_neq. apply Expr_eqb_neq in H. congruence.
Qed.

(** Class flags of a node. *)
Definition is_Number (e : Expr) : bool :=
  match e with Num _ => true | _ => false end.

Definition is_Rational (e : Expr) : bool :=
  match e with Num _ => true | _ => false end.

Definition is_Integer (e : Expr) : bool :=
  match e with Num (Rat r) => Pos.eqb (Qden r) 1 | _ => false end.

Definition is_negative (e : Expr) : bool :=
  match e with
  | Num (Rat r) => Qnum r <? 0
  | Num NegativeInfinity => true
  | _ => false
  end.

Definition is_Add (e : Expr) : bool :=
  match e with Add _ => true | _ => false end.

Definition is_Mul (e : Expr) : bool :=
  match e with Mul _ => true | _ => false end.

Definition is_Order (e : Expr) : bool :=
  match e with Order _ => true | _ => false end.

Definition is_NaN (e : Expr) : bool :=
  match e with Num NaN => true | _ => false end.

Definition is_zoo (e : Expr) : bool :=
  match e with ComplexInfinity => true | _ => false end.

Definition is_Zero (e : Expr) : bool :=
  match e with Num n => Number_eqb n Zero | _ => false end.

(** [e.args] *)
Definition args_of (e : Expr) : list Expr :=
  match e with
  | Add l | Mul l | Function _ l => l
  | Pow b x => [b; x]
  | Order x => [x]
  | _ => []
  end.

(** Truth value of a node in a condition ([assert a], [if ch:],
    [if not bargs[0]:]): only the numeral zero is false. *)
Definition truthy (e : Expr) : bool := negb (is_Zero e).

(** ** Collaborators outside [add.py] *)

Inductive Fact : Type :=
| commutative | real | bounded | finite | infinitesimal
| nonnegative | nonpositive.

Record Env : Type := {
  (** [hash(e)], the sort key *)
  hash : Expr -> Z;
  (** the assumption system: [e.is_real] and the like, three-valued *)
  ask : Fact -> Expr -> option bool;
  (** [o1.contains(e)] of the Order protocol *)
  contains : Expr -> Expr -> bool;
  (** [Mul(c, s)] and [c*s]: the product constructor on two operands *)
  Mul2 : Expr -> Expr -> Expr;
  (** [Pow(b, e)]: the power constructor *)
  Pow2 : Expr -> Expr -> Expr;
  (** [o.as_base_exp()] of a power *)
  as_base_exp : Expr -> Expr * Expr;
  (** [_keep_coeff(c, m)] *)
  keep_coeff : Number -> Expr -> Expr;
  (** [-e] on a node that is neither a numeral nor a sum *)
  neg : Expr -> Expr;
  (** [s._eval_subs(old, new)] on an operand of a sum *)
  subs_operand : Expr -> Expr -> Expr -> Expr;
  (** [isinstance(old, FunctionClass)] *)
  is_FunctionClass : Expr -> bool
}.

(** Python's truth value of a three-valued answer. *)
Definition truth (a : option bool) : bool :=
  match a with Some true => true | _ => false end.

Definition known (a : option bool) : bool :=
  match a with Some _ => true | None => false end.

Definition is_False (a : option bool) : bool :=
  match a with Some false => true | _ => false end.

(** [list.sort(key=hash)]: a stable sort by ascending key. *)
Fixpoint insert_by (key : Expr -> Z) (x : Expr) (l : list Expr) : list Expr :=
  match l with
  | [] => [x]
  | y :: l' => if key x <=? key y then x :: y :: l' else y :: insert_by key x l'
  end.

Definition sort_by (key : Expr -> Z) (l : list Expr) : list Expr :=
  fold_right (insert_by key) [] l.

(** Modelled from the spec: [as_coeff_Mul] lives in [mul.py]; it is the
    "coefficient/remainder split" with the shape of [Add.as_coeff_Add]: the
    leading numeral of a product and the rest of it, [(1, self)] for any other
    node and [(self, 1)] for a numeral. *)
Definition as_coeff_Mul (e : Expr) : Number * Expr :=
  match e with
  | Num n => (n, Num One)
  | Mul (Num c :: [s]) => (c, s)
  | Mul (Num c :: rest) => (c, Mul rest)
  | _ => (One, e)
  end.

(** ** [Add.as_coeff_Add] and [Add.make_args] *)

Inductive Exception : Type :=
| AssertionError
| IndexError
| ZeroDivisionError.

Inductive Outcome (A : Type) : Type :=
| OutOfFuel
| Raise (e : Exception)
| Return (r : A).

Arguments OutOfFuel {A}.
Arguments Raise {A} e.
Arguments Return {A} r.

(** [self.as_coeff_Add()] for a sum ([self.args[0]] raises on an empty
    tuple); any other node answers [(0, self)], a numeral [(self, 0)]. *)
Definition as_coeff_Add (e : Expr) : Outcome (Expr * Expr) :=
  match e with
  | Add [] => Raise IndexError
  | Add (coeff :: args) =>
      if is_Number coeff then
        match args with
        | [t] => Return (coeff, t)
        | _ => Return (coeff, Add args)
        end
      else Return (Num Zero, e)
  | Num n => Return (e, Num Zero)
  | _ => Return (Num Zero, e)
  end.

Definition make_args (e : Expr) : list Expr :=
  match e with Add l => l | _ => [e] end.

(** ** [Add.flatten] *)

(** What [flatten] returns: [(commutative_part, noncommutative_part,
    order_symbols)]. *)
Definition Result : Type := (list Expr * list Expr * option (list Expr))%type.

Definition NaN_result : Result := ([Num NaN], [], None).

(** The three accumulators of the loop. *)
Record State : Type := mkState {
  coeff : Expr;
  terms : list (Expr * Number);
  order_factors : list Expr
}.

Definition initial : State := mkState (Num Zero) [] [].

(** [if s in terms: terms[s] += c else: terms[s] = c].  The dictionary is an
    association list in insertion order with one entry per key. *)
Fixpoint terms_add (s : Expr) (c : Number) (d : list (Expr * Number))
  : list (Expr * Number) :=
  match d with
  | [] => [(s, c)]
  | (k, v) :: d' =>
      if Expr_eqb k s then (k, number_add v c) :: d'
      else (k, v) :: terms_add s c d'
  end.

Fixpoint terms_get (s : Expr) (d : list (Expr * Number)) : option Number :=
  match d with
  | [] => None
  | (k, v) :: d' => if Expr_eqb k s then Some v else terms_get s d'
  end.

Section Flatten.

Variable X : Env.

(** [e.is_bounded]: the class attribute on numerals and on
    [ComplexInfinity], the assumption system elsewhere. *)
Definition is_bounded (e : Expr) : option bool :=
  match e with
  | Num n => number_is_bounded n
  | ComplexInfinity => Some false
  | _ => ask X bounded e
  end.

(** One pass of the loop body on the addend [o]. *)
Inductive Step : Type :=
| ReturnNaN
| Continue (st : State) (extend : list Expr).

Definition collect_term (st : State) (c : Number) (s : Expr) : Step :=
  Continue (mkState (coeff st) (terms_add s c (terms st)) (order_factors st)) [].

Definition body (st : State) (o : Expr) : Step :=
  match o with
  | Order _ =>
      if existsb (fun o1 => contains X o1 o) (order_factors st)
      then Continue st []
      else Continue
             (mkState (coeff st) (terms st)
                (o :: filter (fun o1 => negb (contains X o o1)) (order_factors st)))
             []
  | Num n =>
      if is_NaN o || (is_zoo (coeff st) && is_False (is_bounded o))
      then ReturnNaN
      else
        match coeff st with
        | Num c =>
            let c' := number_add c n in
            if is_NaN (Num c') then ReturnNaN
            else Continue (mkState (Num c') (terms st) (order_factors st)) []
        | _ => Continue st []
        end
  | ComplexInfinity =>
      if is_False (is_bounded (coeff st)) then ReturnNaN
      else Continue (mkState ComplexInfinity (terms st) (order_factors st)) []
  | Add l => Continue st l
  | Mul _ =>
      let (c, s) := as_coeff_Mul o in
      if is_Add s
      then Continue st (map (fun a => Mul2 X (Num c) a) (args_of s))
      else collect_term st c s
  | Pow _ _ =>
      let (b, e) := as_base_exp X o in
      if is_Number b && (is_Integer e || (is_Rational e && is_negative e))
      then Continue st [Pow2 X b e]
      else collect_term st One o
  | _ => collect_term st One o
  end.

(** [for o in seq: ...] with [seq] growing at its end while it is walked. *)
Fixpoint collect (fuel : nat) (seq : list Expr) (st : State) : Outcome (option State) :=
  match seq with
  | [] => Return (Some st)
  | o :: rest =>
      match fuel with
      | O => OutOfFuel
      | S fuel' =>
          match body st o with
          | ReturnNaN => Return None
          | Continue st' extend => collect fuel' (rest ++ extend) st'
          end
      end
  end.

(** The operand built from one dictionary entry. *)
Definition new_arg (s : Expr) (c : Number) : list Expr :=
  if Number_eqb c Zero then []
  else if Number_eqb c One then [s]
  else
    match s with
    | Mul l => [Mul (Num c :: l)]
    | _ => [Mul2 X (Num c) s]
    end.

Definition build_newseq (d : list (Expr * Number)) : list Expr :=
  flat_map (fun sc => new_arg (fst sc) (snd sc)) d.

Definition is_commutative (e : Expr) : option bool := ask X commutative e.

Definition is_noncommutative (d : list (Expr * Number)) : bool :=
  existsb (fun sc => negb (Number_eqb (snd sc) Zero)
                     && negb (truth (is_commutative (fst sc)))) d.

(** The tests of the three pruning filters. *)
Definition dominated_by_oo (f : Expr) : bool :=
  truth (ask X nonnegative f)
  || (truth (ask X real f)
      && (truth (is_bounded f) || truth (ask X finite f)
          || truth (ask X infinitesimal f))).

Definition dominated_by_neg_oo (f : Expr) : bool :=
  truth (ask X nonpositive f)
  || (truth (ask X real f)
      && (truth (is_bounded f) || truth (ask X finite f)
          || truth (ask X infinitesimal f))).

Definition dominated_by_zoo (c : Expr) : bool :=
  truth (is_bounded c) && known (ask X real c).

(** [# oo, -oo] and the [zoo] filter: the three tests on [coeff] exclude one
    another. *)
Definition prune (coeff : Expr) (newseq : list Expr) : list Expr :=
  match coeff with
  | Num Infinity => filter (fun f => negb (dominated_by_oo f)) newseq
  | Num NegativeInfinity => filter (fun f => negb (dominated_by_neg_oo f)) newseq
  | ComplexInfinity => filter (fun c => negb (dominated_by_zoo c)) newseq
  | _ => newseq
  end.

Definition absorbed (order_factors : list Expr) (t : Expr) : bool :=
  existsb (fun o => contains X o t) order_factors.

(** [# process O(x)] *)
Definition process_order (order_factors : list Expr) (coeff : Expr)
    (newseq : list Expr) : Expr * list Expr :=
  match order_factors with
  | [] => (coeff, newseq)
  | _ =>
      (if absorbed order_factors coeff then Num Zero else coeff,
       filter (fun t => negb (absorbed order_factors t)) newseq ++ order_factors)
  end.

(** Everything after the loop. *)
Definition finish (st : State) : Result :=
  let newseq := build_newseq (terms st) in
  let noncommutative := is_noncommutative (terms st) in
  let newseq := prune (coeff st) newseq in
  let (coeff', newseq) := process_order (order_factors st) (coeff st) newseq in
  let newseq := sort_by (hash X) newseq in
  let newseq := if is_Zero coeff' then newseq else coeff' :: newseq in
  if noncommutative then ([], newseq, None) else (newseq, [], None).

(** The term collection path, lines 65 to 233. *)
Definition flatten_general (fuel : nat) (seq : list Expr) : Outcome Result :=
  match collect fuel seq initial with
  | OutOfFuel => OutOfFuel
  | Raise e => Raise e
  | Return None => Return NaN_result
  | Return (Some st) => Return (finish st)
  end.

(** The shortcut for two operands, lines 33 to 63: [Return None] when [rv]
    stays [None]. *)
Definition expand_2arg (b : Expr) : Outcome Expr :=
  match b with
  | Mul _ =>
      let (c, t) := as_coeff_Mul b in
      if is_Add t then
        match as_coeff_Add t with
        | Return (h, t') =>
            let bargs := sort_by (hash X)
                           (map (fun ti => Mul2 X (Num c) ti) (make_args t')) in
            let ch := Mul2 X (Num c) h in
            Return (Add (if truthy ch then ch :: bargs else bargs))
        | Raise e => Raise e
        | OutOfFuel => OutOfFuel
        end
      else Return b
  | _ => Return b
  end.

Definition shortcut (seq : list Expr) : Outcome (option Result) :=
  match seq with
  | [a0; b0] =>
      let (a, b) := if is_Rational b0 then (b0, a0) else (a0, b0) in
      if negb (truthy a) then Raise AssertionError
      else
        match a with
        | Num (Rat ra) =>
            match expand_2arg b with
            | Return (Add bargs) =>
                match bargs with
                | [] => Raise IndexError
                | Num n :: tl =>
                    let b0' := Num (number_add n (Rat ra)) in
                    Return (Some (if truthy b0' then b0' :: tl else tl, [], None))
                | _ :: _ => Return (Some (a :: bargs, [], None))
                end
            | Return (Mul l) => Return (Some ([a; Mul l], [], None))
            | Return _ => Return None
            | Raise e => Raise e
            | OutOfFuel => OutOfFuel
            end
        | _ => Return None
        end
  | _ => Return None
  end.

Definition flatten (fuel : nat) (seq : list Expr) : Outcome Result :=
  match shortcut seq with
  | Return (Some rv) => Return rv
  | Return None => flatten_general fuel seq
  | Raise e => Raise e
  | OutOfFuel => OutOfFuel
  end.

End Flatten.

(** ** [Add.primitive] *)

Section Primitive.

Variable X : Env.

(** The triple [(c.p, c.q, m)] of one operand, and whether it sets [inf]. *)
Definition split_term (a : Expr) : Z * Z * Expr :=
  let (c, m) := as_coeff_Mul a in (number_p c, number_q c, m).

Definition sets_inf (t : Z * Z * Expr) : bool :=
  let '(p, q, m) := t in (q =? 0) || is_zoo m.

(** [reduce(igcd, l, 0)] and [reduce(ilcm, l, 1)] *)
Definition igcd_all (l : list Z) : Z := fold_left Z.gcd l 0.
Definition ilcm_all (l : list Z) : Z := fold_left Z.lcm l 1.

Definition numerators (inf : bool) (ts : list (Z * Z * Expr)) : list Z :=
  map (fun t => fst (fst t))
    (if inf then filter (fun t => negb (snd (fst t) =? 0)) ts else ts).

Definition denominators (inf : bool) (ts : list (Z * Z * Expr)) : list Z :=
  map (fun t => snd (fst t))
    (if inf then filter (fun t => negb (snd (fst t) =? 0)) ts else ts).

(** The rescaled operand that replaces [terms[i]]. *)
Definition rescale (inf : bool) (ngcd dlcm : Z) (t : Z * Z * Expr) : Expr :=
  let '(p, q, term) := t in
  if inf && (q =? 0) then keep_coeff X (Rational p q) term
  else keep_coeff X (Rational ((p / ngcd) * (dlcm / q)) 1) term.

(** Keep [terms[0]] in slot 0 when it is a numeral or [zoo], sort the rest. *)
Definition resort (ts : list Expr) : Outcome (list Expr) :=
  match ts with
  | [] => Raise IndexError
  | t0 :: rest =>
      if is_Number t0 || is_zoo t0
      then Return (if truthy t0 then t0 :: sort_by (hash X) rest
                   else sort_by (hash X) rest)
      else Return (sort_by (hash X) ts)
  end.

Definition primitive (self : Expr) : Outcome (Number * Expr) :=
  let ts := map split_term (args_of self) in
  let inf := existsb sets_inf ts in
  let ngcd := igcd_all (numerators inf ts) in
  let dlcm := ilcm_all (denominators inf ts) in
  if (ngcd =? 1) && (dlcm =? 1) then Return (One, self)
  else if (ngcd =? 0) && existsb (fun t => negb (snd (fst t) =? 0)) ts
  then Raise ZeroDivisionError
  else
    match resort (map (rescale inf ngcd dlcm) ts) with
    | Return ts' => Return (Rational ngcd dlcm, Add ts')
    | Raise e => Raise e
    | OutOfFuel => OutOfFuel
    end.

End Primitive.

(** ** [Add._eval_subs] *)

(** [e.as_coeff_add()] without dependencies: the numeral in slot 0 and the
    tuple of the other operands.  On a node that is not a sum it is
    [(0, (e,))], on a numeral [(e, ())]. *)
Fixpoint as_coeff_add (e : Expr) : Outcome (Expr * list Expr) :=
  match e with
  | Num _ => Return (e, [])
  | Add [] => Raise IndexError
  | Add (a0 :: rest) =>
      match as_coeff_add a0 with
      | Return (coeff, notrat) =>
          if negb (is_Zero coeff) then Return (coeff, notrat ++ rest)
          else Return (Num Zero, a0 :: rest)
      | other => other
      end
  | _ => Return (Num Zero, [e])
  end.

Definition mem (x : Expr) (l : list Expr) : bool := existsb (Expr_eqb x) l.

(** [set(l)] as the list of its distinct elements. *)
Definition to_set (l : list Expr) : list Expr := nodup Expr_eq_dec l.

(** [a < b] on sets. *)
Definition proper_subset (a b : list Expr) : bool :=
  forallb (fun x => mem x b) a && negb (forallb (fun x => mem x a) b).

Definition set_minus (a b : list Expr) : list Expr :=
  filter (fun x => negb (mem x b)) a.

Section Subs.

Variable X : Env.

(** Modelled from the spec: the constructor [Add] of a sum lives in
    [operations.py].  It drops the additive identity, answers the identity for
    no operand and the operand itself for one, and otherwise wraps what
    [flatten] returns; a sequence that "collapses to one" operand is that
    operand, "never a 1-operand Sum". *)
Definition Add_new (fuel : nat) (args : list Expr) : Outcome Expr :=
  match filter (fun a => negb (is_Zero a)) args with
  | [] => Return (Num Zero)
  | [a] => Return a
  | args' =>
      match flatten X fuel args' with
      | Return (c_part, nc_part, _) =>
          Return (match c_part ++ nc_part with
                  | [] => Num Zero
                  | [a] => a
                  | l => Add l
                  end)
      | Raise e => Raise e
      | OutOfFuel => OutOfFuel
      end
  end.

(** Sequencing: the first failure ends the computation. *)
Definition and_then {A B : Type} (m : Outcome A) (k : A -> Outcome B)
  : Outcome B :=
  match m with
  | Return a => k a
  | Raise e => Raise e
  | OutOfFuel => OutOfFuel
  end.

(** [-e].  On a sum it is [Add.__neg__]: the constructor applied to the
    negated operands.  On a numeral it is exact, and on any other node it is
    the negation of [expr.py], a collaborator. *)
Fixpoint negate (fuel : nat) (e : Expr) {struct e} : Outcome Expr :=
  match e with
  | Num n => Return (Num (number_neg n))
  | Add l =>
      and_then
        ((fix negate_all (l : list Expr) : Outcome (list Expr) :=
            match l with
            | [] => Return []
            | t :: l' =>
                and_then (negate fuel t) (fun t' =>
                and_then (negate_all l') (fun r => Return (t' :: r)))
            end) l)
        (Add_new fuel)
  | _ => Return (neg X e)
  end.

Definition subs_args (self old new : Expr) : list Expr :=
  map (fun s => subs_operand X s old new) (args_of self).

(** The branch [if old.is_Add:]; [Return None] when it falls through. *)
Definition subs_subset (fuel : nat) (self old new : Expr)
  : Outcome (option Expr) :=
  match as_coeff_add self, as_coeff_add old with
  | Return (coeff_self, terms_self), Return (coeff_old, terms_old) =>
      if (List.length terms_old <? List.length terms_self)%nat
      then
        let self_set := to_set terms_self in
        let old_set := to_set terms_old in
        if proper_subset old_set self_set
        then
          and_then (negate fuel coeff_old) (fun minus_coeff_old =>
          and_then
            (Add_new fuel
               (new :: coeff_self :: minus_coeff_old
                :: map (fun s => subs_operand X s old new)
                     (set_minus self_set old_set)))
            (fun r => Return (Some r)))
        else Return None
      else Return None
  | Raise e, _ => Raise e
  | _, Raise e => Raise e
  | _, _ => OutOfFuel
  end.

(** What follows the test on the two remainders: the branch for a pattern
    that is a sum, then the substitution in every operand. *)
Definition subs_rest (fuel : nat) (self old new : Expr) : Outcome Expr :=
  and_then (if is_Add old then subs_subset fuel self old new else Return None)
    (fun found =>
       match found with
       | Some r => Return r
       | None => Add_new fuel (subs_args self old new)
       end).

Definition eval_subs (fuel : nat) (self old new : Expr) : Outcome Expr :=
  if Expr_eqb self old then Return new
  else if is_FunctionClass X old then Add_new fuel (subs_args self old new)
  else
    match as_coeff_Add self, as_coeff_Add old with
    | Return (coeff_self, terms_self), Return (coeff_old, terms_old) =>
        if is_Rational coeff_self && is_Rational coeff_old
        then
          if Expr_eqb terms_self terms_old
          then
            and_then (negate fuel coeff_old) (fun minus_coeff_old =>
            Add_new fuel [new; coeff_self; minus_coeff_old])
          else
            and_then (negate fuel terms_old) (fun minus_terms_old =>
            if Expr_eqb terms_self minus_terms_old
            then
              and_then (negate fuel new) (fun minus_new =>
              Add_new fuel [minus_new; coeff_self; coeff_old])
            else subs_rest fuel self old new)
        else subs_rest fuel self old new
    | Raise e, _ => Raise e
    | _, Raise e => Raise e
    | _, _ => OutOfFuel
    end.

End Subs.

(** ** A small instance of the collaborators

    Used to run the definitions on concrete sums.  Symbols [A] and [B] do not
    commute, [r] is real and bounded, [p] is nonnegative; nothing is known
    about any other symbol. *)

Fixpoint string_sum (s : string) : Z :=
  match s with
  | EmptyString => 0
  | String c s' => Z.of_nat (nat_of_ascii c) + string_sum s'
  end.

Fixpoint toy_hash (e : Expr) : Z :=
  match e with
  | Num n => 7 * number_p n + number_q n
  | ComplexInfinity => -1
  | Symbol s => string_sum s
  | Add l => 3 + fold_right (fun x acc => toy_hash x + acc) 0 l
  | Mul l => 5 + 2 * fold_right (fun x acc => toy_hash x + acc) 0 l
  | Pow b x => 11 + 3 * toy_hash b + 5 * toy_hash x
  | Order x => toy_hash x / 2
  | Function f l => 13 + string_sum f + fold_right (fun x acc => toy_hash x + acc) 0 l
  end.

Definition symbol_in (names : list string) (e : Expr) : bool :=
  match e with
  | Symbol s => existsb (String.eqb s) names
  | _ => false
  end.

Fixpoint toy_commutative (e : Expr) : bool :=
  match e with
  | Symbol s => negb (String.eqb s "A" || String.eqb s "B")
  | Mul l => forallb toy_commutative l
  | _ => true
  end.

Definition toy_ask (f : Fact) (e : Expr) : option bool :=
  match f with
  | commutative => Some (toy_commutative e)
  | real | bounded => if symbol_in ["r"%string] e then Some true else None
  | nonnegative => if symbol_in ["p"%string] e then Some true else None
  | _ => None
  end.

(** [O(e)] contains [e] and itself, nothing else. *)
Definition toy_contains (o t : Expr) : bool :=
  match o with
  | Order e => Expr_eqb (match t with Order e' => e' | _ => t end) e
  | _ => false
  end.

Definition toy_Mul2 (c s : Expr) : Expr :=
  match c with
  | Num n =>
      if Number_eqb n One then s
      else
        match s with
        | Num m => Num (number_mul n m)
        | Mul (Num m :: rest) =>
            let nm := number_mul n m in
            if Number_eqb nm One
            then match rest with [x] => x | _ => Mul rest end
            else Mul (Num nm :: rest)
        | Mul rest => Mul (Num n :: rest)
        | _ => Mul [c; s]
        end
  | _ => Mul [c; s]
  end.

(** Integer powers of a rational are evaluated; any other power of a
    numeral is left as an opaque node. *)
Definition toy_Pow2 (b e : Expr) : Expr :=
  match b, e with
  | Num (Rat x), Num (Rat y) =>
      if Pos.eqb (Qden y) 1 then Num (Rat (Qred (Qpower x (Qnum y))))
      else Function "Pow" [b; e]
  | Num _, Num _ => Function "Pow" [b; e]
  | _, _ => Pow b e
  end.

Definition toy_as_base_exp (e : Expr) : Expr * Expr :=
  match e with
  | Pow b x => (b, x)
  | _ => (e, Num One)
  end.

Definition toy_keep_coeff (c : Number) (m : Expr) : Expr :=
  if Number_eqb c One then m
  else
    match m with
    | Num n => Num (number_mul c n)
    | Mul l => Mul (Num c :: l)
    | _ => Mul [Num c; m]
    end.

Definition toy_neg (e : Expr) : Expr := toy_Mul2 (Num NegativeOne) e.

Definition toy_subs_operand (s old new : Expr) : Expr :=
  if Expr_eqb s old then new else s.

Definition toy : Env := {|
  hash := toy_hash;
  ask := toy_ask;
  contains := toy_contains;
  Mul2 := toy_Mul2;
  Pow2 := toy_Pow2;
  as_base_exp := toy_as_base_exp;
  keep_coeff := toy_keep_coeff;
  neg := toy_neg;
  subs_operand := toy_subs_operand;
  is_FunctionClass := fun _ => false
|}.

Definition sym (s : string) : Expr := Symbol s.
Definition int (z : Z) : Expr := Num (Integer z).

(** ** Notions used in the statements *)

(** The operand tuple that the constructor builds from a result:
    [c_part + nc_part]. *)
Definition operands (r : Result) : list Expr := fst (fst r) ++ snd (fst r).

Definition key_sorted (key : Expr -> Z) (l : list Expr) : Prop :=
  StronglySorted (fun a b => key a <= key b) l.

(** The scalar in slot 0, unless it is zero. *)
Definition scalar_slot (c : Expr) : list Expr :=
  if is_Zero c then [] else [c].

(** Neither of two Order entries contains the other. *)
Definition unrelated (X : Env) (a b : Expr) : Prop :=
  contains X a b = false /\ contains X b a = false.

Section Worklist.

Variable X : Env.

(** What one pass of the loop appends to [seq]; it depends on the addend
    only. *)
Definition splice (o : Expr) : list Expr :=
  match o with
  | Add l => l
  | Mul _ =>
      let (c, s) := as_coeff_Mul o in
      if is_Add s then map (fun a => Mul2 X (Num c) a) (args_of s) else []
  | Pow _ _ =>
      let (b, e) := as_base_exp X o in
      if is_Number b && (is_Integer e || (is_Rational e && is_negative e))
      then [Pow2 X b e] else []
  | _ => []
  end.

(** The pair (residual, coefficient) that one pass hands to the dictionary,
    if any. *)
Definition term_of (o : Expr) : option (Expr * Number) :=
  match o with
  | Order _ | Num _ | ComplexInfinity | Add _ => None
  | Mul _ =>
      let (c, s) := as_coeff_Mul o in
      if is_Add s then None else Some (s, c)
  | Pow _ _ =>
      let (b, e) := as_base_exp X o in
      if is_Number b && (is_Integer e || (is_Rational e && is_negative e))
      then None else Some (o, One)
  | _ => Some (o, One)
  end.

(** The addends in the order in which a loop that never returns early walks
    them. *)
Fixpoint walk (fuel : nat) (seq : list Expr) : list Expr :=
  match seq with
  | [] => []
  | o :: rest =>
      match fuel with
      | O => []
      | S fuel' => o :: walk fuel' (rest ++ splice o)
      end
  end.

(** What one pass does to the dictionary. *)
Definition add_term (d : list (Expr * Number)) (o : Expr) : list (Expr * Number) :=
  match term_of o with
  | Some (s, c) => terms_add s c d
  | None => d
  end.

(** The coefficients handed over for the residual [s], summed in the order
    of the walk; [None] when no addend has this residual. *)
Definition sum_step (s : Expr) (acc : option Number) (o : Expr) : option Number :=
  match term_of o with
  | Some (s', c) =>
      if Expr_eqb s' s
      then Some (match acc with Some v => number_add v c | None => c end)
      else acc
  | None => acc
  end.

Definition coeff_sum (s : Expr) (l : list Expr) : option Number :=
  fold_left (sum_step s) l None.

(** A bound on the work that an addend causes: enough fuel for the loop. *)
Definition work (weight : Expr -> nat) (seq : list Expr) : nat :=
  list_sum (map (fun o => S (weight o)) seq).

Definition weight_ok (weight : Expr -> nat) : Prop :=
  forall o, (work weight (splice o) <= weight o)%nat.

End Worklist.

(** The loop body seen as three updates, one for each accumulator. *)
Section Updates.

Variable X : Env.

Definition scalar_step (c o : Expr) : option Expr :=
  match o with
  | Num n =>
      if is_NaN o || (is_zoo c && is_False (is_bounded X o)) then None
      else
        match c with
        | Num c0 =>
            if is_NaN (Num (number_add c0 n)) then None
            else Some (Num (number_add c0 n))
        | _ => Some c
        end
  | ComplexInfinity =>
      if is_False (is_bounded X c) then None else Some ComplexInfinity
  | _ => Some c
  end.

Definition order_step (os : list Expr) (o : Expr) : list Expr :=
  match o with
  | Order _ =>
      if existsb (fun o1 => contains X o1 o) os then os
      else o :: filter (fun o1 => negb (contains X o o1)) os
  | _ => os
  end.

Definition step_state (st : State) (o : Expr) : option State :=
  match scalar_step (coeff st) o with
  | None => None
  | Some c' =>
      Some (mkState c' (add_term X (terms st) o) (order_step (order_factors st) o))
  end.

(** The state after the addends [l], or [None] when one of them makes the
    loop return [[NaN]]. *)
Fixpoint run (l : list Expr) (st : State) : option State :=
  match l with
  | [] => Some st
  | o :: l' =>
      match step_state st o with
      | None => None
      | Some st' => run l' st'
      end
  end.

(** The list handed to the final sort. *)
Definition presort (st : State) : list Expr :=
  snd (process_order X (order_factors st) (coeff st)
         (prune X (coeff st) (build_newseq X (terms st)))).

Definition sort_input (fuel : nat) (seq : list Expr) : list Expr :=
  match collect X fuel seq initial with
  | Return (Some st) => presort st
  | _ => []
  end.

(** [contains] is transitive and antisymmetric. *)
Definition contains_order : Prop :=
  (forall a b c, contains X a b = true -> contains X b c = true ->
                 contains X a c = true)
  /\ (forall a b, contains X a b = true -> contains X b a = true -> a = b).

(** One more addend on a scalar that may already be lost. *)
Definition bind_scalar (c : option Expr) (o : Expr) : option Expr :=
  match c with
  | Some c' => scalar_step c' o
  | None => None
  end.

(** The update of the Order entries by the Order addend [o]. *)
Definition insert_order (os : list Expr) (o : Expr) : list Expr :=
  if existsb (fun o1 => contains X o1 o) os then os
  else o :: filter (fun o1 => negb (contains X o o1)) os.

(** Two addends in a row. *)
Definition two_steps (s : State) (a b : Expr) : option State :=
  match step_state s a with
  | Some s1 => step_state s1 b
  | None => None
  end.

End Updates.

(** The scalar of a state reached by the loop is a numeral or [zoo]. *)
Definition scalar_ok (c : Expr) : Prop := is_Number c = true \/ c = ComplexInfinity.

(** The scalar [c] and the addends [l] still to come cannot be added up. *)
Definition doomed (c : Expr) (l : list Expr) : Prop :=
  In (Num NaN) l
  \/ (In (Num Infinity) l /\ In (Num NegativeInfinity) l)
  \/ (In (Num Infinity) l /\ (c = Num NegativeInfinity \/ c = ComplexInfinity))
  \/ (In (Num NegativeInfinity) l /\ (c = Num Infinity \/ c = ComplexInfinity)).

(** The addends that are not sums; a sum only extends the worklist. *)
Definition not_Add (e : Expr) : bool := negb (is_Add e).

(** The scalar of a state that the loop reaches is never [NaN]. *)
Definition scalar_sane (c : Expr) : Prop :=
  (exists n, c = Num n /\ n <> NaN) \/ c = ComplexInfinity.

(** Two states with the same scalar, the same dictionary and the same Order
    entries, up to the order of the entries. *)
Definition state_equiv (s s' : State) : Prop :=
  coeff s = coeff s'
  /\ Permutation (terms s) (terms s')
  /\ Permutation (order_factors s) (order_factors s').

(** What every state of the loop satisfies. *)
Definition sane (s : State) : Prop :=
  scalar_sane (coeff s) /\ NoDup (map fst (terms s)).

(** The same outcome of the loop: [[NaN]] on both sides, or two equivalent
    states. *)
Definition opt_equiv (a b : option State) : Prop :=
  match a, b with
  | None, None => True
  | Some s, Some s' => state_equiv s s'
  | _, _ => False
  end.

(** The addends of a sequence once every nested [Add] is opened. *)
Fixpoint addends (e : Expr) : list Expr :=
  match e with
  | Add l => flat_map addends l
  | _ => [e]
  end.

(** A weight for the small instance. *)
Fixpoint toy_weight (e : Expr) : nat :=
  match e with
  | Add l => S (list_sum (map (fun a => S (toy_weight a)) l))
  | Mul l => 2 * list_sum (map toy_weight l)
  | Pow b x =>
      if is_Number b && (is_Integer x || (is_Rational x && is_negative x))
      then 1%nat else 0%nat
  | _ => 0%nat
  end.

(** [primitive]: an operand whose coefficient is a nonzero rational in
    lowest terms, and a sum with rational coefficients. *)
Definition finite_term (t : Z * Z * Expr) : bool :=
  let '(p, q, m) := t in
  (0 <? q) && negb (p =? 0) && (Z.gcd p q =? 1) && negb (is_zoo m).

Definition rational_coefficients (self : Expr) : bool :=
  is_Add self
  && negb (match args_of self with [] => true | _ => false end)
  && forallb finite_term (map split_term (args_of self)).

(** The numerator and the denominator of the content of a sum. *)
Definition content_p (self : Expr) : Z :=
  igcd_all (map (fun t => fst (fst t)) (map split_term (args_of self))).

Definition content_q (self : Expr) : Z :=
  ilcm_all (map (fun t => snd (fst t)) (map split_term (args_of self))).

(** The integer coefficient [(p//ngcd)*(dlcm//q)] of a rescaled operand. *)
Definition new_coeff (ngcd dlcm : Z) (t : Z * Z * Expr) : Z :=
  (fst (fst t) / ngcd) * (dlcm / snd (fst t)).

(** [_keep_coeff] gives back, for each rescaled operand, an operand that
    splits into its coefficient and its residual again. *)
Definition keeps_split (X : Env) (self : Expr) : Prop :=
  Forall (fun t =>
            as_coeff_Mul
              (keep_coeff X (Integer (new_coeff (content_p self) (content_q self) t))
                 (snd t))
            = (Integer (new_coeff (content_p self) (content_q self) t), snd t))
    (map split_term (args_of self)).

(** ** Other methods of [Add] *)

(** [self._new_rawargs(args)] is defined in [operations.py], outside the
    sources: the methods that call it take it as a parameter. *)
Section RawArgs.

Variable new_rawargs : list Expr -> Expr.

(** [self.as_two_terms()]: the head and the tail of the operands. *)
Definition as_two_terms (self : Expr) : Outcome (Expr * Expr) :=
  match args_of self with
  | [] => Raise IndexError
  | [_] => Return (Num Zero, self)
  | a :: rest => Return (a, new_rawargs rest)
  end.

(** [self.removeO()] and [self.getO()]; [getO] answers [None] when no operand
    is an Order node. *)
Definition removeO (self : Expr) : Expr :=
  new_rawargs (filter (fun a => negb (is_Order a)) (args_of self)).

Definition getO (self : Expr) : option Expr :=
  match filter is_Order (args_of self) with
  | [] => None
  | args => Some (new_rawargs args)
  end.

End RawArgs.

(** [self.extract_leading_order(symbols)]; [Order_of f] stands for
    [C.Order(f, symbols)] with the symbols of the call. *)
Section LeadingOrder.

Variable X : Env.
Variable Order_of : Expr -> Expr.

(** [o.contains(o') and o' != o] *)
Definition contains_other (o o' : Expr) : bool :=
  contains X o o' && negb (Expr_eqb o o').

Definition leading_step (lst : list (Expr * Expr)) (p : Expr * Expr)
  : list (Expr * Expr) :=
  if existsb (fun eo => contains_other (snd eo) (snd p)) lst then lst
  else p :: filter (fun eo => negb (contains X (snd p) (snd eo)
                                    && negb (Expr_eqb (snd eo) (snd p)))) lst.

Definition extract_leading_order (self : Expr) : list (Expr * Expr) :=
  fold_left leading_step (map (fun f => (f, Order_of f)) (args_of self)) [].

End LeadingOrder.

(** [self._eval_is_irrational()]; the two attributes it reads are
    parameters. *)
Section Irrational.

Variable is_irrational : Expr -> option bool.
Variable is_rational : Expr -> option bool.

(** [others.remove(t)]: the first element equal to [t] goes. *)
Fixpoint remove_first (t : Expr) (l : list Expr) : list Expr :=
  match l with
  | [] => []
  | x :: l' => if Expr_eqb x t then l' else x :: remove_first t l'
  end.

Definition is_True (a : option bool) : bool :=
  match a with Some true => true | _ => false end.

Fixpoint irrational_loop (args todo : list Expr) : option bool :=
  match todo with
  | [] => Some false
  | t :: todo' =>
      match is_irrational t with
      | Some true =>
          if forallb (fun x => is_True (is_rational x)) (remove_first t args)
          then Some true else None
      | None => None
      | Some false => irrational_loop args todo'
      end
  end.

Definition eval_is_irrational (self : Expr) : option bool :=
  irrational_loop (args_of self) (args_of self).

End Irrational.

(** [self._eval_is_positive()] and [self._eval_is_negative()]; the sign
    attributes they read are a parameter. *)
Inductive Sign : Type :=
| Positive | Negative | NonNegative | NonPositive | Unbounded.

Section Signs.

Variable new_rawargs : list Expr -> Expr.
Variable sign : Sign -> Expr -> option bool.

Definition eval_is_positive (self : Expr) : Outcome (option bool) :=
  match as_two_terms new_rawargs self with
  | Return (c, r) =>
      Return
        (if truth (sign Positive c) && truth (sign Positive r) then Some true
         else if truth (sign Unbounded c) then
                if truth (sign Unbounded r) then None else sign Positive c
         else if truth (sign Unbounded r) then sign Positive r
         else if truth (sign NonNegative c) && truth (sign Positive r)
         then Some true
         else if truth (sign NonNegative r) && truth (sign Positive c)
         then Some true
         else if truth (sign NonPositive c) && truth (sign NonPositive r)
         then Some false
         else None)
  | Raise e => Raise e
  | OutOfFuel => OutOfFuel
  end.

Definition eval_is_negative (self : Expr) : Outcome (option bool) :=
  match as_two_terms new_rawargs self with
  | Return (c, r) =>
      Return
        (if truth (sign Negative c) && truth (sign Negative r) then Some true
         else if truth (sign Unbounded c) then
                if truth (sign Unbounded r) then None else sign Negative c
         else if truth (sign Unbounded r) then sign Negative r
         else if truth (sign NonPositive c) && truth (sign Negative r)
         then Some true
         else if truth (sign NonPositive r) && truth (sign Negative c)
         then Some true
         else if truth (sign NonNegative c) && truth (sign NonNegative r)
         then Some false
         else None)
  | Raise e => Raise e
  | OutOfFuel => OutOfFuel
  end.

End Signs.

(** The sign attributes with positive and negative exchanged. *)
Definition mirror (s : Sign) : Sign :=
  match s with
  | Positive => Negative
  | Negative => Positive
  | NonNegative => NonPositive
  | NonPositive => NonNegative
  | Unbounded => Unbounded
  end.

(** No node is known to have two signs that exclude each other. *)
Definition consistent_signs (sign : Sign -> Expr -> option bool) : Prop :=
  forall e,
    ~ (truth (sign Positive e) = true /\ truth (sign Negative e) = true)
    /\ ~ (truth (sign Positive e) = true /\ truth (sign NonPositive e) = true)
    /\ ~ (truth (sign Negative e) = true /\ truth (sign NonNegative e) = true).

(** [a.as_coefficients_dict()]: the lists of coefficients by residual, then
    one value for each key, and a lookup that answers 0 for a missing key
    (the [defaultdict(int)] of the source). *)
Fixpoint dict_append (m : Expr) (c : Number) (d : list (Expr * list Number))
  : list (Expr * list Number) :=
  match d with
  | [] => [(m, [c])]
  | (k, v) :: d' =>
      if Expr_eqb k m then (k, v ++ [c]) :: d' else (k, v) :: dict_append m c d'
  end.

Definition coefficient_lists (args : list Expr) : list (Expr * list Number) :=
  fold_left (fun d ai => dict_append (snd (as_coeff_Mul ai))
                           (fst (as_coeff_Mul ai)) d) args [].

Section CoefficientsDict.

Variable X : Env.

Definition dict_value (fuel : nat) (v : list Number) : Outcome Expr :=
  match v with
  | [c] => Return (Num c)
  | _ => Add_new X fuel (map Num v)
  end.

Fixpoint dict_values (fuel : nat) (d : list (Expr * list Number))
  : Outcome (list (Expr * Expr)) :=
  match d with
  | [] => Return []
  | (k, v) :: d' =>
      match dict_value fuel v, dict_values fuel d' with
      | Return x, Return r => Return ((k, x) :: r)
      | Raise e, _ => Raise e
      | _, Raise e => Raise e
      | _, _ => OutOfFuel
      end
  end.

Definition as_coefficients_dict (fuel : nat) (a : Expr)
  : Outcome (list (Expr * Expr)) :=
  dict_values fuel (coefficient_lists (args_of a)).

End CoefficientsDict.

Fixpoint dict_get (k : Expr) (d : list (Expr * Expr)) : Expr :=
  match d with
  | [] => Num Zero
  | (k', v) :: d' => if Expr_eqb k' k then v else dict_get k d'
  end.

(** The sum of a list of rationals as the loop accumulates it. *)
Definition rational_total (qs : list Q) : Q :=
  fold_left (fun acc q => Qred (acc + q)) qs (0 # 1).

(** An Order entry of [os] is [o] or contains it. *)
Definition covered (X : Env) (os : list Expr) (o : Expr) : Prop :=
  exists k, In k os /\ (k = o \/ contains X k o = true).

(** What [extract_leading_order] keeps true of its list while it runs: every
    entry pairs an operand of the sum with its own Order node, and no entry's
    Order node contains another entry's different one. *)
Definition leading_ok (X : Env) (Order_of : Expr -> Expr)
    (args : list Expr) (lst : list (Expr * Expr)) : Prop :=
  Forall (fun eo => In (fst eo) args /\ snd eo = Order_of (fst eo)) lst
  /\ ForallOrdPairs
       (fun p q => contains_other X (snd p) (snd q) = false
                   /\ contains_other X (snd q) (snd p) = false) lst.

(** An operand behind the numeral of a sum in canonical form: no numeral and
    no sum. *)
Definition plain_operand (t : Expr) : Prop :=
  is_Number t = false /\ is_Add t = false.

(** The operand that stands for the dictionary entry of the term [s] with
    the coefficient [c]: the bare term for the coefficient one; for a
    coefficient other than zero and one, the term with [c] in its leading slot
    when the term is a product, and the product of [c] and the term built by
    the constructor otherwise.  The coefficient zero has no operand. *)
Definition emitted (X : Env) (s : Expr) (c : Number) (f : Expr) : Prop :=
  (c = One /\ f = s)
  \/ (c <> Zero /\ c <> One
      /\ ((exists l, s = Mul l /\ f = Mul (Num c :: l))
          \/ (is_Mul s = false /\ f = Mul2 X (Num c) s))).

(** * Properties *)

(** ** The loop *)

Section LoopFacts.

Variable X : Env.

Lemma body_cases : forall st o,
  body X st o = ReturnNaN \/
  exists st', body X st o = Continue st' (splice X o).
Proof.
  intros st o. destruct o; cbn [body splice].
  - destruct (is_NaN (Num n) || _); [now left|].
    destruct (coeff st); try (right; eexists; reflexivity).
    destruct (is_NaN _); [now left | right; eexists; reflexivity].
  - destruct (is_False _); [now left | right; eexists; reflexivity].
  - right; eexists; reflexivity.
  - right; eexists; reflexivity.
  - destruct (as_coeff_Mul (Mul args)) as [c s].
    destruct (is_Add s); right; eexists; reflexivity.
  - destruct (as_base_exp X (Pow o1 o2)) as [b e].
    destruct (is_Number b && _); right; eexists; reflexivity.
  - destruct (existsb _ _); right; eexists; reflexivity.
  - right; eexists; reflexivity.
Qed.

Lemma collect_more_fuel : forall fuel seq st r,
  collect X fuel seq st = Return r ->
  forall fuel', (fuel <= fuel')%nat -> collect X fuel' seq st = Return r.
Proof.
  induction fuel as [|n IH]; intros seq st r H fuel' Hle.
  - destruct seq; [|discriminate]. destruct fuel'; exact H.
  - destruct seq as [|o rest]; [destruct fuel'; exact H|].
    destruct fuel' as [|m]; [lia|]. simpl in *.
    destruct (body X st o); [exact H|]. apply IH; [exact H | lia].
Qed.

End LoopFacts.

(** ** Indeterminate sums *)

Section Indeterminate.

Variable X : Env.

Lemma In_firstn_app : forall (x : Expr) k l ext,
  In x (firstn k l) -> In x (firstn k (l ++ ext)).
Proof.
  intros x k. induction k as [|k IH]; intros l ext H; [destruct H|].
  destruct l as [|y l]; [destruct H|]. simpl in *.
  destruct H as [H|H]; [now left | right; now apply IH].
Qed.

Lemma doomed_app : forall c k l ext,
  doomed c (firstn k l) -> doomed c (firstn k (l ++ ext)).
Proof.
  unfold doomed. intros c k l ext H.
  repeat match goal with
         | H : _ \/ _ |- _ => destruct H as [H|H]
         | H : _ /\ _ |- _ => destruct H
         end;
    eauto 8 using In_firstn_app.
Qed.

Ltac doom_split H :=
  unfold doomed in H; simpl in H;
  repeat match goal with
         | H : _ \/ _ |- _ => destruct H as [H|H]
         | H : _ /\ _ |- _ => destruct H
         | H : Num _ = Num _ |- _ => inversion H; clear H
         | H : False |- _ => destruct H
         end; try discriminate; try congruence.

Lemma doomed_returns_NaN : forall k fuel seq st,
  (k <= fuel)%nat -> scalar_ok (coeff st) -> doomed (coeff st) (firstn k seq) ->
  collect X fuel seq st = Return None.
Proof.
  induction k as [|k IH]; intros fuel seq st Hk Hc Hd.
  - unfold doomed in Hd; simpl in Hd. tauto.
  - destruct seq as [|o rest]; [unfold doomed in Hd; simpl in Hd; tauto|].
    destruct fuel as [|fuel]; [lia|]. cbn [collect firstn] in *.
    assert (Hgo : forall st', scalar_ok (coeff st') ->
              doomed (coeff st') (firstn k rest) ->
              collect X fuel (rest ++ splice X o) st' = Return None).
    { intros st' H1 H2. apply IH; [lia | exact H1 | now apply doomed_app]. }
    assert (Hsame : ~ is_Number o = true -> o <> ComplexInfinity ->
              doomed (coeff st) (firstn k rest)).
    { intros Hn Hz. unfold doomed in *. simpl in Hd.
      assert (forall n, In (Num n) (o :: firstn k rest) -> In (Num n) (firstn k rest)).
      { intros n [E|E]; [subst o; simpl in Hn; congruence | exact E]. }
      simpl in H. intuition. }
    destruct (body_cases X st o) as [E|[st' E]]; rewrite E; [reflexivity|].
    destruct o; cbn [body] in E.
    + (* a numeral *)
      destruct (is_NaN (Num n) || (is_zoo (coeff st) && is_False (is_bounded X (Num n))))
        eqn:Ht; [discriminate|].
      apply orb_false_iff in Ht. destruct Ht as [Hn Hz].
      destruct Hc as [Hc|Hc].
      * destruct (coeff st) as [c| | | | | | |] eqn:Ec; try discriminate.
        destruct (is_NaN (Num (number_add c n))) eqn:Hs; [discriminate|].
        inversion E; subst st'. apply Hgo; [left; reflexivity|]. cbn [coeff].
        destruct n, c; simpl in Hn, Hs; try discriminate;
          doom_split Hd; unfold doomed; simpl; tauto.
      * rewrite Hc in *. simpl in Hz, E. inversion E; subst st'.
        apply Hgo; [right; exact Hc|]. rewrite Hc.
        destruct n; simpl in Hn, Hz; try discriminate;
          doom_split Hd; unfold doomed; simpl; tauto.
    + (* zoo *)
      destruct (is_False (is_bounded X (coeff st))) eqn:Hb; [discriminate|].
      inversion E; subst st'. apply Hgo; [right; reflexivity|]. cbn [coeff].
      destruct Hc as [Hc|Hc].
      * destruct (coeff st) as [c| | | | | | |]; try discriminate.
        destruct c; simpl in Hb; try discriminate;
          doom_split Hd; unfold doomed; simpl; tauto.
      * rewrite Hc in Hb. discriminate.
    + inversion E; subst st'. apply Hgo; [exact Hc|]. apply Hsame; discriminate.
    + inversion E; subst st'. apply Hgo; [exact Hc|]. apply Hsame; discriminate.
    + assert (coeff st' = coeff st) as Ec.
      { destruct (as_coeff_Mul (Mul args)) as [c s].
        destruct (is_Add s); inversion E; reflexivity. }
      apply Hgo; rewrite Ec; [exact Hc|]. apply Hsame; discriminate.
    + assert (coeff st' = coeff st) as Ec.
      { destruct (as_base_exp X (Pow o1 o2)) as [b e].
        destruct (is_Number b && _); inversion E; reflexivity. }
      apply Hgo; rewrite Ec; [exact Hc|]. apply Hsame; discriminate.
    + assert (coeff st' = coeff st) as Ec.
      { destruct (existsb _ _); inversion E; reflexivity. }
      apply Hgo; rewrite Ec; [exact Hc|]. apply Hsame; discriminate.
    + inversion E; subst st'. apply Hgo; [exact Hc|]. apply Hsame; discriminate.
Qed.

Lemma shortcut_sentinel : forall seq,
  In (Num NaN) seq \/ (In (Num Infinity) seq /\ In (Num NegativeInfinity) seq) ->
  shortcut X seq = Raise AssertionError \/ shortcut X seq = Return None.
Proof.
  intros seq H.
  destruct seq as [|a0 [|b0 [|c0 tl]]]; try (right; reflexivity).
  cbn [shortcut].
  assert (Hs : (a0 = Num NaN \/ b0 = Num NaN)
               \/ (is_Rational a0 = true /\ is_Rational b0 = true
                   /\ (forall r, a0 <> Num (Rat r)) /\ (forall r, b0 <> Num (Rat r)))).
  { simpl in H. destruct H as [[H|[H|[]]]|[[H1|[H1|[]]] [H2|[H2|[]]]]];
      subst; auto; try congruence;
      right; repeat split; try reflexivity; intros r; discriminate. }
  destruct Hs as [[Ha|Hb]|(Ha & Hb & Hna & Hnb)].
  - subst a0. destruct (is_Rational b0) eqn:Eb.
    + destruct (truthy b0); [|now left]. simpl.
      destruct b0 as [n| | | | | | |]; try discriminate.
      destruct n; right; reflexivity.
    + right. reflexivity.
  - subst b0. right. reflexivity.
  - rewrite Hb. destruct b0 as [n| | | | | | |]; try discriminate.
    destruct n as [r| | |]; [exfalso; now apply (Hnb r) | | |];
      right; reflexivity.
Qed.

End Indeterminate.

(** A sequence that holds [NaN] among the addends given, or both
    [Infinity] and [NegativeInfinity], flattens to the single operand
    [[NaN]], returned as an ordinary result, as soon as the fuel covers the
    addends given (the loop returns at the first addend that makes the scalar
    [NaN], whatever would follow); and any pass in which [coeff += o] gives
    [NaN] returns at once.  The entry assertion [assert a] of the two operand
    shortcut is taken as satisfied. *)
Theorem nan_absorption : forall X fuel seq,
  (List.length seq <= fuel)%nat ->
  shortcut X seq <> Raise AssertionError ->
  In (Num NaN) seq \/ (In (Num Infinity) seq /\ In (Num NegativeInfinity) seq) ->
  flatten X fuel seq = Return NaN_result
  /\ forall c n ts os rest,
       number_add c n = NaN ->
       collect X (S fuel) (Num n :: rest) (mkState (Num c) ts os) = Return None.
Proof.
  intros X fuel seq Hfuel Hassert H. split.
  - unfold flatten.
    destruct (shortcut_sentinel X seq H) as [E|E]; [contradiction|].
    rewrite E. unfold flatten_general.
    rewrite (doomed_returns_NaN X (List.length seq) fuel seq initial);
      [reflexivity | exact Hfuel | left; reflexivity |].
    rewrite firstn_all. unfold doomed. tauto.
  - intros c n ts os rest Hn. cbn [collect body coeff].
    destruct (is_NaN (Num n) || _); [reflexivity|].
    rewrite Hn. reflexivity.
Qed.

Lemma nan_absorption_witness :
  flatten toy 3 [sym "x"; Num Infinity; Num NegativeInfinity] = Return NaN_result.
Proof.
  apply (nan_absorption toy 3 [sym "x"; Num Infinity; Num NegativeInfinity]).
  - simpl. lia.
  - simpl. discriminate.
  - right. simpl. split; [right; left | right; right; left]; reflexivity.
Defined.

(** C3.  The claim fails on [3 + oo*(x + y)].  The two operand shortcut
    expands the product, multiplies the coefficient [oo] with the numeral 0
    that [as_coeff_Add] answers for a sum without a numeral, puts the [NaN]
    so obtained in slot 0 and adds 3 to it: the scalar is [NaN] and the result
    holds it beside the two other operands instead of being [[NaN]].  The
    term collection path never forms this product and answers
    [3 + oo*x + oo*y]. *)
Theorem C3_shortcut_keeps_NaN :
  flatten toy 4 [int 3; Mul [Num Infinity; Add [sym "x"; sym "y"]]]
  = Return ([Num NaN; Mul [Num Infinity; sym "x"]; Mul [Num Infinity; sym "y"]],
            [], None)
  /\ flatten toy 4 [int 3; Mul [Num Infinity; Add [sym "x"; sym "y"]]]
     <> Return NaN_result
  /\ expand_2arg toy (Mul [Num Infinity; Add [sym "x"; sym "y"]])
     = Return (Add [Num NaN; Mul [Num Infinity; sym "x"];
                    Mul [Num Infinity; sym "y"]])
  /\ flatten_general toy 4 [int 3; Mul [Num Infinity; Add [sym "x"; sym "y"]]]
     = Return ([int 3; Mul [Num Infinity; sym "x"]; Mul [Num Infinity; sym "y"]],
               [], None).
Proof.
  split; [reflexivity|]. split; [discriminate|]. split; reflexivity.
Qed.

(** C6 as stated fails: with the bounded numeral 1 as running scalar, a
    [ComplexInfinity] addend does not give [[NaN]]; the scalar becomes
    [ComplexInfinity]. *)
Lemma C6_counterexample :
  flatten toy 2 [int 1; ComplexInfinity] = Return ([ComplexInfinity], [], None)
  /\ flatten toy 2 [int 1; ComplexInfinity] <> Return NaN_result.
Proof.
  split; [reflexivity | discriminate].
Qed.

(** C6 (amended).  On a [ComplexInfinity] addend the loop returns [[NaN]]
    when the running scalar is unbounded, that is [Infinity],
    [NegativeInfinity] (an earlier infinite value whose sign may be the
    opposite one) or [ComplexInfinity] itself; when the running scalar is a
    bounded numeral, the scalar is set to [ComplexInfinity] and the loop goes
    on with the next addend. *)
Theorem C6_complex_infinity : forall X fuel rest ts os,
  collect X (S fuel) (ComplexInfinity :: rest) (mkState (Num Infinity) ts os)
    = Return None
  /\ collect X (S fuel) (ComplexInfinity :: rest) (mkState (Num NegativeInfinity) ts os)
    = Return None
  /\ collect X (S fuel) (ComplexInfinity :: rest) (mkState ComplexInfinity ts os)
    = Return None
  /\ (forall r,
        collect X (S fuel) (ComplexInfinity :: rest) (mkState (Num (Rat r)) ts os)
        = collect X fuel rest (mkState ComplexInfinity ts os))
  /\ flatten_general X (S (S fuel)) (Num Infinity :: ComplexInfinity :: rest)
     = Return NaN_result
  /\ flatten_general X (S (S fuel)) (Num NegativeInfinity :: ComplexInfinity :: rest)
     = Return NaN_result.
Proof.
  intros X fuel rest ts os. repeat split; try reflexivity.
  intros r. cbn [collect body coeff is_bounded number_is_bounded is_False
                 terms order_factors].
  rewrite app_nil_r. reflexivity.
Qed.

(** C10.  The shortcut and the term collection path disagree on
    [3 + (zoo + x)]: the shortcut tests [bargs[0].is_Number] only, so it puts
    the numeral in front of [zoo], while the general path lets [zoo] absorb
    the numeral.  They also disagree on [3 + A*B] with [A], [B] that do not
    commute: the shortcut answers in the commutative part. *)
Theorem C10_shortcut_differs :
  flatten toy 4 [int 3; Add [ComplexInfinity; sym "x"]]
    = Return ([int 3; ComplexInfinity; sym "x"], [], None)
  /\ flatten_general toy 4 [int 3; Add [ComplexInfinity; sym "x"]]
    = Return ([ComplexInfinity; sym "x"], [], None)
  /\ flatten toy 4 [ComplexInfinity; sym "x"]
    = Return ([ComplexInfinity; sym "x"], [], None)
  /\ flatten toy 4 [int 3; Mul [sym "A"; sym "B"]]
    = Return ([int 3; Mul [sym "A"; sym "B"]], [], None)
  /\ flatten_general toy 4 [int 3; Mul [sym "A"; sym "B"]]
    = Return ([], [int 3; Mul [sym "A"; sym "B"]], None).
Proof.
  repeat split; reflexivity.
Qed.

(** ** Sorting by key *)

Section Sorting.

Variable key : Expr -> Z.

Lemma insert_by_perm : forall x l, Permutation (insert_by key x l) (x :: l).
Proof.
  intros x l. induction l as [|y l IH]; simpl; [reflexivity|].
  destruct (key x <=? key y); [reflexivity|].
  rewrite IH. apply perm_swap.
Qed.

Lemma sort_by_perm : forall l, Permutation (sort_by key l) l.
Proof.
  induction l as [|x l IH]; simpl; [constructor|].
  rewrite insert_by_perm. now constructor.
Qed.

Lemma insert_by_sorted : forall x l,
  key_sorted key l -> key_sorted key (insert_by key x l).
Proof.
  intros x l H. induction H as [|y l Hs IH Hy]; simpl.
  - repeat constructor.
  - destruct (key x <=? key y) eqn:E.
    + apply Z.leb_le in E. constructor; [constructor; assumption|].
      constructor; [exact E|].
      rewrite Forall_forall in *. intros z Hz. specialize (Hy z Hz). lia.
    + apply Z.leb_gt in E. constructor; [exact IH|].
      rewrite Forall_forall in *. intros z Hz.
      apply (Permutation_in _ (insert_by_perm x l)) in Hz.
      destruct Hz as [Hz|Hz]; [subst z; lia | now apply Hy].
Qed.

Lemma sort_by_sorted : forall l, key_sorted key (sort_by key l).
Proof.
  induction l as [|x l IH]; simpl; [constructor | now apply insert_by_sorted].
Qed.

Lemma insert_by_swap : forall x y l,
  key x <> key y ->
  insert_by key x (insert_by key y l) = insert_by key y (insert_by key x l).
Proof.
  intros x y l Hxy. induction l as [|z l IH]; simpl.
  - destruct (key x <=? key y) eqn:E1, (key y <=? key x) eqn:E2;
      try reflexivity;
      [apply Z.leb_le in E1; apply Z.leb_le in E2 |
       apply Z.leb_gt in E1; apply Z.leb_gt in E2]; lia.
  - destruct (key y <=? key z) eqn:Ey, (key x <=? key z) eqn:Ex; simpl;
      rewrite ?Ex, ?Ey;
      destruct (key x <=? key y) eqn:E1, (key y <=? key x) eqn:E2;
      try reflexivity; try (rewrite IH; reflexivity);
      repeat match goal with
             | H : (_ <=? _) = true |- _ => apply Z.leb_le in H
             | H : (_ <=? _) = false |- _ => apply Z.leb_gt in H
             end; lia.
Qed.

(** Without two equal keys, the sorted list depends on the elements only. *)
Lemma sort_by_unique : forall l l',
  Permutation l l' -> NoDup (map key l) -> sort_by key l = sort_by key l'.
Proof.
  intros l l' H. induction H as [|x l l' H IH|x y l|l l' l'' H1 IH1 H2 IH2];
    intros Hnd.
  - reflexivity.
  - simpl. inversion Hnd; subst. now rewrite IH.
  - simpl. apply insert_by_swap.
    inversion Hnd as [|? ? Hin _]; subst. intros E. apply Hin. left. now symmetry.
  - rewrite IH1 by exact Hnd. apply IH2.
    apply (Permutation_NoDup (Permutation_map key H1) Hnd).
Qed.

End Sorting.

(** ** What the loop maintains *)

Section Invariants.

Variable X : Env.

Lemma collect_invariant : forall (P : State -> Prop),
  (forall st o st' ext, P st -> body X st o = Continue st' ext -> P st') ->
  forall fuel seq st st',
    P st -> collect X fuel seq st = Return (Some st') -> P st'.
Proof.
  intros P Hstep. induction fuel as [|n IH]; intros seq st st' HP H.
  - destruct seq; [|discriminate]. inversion H; subst. exact HP.
  - destruct seq as [|o rest]; [inversion H; subst; exact HP|].
    simpl in H. destruct (body X st o) as [|st1 ext] eqn:E; [discriminate|].
    eapply IH; [|exact H]. eapply Hstep; eauto.
Qed.

Lemma body_orders : forall st o st' ext,
  body X st o = Continue st' ext ->
  order_factors st' = order_factors st
  \/ (is_Order o = true
      /\ existsb (fun o1 => contains X o1 o) (order_factors st) = false
      /\ order_factors st'
         = o :: filter (fun o1 => negb (contains X o o1)) (order_factors st)).
Proof.
  intros st o st' ext E. destruct o; cbn [body] in E.
  - destruct (is_NaN (Num n) || _); [discriminate|].
    destruct (coeff st); try (inversion E; now left).
    destruct (is_NaN _); [discriminate | inversion E; now left].
  - destruct (is_False _); [discriminate | inversion E; now left].
  - inversion E; now left.
  - inversion E; now left.
  - destruct (as_coeff_Mul (Mul args)) as [c s].
    destruct (is_Add s); inversion E; now left.
  - destruct (as_base_exp X (Pow o1 o2)) as [b e].
    destruct (is_Number b && _); inversion E; now left.
  - destruct (existsb _ _) eqn:Ex; inversion E; [now left|].
    right. repeat split. 
  - inversion E; now left.
Qed.

Lemma FOP_filter : forall (R : Expr -> Expr -> Prop) f l,
  ForallOrdPairs R l -> ForallOrdPairs R (filter f l).
Proof.
  intros R f l H. induction H as [|a l Ha Hl IH]; simpl; [constructor|].
  destruct (f a); [|exact IH]. constructor; [|exact IH].
  rewrite Forall_forall in *. intros x Hx. apply filter_In in Hx. now apply Ha.
Qed.

Lemma orders_unrelated : forall fuel seq st,
  collect X fuel seq initial = Return (Some st) ->
  ForallOrdPairs (unrelated X) (order_factors st)
  /\ Forall (fun o => is_Order o = true) (order_factors st).
Proof.
  intros fuel seq st H.
  apply (collect_invariant
           (fun s => ForallOrdPairs (unrelated X) (order_factors s)
                     /\ Forall (fun o => is_Order o = true) (order_factors s)))
    with (fuel := fuel) (seq := seq) (st := initial); [| |exact H].
  - intros s o s' ext [HP HO] E.
    destruct (body_orders _ _ _ _ E) as [Eo|(Ho & Hex & Eo)]; rewrite Eo.
    + now split.
    + split.
      * constructor; [|now apply FOP_filter].
        rewrite Forall_forall. intros x Hx. apply filter_In in Hx.
        destruct Hx as [Hx Hc]. split.
        -- now apply negb_true_iff in Hc.
        -- destruct (contains X x o) eqn:Ec; [|reflexivity].
           assert (existsb (fun o1 => contains X o1 o) (order_factors s) = true)
             by (apply existsb_exists; eauto).
           congruence.
      * constructor; [exact Ho|].
        rewrite Forall_forall in *. intros x Hx. apply filter_In in Hx.
        now apply HO.
  - split; constructor.
Qed.

End Invariants.

(** ** Pruning and Order terms *)

Section Finish.

Variable X : Env.

Lemma operands_finish : forall st,
  operands (finish X st)
  = scalar_slot (fst (process_order X (order_factors st) (coeff st)
                        (prune X (coeff st) (build_newseq X (terms st)))))
    ++ sort_by (hash X)
         (snd (process_order X (order_factors st) (coeff st)
                 (prune X (coeff st) (build_newseq X (terms st))))).
Proof.
  intros st. unfold finish, operands, scalar_slot.
  destruct (process_order _ _ _ _) as [c' newseq]. simpl.
  destruct (is_noncommutative X (terms st)), (is_Zero c'); simpl;
    rewrite ?app_nil_r; reflexivity.
Qed.

Lemma operands_finish_In : forall st f,
  In f (operands (finish X st)) ->
  f = coeff st \/ In f (order_factors st)
  \/ (In f (prune X (coeff st) (build_newseq X (terms st)))
      /\ absorbed X (order_factors st) f = false).
Proof.
  intros st f H. rewrite operands_finish in H. apply in_app_or in H.
  unfold process_order in H.
  destruct (order_factors st) as [|o os] eqn:Eo; cbn [fst snd] in H.
  - destruct H as [H|H].
    + unfold scalar_slot in H. destruct (is_Zero (coeff st)); simpl in H;
        [tauto | left; symmetry; tauto].
    + right; right. split; [|reflexivity].
      apply (Permutation_in _ (sort_by_perm _ _)) in H. exact H.
  - destruct H as [H|H].
    + unfold scalar_slot in H.
      destruct (absorbed X (o :: os) (coeff st)); simpl in H; [tauto|].
      destruct (is_Zero (coeff st)); simpl in H; [tauto | left; symmetry; tauto].
    + apply (Permutation_in _ (sort_by_perm _ _)) in H.
      apply in_app_or in H. destruct H as [H|H]; [|now (right; left)].
      apply filter_In in H. destruct H as [H1 H2].
      right; right. split; [exact H1 | now apply negb_true_iff in H2].
Qed.

End Finish.






(** ** Like terms *)

Section LikeTerms.

Variable X : Env.

Lemma body_terms : forall st o st' ext,
  body X st o = Continue st' ext -> terms st' = add_term X (terms st) o.
Proof.
  intros st o st' ext E. unfold add_term.
  destruct o; cbn [body term_of] in *.
  - destruct (is_NaN (Num n) || _); [discriminate|].
    destruct (coeff st); try (inversion E; reflexivity).
    destruct (is_NaN _); [discriminate | inversion E; reflexivity].
  - destruct (is_False _); [discriminate | inversion E; reflexivity].
  - inversion E; reflexivity.
  - inversion E; reflexivity.
  - destruct (as_coeff_Mul (Mul args)) as [c s].
    destruct (is_Add s); inversion E; reflexivity.
  - destruct (as_base_exp X (Pow o1 o2)) as [b e].
    destruct (is_Number b && _); inversion E; reflexivity.
  - destruct (existsb _ _); inversion E; reflexivity.
  - inversion E; reflexivity.
Qed.

Lemma body_scaled : forall st c t,
  is_Add t = false -> body X st (Mul [Num c; t]) = collect_term st c t.
Proof.
  intros st c t Ha. cbn [body as_coeff_Mul]. now rewrite Ha.
Qed.

Lemma collect_terms : forall fuel seq st st',
  collect X fuel seq st = Return (Some st') ->
  terms st' = fold_left (add_term X) (walk X fuel seq) (terms st).
Proof.
  induction fuel as [|n IH]; intros seq st st' H.
  - destruct seq; [|discriminate]. inversion H; reflexivity.
  - destruct seq as [|o rest]; [inversion H; reflexivity|].
    cbn [collect walk fold_left] in *.
    destruct (body_cases X st o) as [E|[st1 E]]; rewrite E in H; [discriminate|].
    rewrite (IH _ _ _ H). now rewrite (body_terms _ _ _ _ E).
Qed.

Lemma terms_get_add : forall s s' c d,
  terms_get s (terms_add s' c d)
  = if Expr_eqb s' s
    then Some (match terms_get s d with Some v => number_add v c | None => c end)
    else terms_get s d.
Proof.
  intros s s' c d. induction d as [|[k v] d IH]; simpl.
  - destruct (Expr_eqb s' s); reflexivity.
  - destruct (Expr_eqb k s') eqn:E1; simpl.
    + apply Expr_eqb_eq in E1. subst k.
      destruct (Expr_eqb s' s); reflexivity.
    + destruct (Expr_eqb k s) eqn:E2.
      * apply Expr_eqb_eq in E2. subst k. now rewrite Expr_eqb_sym_false.
      * exact IH.
Qed.

Lemma terms_get_fold : forall s l d,
  terms_get s (fold_left (add_term X) l d)
  = fold_left (sum_step X s) l (terms_get s d).
Proof.
  intros s l. induction l as [|o l IH]; intros d; [reflexivity|].
  simpl. rewrite IH. f_equal. unfold add_term, sum_step.
  destruct (term_of X o) as [[s' c]|]; [|reflexivity].
  apply terms_get_add.
Qed.

Lemma terms_add_keys : forall s c d,
  map fst (terms_add s c d) = map fst d
  \/ (map fst (terms_add s c d) = map fst d ++ [s] /\ ~ In s (map fst d)).
Proof.
  intros s c d. induction d as [|[k v] d IH]; simpl.
  - right. split; [reflexivity | tauto].
  - destruct (Expr_eqb k s) eqn:E; simpl; [now left|].
    apply Expr_eqb_neq in E.
    destruct IH as [IH|[IH Hn]]; rewrite IH; [now left|].
    right. split; [reflexivity|]. simpl. tauto.
Qed.

Lemma terms_add_NoDup : forall s c d,
  NoDup (map fst d) -> NoDup (map fst (terms_add s c d)).
Proof.
  intros s c d H. destruct (terms_add_keys s c d) as [E|[E Hn]]; rewrite E.
  - exact H.
  - apply NoDup_app; [exact H | repeat constructor; simpl; tauto |].
    intros x Hx [Hs|[]]. subst x. contradiction.
Qed.

Lemma collect_keys_NoDup : forall fuel seq st,
  collect X fuel seq initial = Return (Some st) -> NoDup (map fst (terms st)).
Proof.
  intros fuel seq st H.
  apply (collect_invariant X (fun s => NoDup (map fst (terms s))))
    with (fuel := fuel) (seq := seq) (st := initial); [| constructor | exact H].
  intros s o s' ext HP E. rewrite (body_terms _ _ _ _ E). unfold add_term.
  destruct (term_of X o) as [[k c]|]; [now apply terms_add_NoDup | exact HP].
Qed.

End LikeTerms.

Lemma emitted_new_arg : forall X s c f,
  emitted X s c f <-> In f (new_arg X s c).
Proof.
  intros X s c f. unfold emitted, new_arg, Number_eqb.
  destruct (Number_eq_dec c Zero) as [Ez|Ez].
  - subst c. split; [|intros []].
    intros [[E _]|(H & _)]; [discriminate E | now elim H].
  - destruct (Number_eq_dec c One) as [Eo|Eo].
    + subst c. split.
      * intros [[_ ->]|(_ & H & _)]; [now left | now elim H].
      * intros [<-|[]]. now left.
    + split.
      * intros [[E _]|(_ & _ & [(l & -> & ->)|[Hm ->]])];
          [contradiction | now left |].
        destruct s; now left.
      * intros H. right. split; [exact Ez|]. split; [exact Eo|].
        destruct s; destruct H as [<-|[]];
          try (right; split; reflexivity).
        left. eexists. split; reflexivity.
Qed.

Lemma prune_In : forall X c f l,
  In f (prune X c l) <-> In f l /\ In f (prune X c [f]).
Proof.
  intros X c f l.
  assert (H : forall p : Expr -> bool,
            In f (filter p l) <-> In f l /\ In f (filter p [f])).
  { intros p. rewrite filter_In. cbn [filter].
    destruct (p f); cbn [In]; intuition congruence. }
  unfold prune. destruct c as [[| | |]| | | | | | |]; try apply H;
    cbn [In]; tauto.
Qed.

Lemma operands_finish_emit : forall X st f,
  In f (prune X (coeff st) (build_newseq X (terms st))) ->
  absorbed X (order_factors st) f = false ->
  In f (operands (finish X st)).
Proof.
  intros X st f Hin Habs. rewrite operands_finish. apply in_or_app. right.
  apply (Permutation_in _ (Permutation_sym (sort_by_perm _ _))).
  unfold process_order. destruct (order_factors st) as [|o os] eqn:Eo;
    cbn [snd]; [exact Hin|].
  apply in_or_app. left. apply filter_In. split; [exact Hin|].
  now rewrite Habs.
Qed.

Lemma build_newseq_length : forall X d,
  List.length (build_newseq X d)
  = List.length (filter (fun sc => negb (Number_eqb (snd sc) Zero)) d).
Proof.
  intros X d. unfold build_newseq.
  induction d as [|[s c] d IH]; [reflexivity|].
  cbn [flat_map filter snd fst]. rewrite length_app, IH. unfold new_arg.
  destruct (Number_eqb c Zero); [reflexivity|]. cbn [negb List.length].
  destruct (Number_eqb c One); [reflexivity|]. destruct s; reflexivity.
Qed.

(** C2.  On the term collection path the dictionary has one entry for each
    residual term, under structural equality, and its coefficient is the sum
    of the coefficients of all addends walked that have this residual.  Every
    operand returned is the scalar, an Order entry or the operand of a
    dictionary entry; conversely the operand of every dictionary entry is
    returned unless the infinity rules prune it or an Order entry absorbs it,
    and behind a finite scalar without Order entries there is exactly one
    operand for each entry whose coefficient is not zero.  The operand of an
    entry is the bare term for the coefficient one, the term with the
    coefficient in its leading slot when the term is a product, and the
    product of coefficient and term otherwise; the coefficient zero gives no
    operand.  [[2*t, 3*t, y]] gives [5*t] and [y] without a scalar in slot 0,
    and three different symbols give the three symbols. *)
Theorem C2_like_terms : forall X,
  (forall fuel seq st,
     collect X fuel seq initial = Return (Some st) ->
     NoDup (map fst (terms st))
     /\ (forall s, terms_get s (terms st) = coeff_sum X s (walk X fuel seq))
     /\ exists r,
          flatten_general X fuel seq = Return r
          /\ (forall f, In f (operands r) ->
                f = coeff st \/ In f (order_factors st)
                \/ exists s c, In (s, c) (terms st) /\ emitted X s c f)
          /\ (forall s c f,
                In (s, c) (terms st) -> emitted X s c f ->
                In f (prune X (coeff st) [f]) ->
                absorbed X (order_factors st) f = false ->
                In f (operands r))
          /\ (forall q,
                coeff st = Num (Rat q) -> order_factors st = [] ->
                List.length (operands r)
                = (List.length (scalar_slot (coeff st))
                   + List.length
                       (filter (fun sc => negb (Number_eqb (snd sc) Zero))
                          (terms st)))%nat))
  /\ (forall s f, ~ emitted X s Zero f)
  /\ (forall fuel t y,
        is_Add t = false -> is_Mul t = false -> t <> Symbol y ->
        exists r,
          flatten X (S (S (S fuel))) [Mul [int 2; t]; Mul [int 3; t]; Symbol y]
          = Return r
          /\ operands r = sort_by (hash X) [Mul2 X (int 5) t; Symbol y])
  /\ (forall fuel x y z,
        NoDup [x; y; z] ->
        exists r,
          flatten X (S (S (S fuel))) [Symbol x; Symbol y; Symbol z] = Return r
          /\ operands r = sort_by (hash X) [Symbol x; Symbol y; Symbol z]).
Proof.
  intros X.
  split; [intros fuel seq st H; split; [|split] | split; [|split]].
  - exact (collect_keys_NoDup X fuel seq st H).
  - intros s. rewrite (collect_terms X _ _ _ _ H). apply terms_get_fold.
  - exists (finish X st). split; [unfold flatten_general; now rewrite H|].
    split; [|split].
    + intros f Hf. apply operands_finish_In in Hf.
      destruct Hf as [Hf|[Hf|[Hf _]]]; [now left | now (right; left) |].
      right; right. apply prune_In in Hf. destruct Hf as [Hin _].
      unfold build_newseq in Hin. apply in_flat_map in Hin.
      destruct Hin as ([s c] & H1 & H2). exists s, c.
      split; [exact H1 | now apply emitted_new_arg].
    + intros s c f Hin He Hp Ha. apply operands_finish_emit; [|exact Ha].
      apply prune_In. split; [|exact Hp].
      unfold build_newseq. apply in_flat_map. exists (s, c).
      split; [exact Hin | now apply emitted_new_arg].
    + intros q Hq Ho. rewrite operands_finish, Ho, Hq.
      cbn [process_order fst snd prune].
      rewrite length_app, (Permutation_length (sort_by_perm _ _)).
      now rewrite build_newseq_length.
  - intros s f [[E _]|(H & _)]; [discriminate E | now elim H].
  - intros fuel t y Ha Hm Hty.
    exists (finish X (mkState (Num Zero) [(t, Rat 5); (Symbol y, One)] [])).
    split.
    + assert (Expr_eqb t (Symbol y) = false) as E by now apply Expr_eqb_neq.
      unfold flatten, flatten_general, int. cbn [shortcut collect].
      rewrite !body_scaled by exact Ha. unfold collect_term at 1. cbn [app].
      rewrite body_scaled by exact Ha. unfold collect_term at 1.
      cbn [app terms coeff order_factors initial terms_add].
      rewrite Expr_eqb_refl.
      cbn [body collect_term app terms coeff order_factors initial terms_add].
      rewrite E. destruct fuel; reflexivity.
    + rewrite operands_finish. cbn.
      destruct t; try discriminate; reflexivity.
  - intros fuel x y z Hnd.
    assert (Hd : x <> y /\ x <> z /\ y <> z).
    { repeat match goal with
             | H : NoDup (_ :: _) |- _ => inversion H; clear H; subst
             end.
      simpl in *. intuition congruence. }
    destruct Hd as (Hxy & Hxz & Hyz).
    exists (finish X (mkState (Num Zero)
                        [(Symbol x, One); (Symbol y, One); (Symbol z, One)] [])).
    split.
    + unfold flatten, flatten_general. cbn [shortcut collect].
      cbn [body collect_term app terms coeff order_factors initial terms_add].
      assert (E : forall a b, a <> b -> Expr_eqb (Symbol a) (Symbol b) = false)
        by (intros a b Hab; apply Expr_eqb_neq; congruence).
      rewrite !E by congruence. cbn [terms_add]. rewrite !E by congruence.
      destruct fuel; reflexivity.
    + rewrite operands_finish. reflexivity.
Qed.

Lemma C2_like_terms_witness :
  (exists r,
     flatten toy 3 [Mul [int 2; Pow (sym "x") (int 2)];
                    Mul [int 3; Pow (sym "x") (int 2)]; Symbol "y"]
     = Return r
     /\ operands r
        = sort_by (hash toy)
            [Mul2 toy (int 5) (Pow (sym "x") (int 2)); Symbol "y"])
  /\ exists r,
       flatten toy 3 [Symbol "x"; Symbol "y"; Symbol "z"] = Return r
       /\ operands r = sort_by (hash toy) [Symbol "x"; Symbol "y"; Symbol "z"].
Proof.
  destruct (C2_like_terms toy) as (_ & _ & H3 & H4). split.
  - apply (H3 0%nat (Pow (sym "x") (int 2)) "y"%string).
    + reflexivity.
    + reflexivity.
    + discriminate.
  - apply (H4 0%nat "x"%string "y"%string "z"%string).
    repeat constructor; simpl; intuition discriminate.
Defined.

(** ** Content of a sum *)

Section Content.

Lemma fold_gcd_divide : forall l a,
  0 <= fold_left Z.gcd l (Z.abs a)
  /\ (fold_left Z.gcd l (Z.abs a) | a)
  /\ (forall x, In x l -> (fold_left Z.gcd l (Z.abs a) | x))
  /\ (forall d, (d | a) -> (forall x, In x l -> (d | x)) ->
        (d | fold_left Z.gcd l (Z.abs a))).
Proof.
  induction l as [|y l IH]; intros a; simpl.
  - repeat split.
    + apply Z.abs_nonneg.
    + apply Z.divide_abs_l. apply Z.divide_refl.
    + tauto.
    + intros d Hd _. now apply Z.divide_abs_r.
  - assert (E : Z.gcd (Z.abs a) y = Z.abs (Z.gcd a y)).
    { rewrite Z.gcd_abs_l. symmetry. apply Z.abs_eq. apply Z.gcd_nonneg. }
    rewrite E. destruct (IH (Z.gcd a y)) as (H0 & H1 & H2 & H3).
    repeat split.
    + exact H0.
    + eapply Z.divide_trans; [exact H1 | apply Z.gcd_divide_l].
    + intros x [Hx|Hx]; [subst x|now apply H2].
      eapply Z.divide_trans; [exact H1 | apply Z.gcd_divide_r].
    + intros d Hd Hall. apply H3.
      * apply Z.gcd_greatest; [exact Hd | apply Hall; now left].
      * intros x Hx. apply Hall. now right.
Qed.

Lemma igcd_all_spec : forall l,
  0 <= igcd_all l
  /\ (forall x, In x l -> (igcd_all l | x))
  /\ (forall d, (forall x, In x l -> (d | x)) -> (d | igcd_all l)).
Proof.
  intros l. unfold igcd_all. destruct (fold_gcd_divide l 0) as (H0 & _ & H2 & H3).
  simpl in *. repeat split; auto.
  intros d Hd. apply H3; [apply Z.divide_0_r | exact Hd].
Qed.

Lemma fold_lcm_spec : forall l a,
  0 < a -> Forall (fun x => 0 < x) l ->
  0 < fold_left Z.lcm l a
  /\ (a | fold_left Z.lcm l a)
  /\ (forall x, In x l -> (x | fold_left Z.lcm l a))
  /\ (forall m, (a | m) -> (forall x, In x l -> (x | m)) ->
        (fold_left Z.lcm l a | m)).
Proof.
  induction l as [|y l IH]; intros a Ha Hl; simpl.
  - repeat split; auto using Z.divide_refl. tauto.
  - inversion Hl as [|? ? Hy Hl']; subst.
    assert (0 < Z.lcm a y) as Hpos.
    { pose proof (Z.lcm_nonneg a y).
      assert (Z.lcm a y <> 0) by (intros E; apply Z.lcm_eq_0 in E; lia). lia. }
    destruct (IH (Z.lcm a y) Hpos Hl') as (H0 & H1 & H2 & H3).
    repeat split.
    + exact H0.
    + eapply Z.divide_trans; [apply Z.divide_lcm_l | exact H1].
    + intros x [Hx|Hx]; [subst x | now apply H2].
      eapply Z.divide_trans; [apply Z.divide_lcm_r | exact H1].
    + intros m Hm Hall. apply H3.
      * apply Z.lcm_least; [exact Hm | apply Hall; now left].
      * intros x Hx. apply Hall. now right.
Qed.

Lemma ilcm_all_spec : forall l,
  Forall (fun x => 0 < x) l ->
  0 < ilcm_all l
  /\ (forall x, In x l -> (x | ilcm_all l))
  /\ (forall m, (forall x, In x l -> (x | m)) -> (ilcm_all l | m)).
Proof.
  intros l Hl. unfold ilcm_all.
  destruct (fold_lcm_spec l 1 ltac:(lia) Hl) as (H0 & _ & H2 & H3).
  repeat split; auto. intros m Hm. apply H3; [apply Z.divide_1_l | exact Hm].
Qed.

(** The number theory behind [primitive]: once every numerator is divided by
    the gcd [g] of the numerators and multiplied by the cofactor of its
    denominator in the lcm [L], no common divisor is left. *)
Lemma rescaled_coprime : forall (ts : list (Z * Z)) g L d,
  ts <> [] ->
  Forall (fun t => 0 < snd t /\ fst t <> 0 /\ Z.gcd (fst t) (snd t) = 1) ts ->
  g = igcd_all (map fst ts) -> L = ilcm_all (map snd ts) ->
  0 <= d ->
  (forall t, In t ts -> (d | (fst t / g) * (L / snd t))) ->
  d = 1.
Proof.
  intros ts g L d Hne Hts Hg HL Hd Hdiv.
  rewrite Forall_forall in Hts.
  destruct (igcd_all_spec (map fst ts)) as (Hg0 & Hg1 & Hg2). rewrite <- Hg in *.
  assert (Forall (fun x => 0 < x) (map snd ts)) as Hq.
  { rewrite Forall_forall. intros x Hx. apply in_map_iff in Hx.
    destruct Hx as (t & <- & Ht). now apply Hts. }
  destruct (ilcm_all_spec _ Hq) as (HL0 & HL1 & HL2). rewrite <- HL in *.
  assert (Hgpos : 0 < g).
  { destruct ts as [|t ts]; [congruence|].
    assert (g | fst t) as [k Hk] by (apply Hg1; now left).
    destruct (Hts t (or_introl eq_refl)) as (_ & Hp & _).
    destruct (Z.eq_dec g 0); [subst g; lia | lia]. }
  assert (Hp : forall t, In t ts -> fst t = g * (fst t / g)).
  { intros t Ht. destruct (Hg1 (fst t) (in_map fst _ _ Ht)) as [k Hk].
    rewrite Hk at 2. rewrite Z.div_mul by lia. lia. }
  assert (HLq : forall t, In t ts -> L = snd t * (L / snd t)).
  { intros t Ht. destruct (HL1 (snd t) (in_map snd _ _ Ht)) as [k Hk].
    destruct (Hts t Ht) as (Hq0 & _).
    rewrite Hk at 2. rewrite Z.div_mul by lia. lia. }
  assert (Hcop : forall t, In t ts -> Z.gcd (fst t / g) (snd t) = 1).
  { intros t Ht. destruct (Hts t Ht) as (_ & _ & Hc).
    apply Z.divide_1_r_nonneg; [apply Z.gcd_nonneg|]. rewrite <- Hc.
    apply Z.gcd_greatest; [|apply Z.gcd_divide_r].
    eapply Z.divide_trans; [apply Z.gcd_divide_l|].
    exists g. rewrite (Hp t Ht) at 1. lia. }
  set (e := Z.gcd d L).
  assert (He0 : 0 < e).
  { pose proof (Z.gcd_nonneg d L).
    assert (e <> 0) by (unfold e; intros E; apply Z.gcd_eq_0 in E; lia).
    unfold e in *. lia. }
  assert (Heb : forall t, In t ts -> (e | L / snd t)).
  { intros t Ht.
    assert (e | Z.gcd ((fst t / g) * (L / snd t)) (snd t * (L / snd t))) as H.
    { apply Z.gcd_greatest.
      - eapply Z.divide_trans; [apply Z.gcd_divide_l | now apply Hdiv].
      - rewrite <- (HLq t Ht). apply Z.gcd_divide_r. }
    rewrite Z.gcd_mul_mono_r, (Hcop t Ht), Z.mul_1_l in H.
    apply Z.divide_abs_r. exact H. }
  assert (He1 : e = 1).
  { assert (e | L) as [k Hk] by apply Z.gcd_divide_r.
    assert (L | k) as HLk.
    { apply HL2. intros x Hx. apply in_map_iff in Hx.
      destruct Hx as (t & <- & Ht).
      destruct (Heb t Ht) as [j Hj].
      exists j. apply Z.mul_cancel_r with (p := e); [lia|].
      rewrite <- Hk. rewrite (HLq t Ht) at 1. rewrite Hj. ring. }
    assert (0 < k) by nia.
    apply Z.divide_pos_le in HLk; [|assumption]. nia. }
  assert (Hda : forall t, In t ts -> (d | fst t / g)).
  { intros t Ht. apply Z.gauss with (m := L / snd t).
    - rewrite Z.mul_comm. now apply Hdiv.
    - apply Z.divide_1_r_nonneg; [apply Z.gcd_nonneg|].
      rewrite <- He1. unfold e. apply Z.gcd_greatest; [apply Z.gcd_divide_l|].
      eapply Z.divide_trans; [apply Z.gcd_divide_r|].
      exists (snd t). rewrite (HLq t Ht) at 1. ring. }
  assert (d * g | g) as Hdg.
  { apply Hg2. intros x Hx. apply in_map_iff in Hx.
    destruct Hx as (t & <- & Ht). destruct (Hda t Ht) as [j Hj].
    exists j. rewrite (Hp t Ht) at 1. rewrite Hj. ring. }
  apply Z.divide_1_r_nonneg; [exact Hd|].
  destruct Hdg as [j Hj]. exists j. nia.
Qed.

End Content.

Section PrimitiveFacts.

Variable X : Env.

Lemma Qred_reduced : forall q, Z.gcd (Qnum q) (Zpos (Qden q)) = 1 -> Qred q = q.
Proof.
  intros [a b] H. unfold Qred. simpl in H.
  pose proof (Z.ggcd_gcd a (Zpos b)) as Hg.
  pose proof (Z.ggcd_correct_divisors a (Zpos b)) as Hd.
  destruct (Z.ggcd a (Zpos b)) as [g [aa bb]]. simpl in *.
  rewrite H in Hg. subst g. destruct Hd as [Ha Hb].
  rewrite Z.mul_1_l in Ha, Hb. subst aa bb. reflexivity.
Qed.

Lemma Rational_int : forall c, Rational c 1 = Integer c.
Proof.
  intros c. unfold Rational, Integer. f_equal. apply Qred_reduced.
  simpl. apply Z.gcd_1_r.
Qed.

Lemma split_term_finite : forall a,
  finite_term (split_term a) = true ->
  exists r m,
    as_coeff_Mul a = (Rat r, m) /\ Qred r = r /\ Qnum r <> 0
    /\ is_zoo m = false
    /\ split_term a = (Qnum r, Zpos (Qden r), m).
Proof.
  intros a H. unfold split_term in *.
  destruct (as_coeff_Mul a) as [c m]. unfold finite_term in H.
  repeat (apply andb_true_iff in H; destruct H as [H ?]).
  destruct c as [r| | |]; simpl in H; try discriminate.
  exists r, m. simpl in *. repeat split.
  - apply Qred_reduced. now apply Z.eqb_eq.
  - intros E. rewrite E in *. discriminate.
  - now apply negb_true_iff.
Qed.

Lemma rational_coefficients_inv : forall self,
  rational_coefficients self = true ->
  exists args,
    self = Add args /\ args <> []
    /\ Forall (fun a => finite_term (split_term a) = true) args.
Proof.
  intros self H. unfold rational_coefficients in H.
  repeat (apply andb_true_iff in H; destruct H as [H ?]).
  destruct self; try discriminate. exists args. simpl in *.
  repeat split.
  - intros E. rewrite E in *. discriminate.
  - rewrite Forall_forall. intros a Ha.
    rewrite forallb_forall in H0. apply H0. now apply in_map.
Qed.

Lemma finite_no_inf : forall ts,
  Forall (fun t => finite_term t = true) ts -> existsb sets_inf ts = false.
Proof.
  intros ts H. induction H as [|[[p q] m] ts Ht _ IH]; [reflexivity|].
  simpl. rewrite IH. unfold finite_term in Ht.
  repeat (apply andb_true_iff in Ht; destruct Ht as [Ht ?]).
  apply Z.ltb_lt in Ht. apply negb_true_iff in H.
  rewrite H. destruct (q =? 0) eqn:E; [apply Z.eqb_eq in E; lia | reflexivity].
Qed.

Lemma finite_pairs : forall ts,
  Forall (fun t => finite_term t = true) ts ->
  Forall (fun t : Z * Z => 0 < snd t /\ fst t <> 0 /\ Z.gcd (fst t) (snd t) = 1)
    (map fst ts).
Proof.
  intros ts H. rewrite Forall_forall in *. intros t Ht.
  apply in_map_iff in Ht. destruct Ht as ([[p q] m] & <- & Hin).
  specialize (H _ Hin). unfold finite_term in H.
  repeat (apply andb_true_iff in H; destruct H as [H ?]).
  simpl. repeat split.
  - now apply Z.ltb_lt.
  - intros E. subst p. discriminate.
  - now apply Z.eqb_eq.
Qed.

Lemma content_positive : forall ts : list (Z * Z * Expr),
  ts <> [] -> Forall (fun t => finite_term t = true) ts ->
  0 < igcd_all (map (fun t => fst (fst t)) ts)
  /\ 0 < ilcm_all (map (fun t => snd (fst t)) ts).
Proof.
  intros ts Hne H. pose proof (finite_pairs ts H) as Hp.
  rewrite Forall_forall in Hp. split.
  - destruct (igcd_all_spec (map (fun t => fst (fst t)) ts)) as (H0 & H1 & _).
    destruct ts as [|t ts]; [congruence|].
    assert (igcd_all (map (fun t => fst (fst t)) (t :: ts)) | fst (fst t)) as [k Hk]
      by (apply H1; now left).
    destruct (Hp (fst t)) as (_ & Hnz & _); [now left|].
    destruct (Z.eq_dec (igcd_all (map (fun t => fst (fst t)) (t :: ts))) 0) as [E|E];
      [rewrite E in Hk; lia | lia].
  - apply ilcm_all_spec. rewrite Forall_forall. intros x Hx.
    apply in_map_iff in Hx. destruct Hx as (t & <- & Ht).
    apply (Hp (fst t)). now apply in_map.
Qed.

Lemma new_coeff_gcd : forall ts : list (Z * Z * Expr),
  ts <> [] -> Forall (fun t => finite_term t = true) ts ->
  forall d, 0 <= d ->
    (forall t, In t ts ->
       (d | new_coeff (igcd_all (map (fun t => fst (fst t)) ts))
              (ilcm_all (map (fun t => snd (fst t)) ts)) t)) ->
    d = 1.
Proof.
  intros ts Hne H d Hd Hdiv.
  apply (rescaled_coprime (map fst ts)
           (igcd_all (map (fun t => fst (fst t)) ts))
           (ilcm_all (map (fun t => snd (fst t)) ts)) d).
  - destruct ts; [congruence | discriminate].
  - now apply finite_pairs.
  - now rewrite map_map.
  - now rewrite map_map.
  - exact Hd.
  - intros t Ht. apply in_map_iff in Ht. destruct Ht as (t' & <- & Ht').
    apply (Hdiv t' Ht').
Qed.

Lemma new_coeff_exact : forall ts : list (Z * Z * Expr),
  Forall (fun t => finite_term t = true) ts ->
  forall t, In t ts ->
    let g := igcd_all (map (fun t => fst (fst t)) ts) in
    let L := ilcm_all (map (fun t => snd (fst t)) ts) in
    g * new_coeff g L t * snd (fst t) = fst (fst t) * L
    /\ (ts <> [] -> new_coeff g L t <> 0).
Proof.
  intros ts H t Ht g L.
  assert (Hne : ts <> []) by (intros E; subst ts; destruct Ht).
  destruct (content_positive ts Hne H) as [Hg HL]. fold g in Hg. fold L in HL.
  destruct (igcd_all_spec (map (fun t => fst (fst t)) ts)) as (_ & H1 & _).
  pose proof (finite_pairs ts H) as Hp. rewrite Forall_forall in Hp.
  destruct (Hp (fst t) (in_map fst _ _ Ht)) as (Hq & Hnz & _).
  assert (Forall (fun x => 0 < x) (map (fun t => snd (fst t)) ts)) as Hqs.
  { rewrite Forall_forall. intros x Hx. apply in_map_iff in Hx.
    destruct Hx as (t' & <- & Ht'). apply (Hp (fst t')). now apply in_map. }
  destruct (ilcm_all_spec _ Hqs) as (_ & H2 & _).
  destruct (H1 (fst (fst t))) as [k Hk].
  { apply in_map_iff. exists t. now split. }
  destruct (H2 (snd (fst t))) as [j Hj].
  { apply in_map_iff. exists t. now split. }
  fold g in Hk. fold L in Hj. unfold new_coeff.
  rewrite Hk, Hj, !Z.div_mul by lia. split; [ring|].
  intros _. nia.
Qed.

End PrimitiveFacts.

Section ContentTheorem.

Variable X : Env.

Lemma primitive_unfold : forall args,
  args <> [] ->
  Forall (fun t => finite_term t = true) (map split_term args) ->
  primitive X (Add args)
  = if (content_p (Add args) =? 1) && (content_q (Add args) =? 1)
    then Return (One, Add args)
    else
      match resort X (map (fun t => keep_coeff X
                                      (Integer (new_coeff (content_p (Add args))
                                                  (content_q (Add args)) t))
                                      (snd t))
                        (map split_term args)) with
      | Return ts' =>
          Return (Rational (content_p (Add args)) (content_q (Add args)), Add ts')
      | Raise e => Raise e
      | OutOfFuel => OutOfFuel
      end.
Proof.
  intros args Hne Hfin. unfold primitive, content_p, content_q. cbn [args_of].
  rewrite (finite_no_inf _ Hfin). unfold numerators, denominators.
  destruct (_ && _); [reflexivity|].
  assert (map split_term args <> []) as Hne'
    by (destruct args; [congruence | discriminate]).
  destruct (content_positive _ Hne' Hfin) as [Hg _].
  destruct (igcd_all _ =? 0) eqn:E; [apply Z.eqb_eq in E; lia|]. cbn [andb].
  match goal with
  | |- context [map (rescale X false ?g ?L) ?l] =>
      assert (map (rescale X false g L) l
              = map (fun t => keep_coeff X (Integer (new_coeff g L t)) (snd t)) l)
        as ->
  end.
  { apply map_ext. intros [[p q] m]. unfold rescale, new_coeff.
    cbn [andb fst snd]. now rewrite Rational_int. }
  reflexivity.
Qed.

Lemma Rational_positive : forall p q,
  0 < p -> 0 < q ->
  0 < number_p (Rational p q) /\ 0 < number_q (Rational p q).
Proof.
  intros p q Hp Hq. destruct q as [|d|d]; try lia. simpl.
  split; [|reflexivity].
  pose proof (Qred_correct (p # d)) as H. unfold Qeq in H. simpl in H.
  destruct (Qred (p # d)) as [a b]. simpl in *. nia.
Qed.

(** A rescaled operand that splits again is neither zero nor [zoo]. *)
Lemma resplit_shape : forall x c m,
  as_coeff_Mul x = (Integer c, m) -> c <> 0 -> is_zoo m = false ->
  is_zoo x = false /\ truthy x = true
  /\ finite_term (split_term x) = true
  /\ split_term x = (c, 1, m).
Proof.
  intros x c m H Hc Hm. unfold split_term. rewrite H. cbn.
  repeat split.
  - destruct x; try reflexivity. simpl in H. inversion H; subst. discriminate.
  - destruct x; try reflexivity. simpl in H. inversion H; subst.
    unfold truthy, is_Zero, Number_eqb, Integer, Zero.
    destruct (Number_eq_dec _ _) as [E|E]; [|reflexivity].
    inversion E. congruence.
  - rewrite Hm. rewrite Z.gcd_1_r.
    destruct (c =? 0) eqn:E; [apply Z.eqb_eq in E; congruence | reflexivity].
Qed.

End ContentTheorem.

(** C8.  For a sum [S] whose operands have nonzero rational coefficients in
    lowest terms, [primitive] returns a pair [(R, P)] where [R] is the
    positive rational gcd(numerators)/lcm(denominators); [R] times the new
    integer coefficient of an operand is the old coefficient of that operand;
    the new coefficients have gcd 1; when gcd and lcm are both 1 the pair is
    [(1, S)] with [S] itself.  When [_keep_coeff] builds operands that split
    into their coefficient and residual again, the operands of [P] are the
    rescaled operands of [S], sorted again by key with a leading numeral kept
    in slot 0, and [primitive(P)] is [(1, P)]. *)
Theorem C8_primitive : forall X self,
  rational_coefficients self = true ->
  exists R P,
    primitive X self = Return (R, P)
    /\ R = Rational (content_p self) (content_q self)
    /\ 0 < number_p R /\ 0 < number_q R
    /\ (content_p self = 1 -> content_q self = 1 -> P = self)
    /\ Forall (fun a =>
                 number_mul R
                   (Integer (new_coeff (content_p self) (content_q self)
                               (split_term a)))
                 = fst (as_coeff_Mul a))
         (args_of self)
    /\ igcd_all (map (new_coeff (content_p self) (content_q self))
                   (map split_term (args_of self))) = 1
    /\ (keeps_split X self ->
        primitive X P = Return (One, P)
        /\ (content_p self <> 1 \/ content_q self <> 1 ->
            forall t0 rest,
              map (fun t => keep_coeff X
                              (Integer (new_coeff (content_p self)
                                          (content_q self) t)) (snd t))
                (map split_term (args_of self)) = t0 :: rest ->
              Permutation (args_of P) (t0 :: rest)
              /\ (is_Number t0 = true ->
                  args_of P = t0 :: sort_by (hash X) rest)
              /\ (is_Number t0 = false ->
                  args_of P = sort_by (hash X) (t0 :: rest)))).
Proof.
  intros X self Hrc.
  destruct (rational_coefficients_inv self Hrc) as (args & -> & Hne & Hfin0).
  assert (Hfin : Forall (fun t => finite_term t = true) (map split_term args))
    by now apply Forall_map.
  assert (Hne' : map split_term args <> [])
    by (destruct args; [congruence | discriminate]).
  cbn [args_of].
  set (cp := content_p (Add args)). set (cq := content_q (Add args)).
  destruct (content_positive _ Hne' Hfin) as [Hcp Hcq].
  change (0 < cp) in Hcp. change (0 < cq) in Hcq.
  destruct (Rational_positive cp cq Hcp Hcq) as [HRp HRq].
  assert (HF2 : Forall (fun a =>
                 number_mul (Rational cp cq)
                   (Integer (new_coeff cp cq (split_term a)))
                 = fst (as_coeff_Mul a)) args).
  { rewrite Forall_forall. intros a Ha.
    rewrite Forall_forall in Hfin0.
    destruct (split_term_finite a (Hfin0 a Ha)) as (r & m & E1 & E2 & _ & _ & E3).
    rewrite E1. cbn [fst].
    destruct (new_coeff_exact (map split_term args) Hfin (split_term a)
                (in_map _ _ _ Ha)) as [Hex _].
    change (cp * new_coeff cp cq (split_term a) * snd (fst (split_term a))
            = fst (fst (split_term a)) * cq) in Hex.
    rewrite E3 in Hex. cbn [fst snd] in Hex.
    destruct cq as [|d|d] eqn:Ecq; try lia.
    unfold Rational, Integer, number_mul. f_equal.
    transitivity (Qred r); [|exact E2]. apply Qred_complete. rewrite Qred_correct.
    unfold Qeq. simpl. rewrite Pos.mul_1_r.
    rewrite E3. lia. }
  assert (HF3 : igcd_all (map (new_coeff cp cq) (map split_term args)) = 1).
  { destruct (igcd_all_spec (map (new_coeff cp cq) (map split_term args)))
      as (H0 & H1 & _).
    apply (new_coeff_gcd (map split_term args) Hne' Hfin _ H0).
    intros t Ht. apply H1. now apply in_map. }
  rewrite primitive_unfold by assumption. fold cp cq.
  destruct ((cp =? 1) && (cq =? 1)) eqn:Eb.
  - apply andb_true_iff in Eb. destruct Eb as [E1 E2].
    apply Z.eqb_eq in E1, E2.
    assert (ER : Rational cp cq = One) by (rewrite E1, E2; reflexivity).
    exists One, (Add args).
    split; [reflexivity|]. split; [now symmetry|].
    split; [reflexivity|]. split; [reflexivity|].
    split; [reflexivity|].
    split; [rewrite <- ER; exact HF2|]. split; [exact HF3|].
    intros _. split.
    + rewrite primitive_unfold by assumption. fold cp cq.
      rewrite E1, E2. reflexivity.
    + intros [H|H]; congruence.
  - destruct (map (fun t => keep_coeff X (Integer (new_coeff cp cq t)) (snd t))
                (map split_term args)) as [|t0 rest] eqn:El.
    { destruct args; [congruence | discriminate]. }
    cbn [resort].
    set (ts' := if is_Number t0 || is_zoo t0
                then (if truthy t0 then t0 :: sort_by (hash X) rest
                      else sort_by (hash X) rest)
                else sort_by (hash X) (t0 :: rest)).
    assert (Ers : (if is_Number t0 || is_zoo t0
                   then Return (if truthy t0 then t0 :: sort_by (hash X) rest
                                else sort_by (hash X) rest)
                   else Return (sort_by (hash X) (t0 :: rest)))
                  = @Return (list Expr) ts')
      by (unfold ts'; destruct (is_Number t0 || is_zoo t0); reflexivity).
    rewrite Ers.
    exists (Rational cp cq), (Add ts').
    split; [reflexivity|]. split; [reflexivity|].
    split; [exact HRp|]. split; [exact HRq|].
    split.
    { intros E1 E2. rewrite E1, E2 in Eb. discriminate. }
    split; [exact HF2|]. split; [exact HF3|].
    intros Hks. unfold keeps_split in Hks. cbn [args_of] in Hks. fold cp cq in Hks.
    rewrite Forall_forall in Hks.
    (* every rescaled operand splits into (c', 1, m) *)
    assert (Hl : forall x, In x (t0 :: rest) ->
              exists t, In t (map split_term args)
                /\ is_zoo x = false /\ truthy x = true
                /\ finite_term (split_term x) = true
                /\ split_term x = (new_coeff cp cq t, 1, snd t)).
    { intros x Hx. rewrite <- El in Hx. apply in_map_iff in Hx.
      destruct Hx as (t & <- & Ht). exists t. split; [exact Ht|].
      destruct (new_coeff_exact _ Hfin t Ht) as [_ Hnz].
      rewrite Forall_forall in Hfin. specialize (Hfin t Ht).
      destruct t as [[p q] m]. unfold finite_term in Hfin.
      repeat (apply andb_true_iff in Hfin; destruct Hfin as [Hfin ?]).
      apply resplit_shape.
      - apply (Hks (p, q, m) Ht).
      - apply Hnz. exact Hne'.
      - now apply negb_true_iff. }
    destruct (Hl t0 (or_introl eq_refl)) as (_ & _ & Hz0 & Ht0 & _).
    assert (Hts' : ts' = if is_Number t0 then t0 :: sort_by (hash X) rest
                         else sort_by (hash X) (t0 :: rest)).
    { unfold ts'. rewrite Hz0, Ht0, orb_false_r. reflexivity. }
    assert (Hperm : Permutation ts' (t0 :: rest)).
    { rewrite Hts'. destruct (is_Number t0).
      - constructor. apply sort_by_perm.
      - apply sort_by_perm. }
    split.
    + assert (Hne2 : ts' <> []).
      { intros E. rewrite E in Hperm. apply Permutation_nil in Hperm. discriminate. }
      assert (Hfin2 : Forall (fun t => finite_term t = true) (map split_term ts')).
      { apply Forall_map. rewrite Forall_forall. intros x Hx.
        apply (Permutation_in _ Hperm) in Hx.
        destruct (Hl x Hx) as (_ & _ & _ & _ & H & _). exact H. }
      rewrite primitive_unfold by assumption.
      assert (content_p (Add ts') = 1) as ->.
      { unfold content_p. cbn [args_of].
        destruct (igcd_all_spec
                    (map (fun t => fst (fst t)) (map split_term ts')))
          as (H0 & H1 & _).
        apply (new_coeff_gcd (map split_term args) Hne' Hfin _ H0).
        intros t Ht. apply H1.
        assert (In (keep_coeff X (Integer (new_coeff cp cq t)) (snd t)) (t0 :: rest))
          as Hin
          by (rewrite <- El;
              exact (in_map (fun t => keep_coeff X (Integer (new_coeff cp cq t))
                                        (snd t)) _ _ Ht)).
        destruct (Hl _ Hin) as (t' & _ & _ & _ & _ & Hsp).
        apply in_map_iff.
        exists (split_term (keep_coeff X (Integer (new_coeff cp cq t)) (snd t))).
        split.
        - destruct (new_coeff_exact _ Hfin t Ht) as [_ Hnz].
          pose proof Hfin as Hfin'. rewrite Forall_forall in Hfin'.
          specialize (Hfin' t Ht). destruct t as [[p q] m].
          unfold finite_term in Hfin'.
          repeat (apply andb_true_iff in Hfin'; destruct Hfin' as [Hfin' ?]).
          assert (is_zoo m = false) as Hm by now apply negb_true_iff.
          destruct (resplit_shape _ _ _ (Hks (p, q, m) Ht) (Hnz Hne') Hm)
            as (_ & _ & _ & ->).
          reflexivity.
        - apply in_map. apply (Permutation_in _ (Permutation_sym Hperm)).
          exact Hin. }
      assert (content_q (Add ts') = 1) as ->.
      { unfold content_q. cbn [args_of].
        assert (Forall (fun x => x = 1)
                  (map (fun t => snd (fst t)) (map split_term ts'))) as Hones.
        { rewrite Forall_forall. intros x Hx. apply in_map_iff in Hx.
          destruct Hx as (t & <- & Ht). apply in_map_iff in Ht.
          destruct Ht as (y & <- & Hy). apply (Permutation_in _ Hperm) in Hy.
          destruct (Hl y Hy) as (t' & _ & _ & _ & _ & ->). reflexivity. }
        assert (Forall (fun x => 0 < x)
                  (map (fun t => snd (fst t)) (map split_term ts'))) as Hpos.
        { refine (Forall_impl _ _ Hones). intros a Ha. lia. }
        destruct (ilcm_all_spec _ Hpos) as (H0 & _ & H2).
        apply Z.divide_1_r_nonneg; [apply Z.lt_le_incl; exact H0|]. apply H2.
        rewrite Forall_forall in Hones. intros x Hx.
        rewrite (Hones x Hx). apply Z.divide_refl. }
      reflexivity.
    + intros _ t0' rest' E. inversion E; subst t0' rest'. cbn [args_of].
      split; [exact Hperm|]. rewrite Hts'.
      split; intros Hn; rewrite Hn; reflexivity.
Qed.

Lemma C8_primitive_witness :
  exists R P,
    primitive toy (Add [Mul [Num (Rat (2 # 3)); sym "x"];
                        Mul [Num (Rat (4 # 9)); sym "y"]]) = Return (R, P)
    /\ R = Rat (2 # 9)
    /\ primitive toy P = Return (One, P).
Proof.
  destruct (C8_primitive toy
              (Add [Mul [Num (Rat (2 # 3)); sym "x"];
                    Mul [Num (Rat (4 # 9)); sym "y"]]) eq_refl)
    as (R & P & H1 & H2 & _ & _ & _ & _ & _ & H8).
  exists R, P. split; [exact H1|]. split; [exact H2|].
  apply H8. repeat constructor.
Defined.

(** ** Substitution in a sum *)

Section SubsFacts.

Variable X : Env.

Lemma Symbol_eqb_false : forall a b, a <> b -> Expr_eqb (Symbol a) (Symbol b) = false.
Proof.
  intros a b H. apply Expr_eqb_neq. congruence.
Qed.

Lemma mem_In : forall x l, mem x l = true <-> In x l.
Proof.
  intros x l. unfold mem. rewrite existsb_exists. split.
  - intros (y & Hy & E). apply Expr_eqb_eq in E. now subst.
  - intros H. exists x. split; [exact H | apply Expr_eqb_refl].
Qed.

Lemma In_to_set : forall x l, In x (to_set l) <-> In x l.
Proof.
  intros x l. unfold to_set. apply nodup_In.
Qed.

Lemma set_minus_spec : forall ts to,
  NoDup (set_minus (to_set ts) (to_set to))
  /\ forall t, In t (set_minus (to_set ts) (to_set to)) <-> In t ts /\ ~ In t to.
Proof.
  intros ts to. unfold set_minus. split.
  - apply NoDup_filter. apply NoDup_nodup.
  - intros t. rewrite filter_In, In_to_set, negb_true_iff.
    split; intros [H1 H2]; (split; [exact H1|]).
    + intros Hin. apply (proj2 (In_to_set t to)) in Hin.
      apply (proj2 (mem_In _ _)) in Hin. congruence.
    + destruct (mem t (to_set to)) eqn:E; [|reflexivity].
      apply (proj1 (mem_In _ _)) in E. apply (proj1 (In_to_set t to)) in E.
      contradiction.
Qed.

Lemma proper_subset_spec : forall to ts,
  (forall t, In t to -> In t ts) ->
  (exists t, In t ts /\ ~ In t to) ->
  proper_subset (to_set to) (to_set ts) = true.
Proof.
  intros to ts Hsub (t & Ht & Hnt). unfold proper_subset.
  apply andb_true_iff. split.
  - apply forallb_forall. intros x Hx. apply (proj2 (mem_In _ _)).
    apply (proj2 (In_to_set _ _)). apply Hsub.
    now apply (proj1 (In_to_set _ _)).
  - apply negb_true_iff.
    destruct (forallb (fun x => mem x (to_set to)) (to_set ts)) eqn:E;
      [|reflexivity].
    rewrite forallb_forall in E. exfalso. apply Hnt.
    apply (proj1 (In_to_set _ _)). apply (proj1 (mem_In _ _)). apply E.
    now apply (proj2 (In_to_set _ _)).
Qed.

(** Operands behind the numeral of a sum in canonical form: no numeral and
    no sum among them. *)
Lemma is_Zero_Num : forall c, is_Zero (Num c) = true <-> c = Zero.
Proof.
  intros c. cbn [is_Zero]. unfold Number_eqb.
  destruct (Number_eq_dec c Zero); split; congruence.
Qed.

Lemma as_coeff_add_sum : forall c ts,
  ts <> [] -> Forall plain_operand ts ->
  as_coeff_add (Add (scalar_slot (Num c) ++ ts)) = Return (Num c, ts).
Proof.
  intros c ts Hne Hts. unfold scalar_slot.
  destruct (is_Zero (Num c)) eqn:Ez.
  - apply is_Zero_Num in Ez. subst c. cbn [app].
    destruct ts as [|h tl]; [congruence|].
    inversion Hts as [|? ? [Hn Ha] _]; subst.
    destruct h; try discriminate; reflexivity.
  - cbn [app as_coeff_add]. rewrite Ez. reflexivity.
Qed.

Lemma as_coeff_Add_sum : forall c ts,
  (2 <= List.length ts)%nat -> Forall plain_operand ts ->
  as_coeff_Add (Add (scalar_slot (Num c) ++ ts)) = Return (Num c, Add ts).
Proof.
  intros c ts Hlen Hts. unfold scalar_slot.
  destruct ts as [|h [|h' tl]]; cbn [List.length] in Hlen; try lia.
  destruct (is_Zero (Num c)) eqn:Ez.
  - apply is_Zero_Num in Ez. subst c. cbn [app as_coeff_Add].
    inversion Hts as [|? ? [Hn Ha] _]; subst. now rewrite Hn.
  - reflexivity.
Qed.

Lemma as_coeff_Add_pattern : forall c to,
  to <> [] -> Forall plain_operand to ->
  exists r,
    as_coeff_Add (Add (scalar_slot (Num c) ++ to)) = Return (Num c, r)
    /\ (r = Add to \/ (to = [r] /\ is_Add r = false)).
Proof.
  intros c to Hne Hto.
  destruct to as [|h [|h' tl]]; [congruence| |].
  - inversion Hto as [|? ? [Hn Ha] _]; subst. unfold scalar_slot.
    destruct (is_Zero (Num c)) eqn:Ez.
    + apply is_Zero_Num in Ez. subst c. cbn [app as_coeff_Add]. rewrite Hn.
      exists (Add [h]). now split; [|left].
    + exists h. split; [reflexivity|]. now right.
  - exists (Add (h :: h' :: tl)). split; [|now left].
    apply as_coeff_Add_sum; [cbn; lia | exact Hto].
Qed.

Lemma sums_differ : forall cs co ts to,
  Forall plain_operand ts -> Forall plain_operand to ->
  List.length to <> List.length ts ->
  Add (scalar_slot (Num cs) ++ ts) <> Add (scalar_slot (Num co) ++ to).
Proof.
  intros cs co ts to Hts Hto Hlen E. injection E as E. unfold scalar_slot in E.
  destruct (is_Zero (Num cs)), (is_Zero (Num co)); cbn [app] in E.
  - subst. congruence.
  - subst ts. inversion Hts as [|? ? [Hn _] _]. discriminate.
  - subst to. inversion Hto as [|? ? [Hn _] _]. discriminate.
  - injection E as _ E. subst. congruence.
Qed.

Lemma and_then_found : forall (m : Outcome Expr) (k : Outcome Expr),
  and_then (and_then m (fun r => Return (Some r)))
    (fun found => match found with Some r => Return r | None => k end)
  = m.
Proof.
  intros [|e|r] k; reflexivity.
Qed.

(** The branch for a pattern whose operands are among those of the sum. *)
Lemma eval_subs_subset : forall fuel cs co ts to new,
  Forall plain_operand ts ->
  Forall plain_operand to ->
  to <> [] ->
  (List.length to < List.length ts)%nat ->
  (forall t, In t to -> In t ts) ->
  (exists t, In t ts /\ ~ In t to) ->
  is_FunctionClass X (Add (scalar_slot (Num co) ++ to)) = false ->
  (forall r, as_coeff_Add (Add (scalar_slot (Num co) ++ to)) = Return (Num co, r) ->
     exists n, negate X fuel r = Return n /\ n <> Add ts) ->
  exists rest,
    NoDup rest
    /\ (forall t, In t rest <-> In t ts /\ ~ In t to)
    /\ eval_subs X fuel (Add (scalar_slot (Num cs) ++ ts))
         (Add (scalar_slot (Num co) ++ to)) new
       = Add_new X fuel
           (new :: Num cs :: Num (number_neg co)
            :: map (fun s => subs_operand X s (Add (scalar_slot (Num co) ++ to)) new)
                 rest).
Proof.
  intros fuel cs co ts to new Hts Hto Hne Hlen Hsub Hprop Hfc Hneg.
  exists (set_minus (to_set ts) (to_set to)).
  destruct (set_minus_spec ts to) as [Hnd Hin].
  split; [exact Hnd|]. split; [exact Hin|].
  assert (Hlen2 : (2 <= List.length ts)%nat).
  { destruct to; [congruence|]. cbn [List.length] in Hlen. lia. }
  assert (Hts_ne : ts <> []) by (destruct ts; [cbn in Hlen2; lia | discriminate]).
  unfold eval_subs.
  assert (Expr_eqb (Add (scalar_slot (Num cs) ++ ts))
            (Add (scalar_slot (Num co) ++ to)) = false) as ->.
  { apply Expr_eqb_neq. apply sums_differ; auto. lia. }
  rewrite Hfc, (as_coeff_Add_sum cs ts Hlen2 Hts).
  destruct (as_coeff_Add_pattern co to Hne Hto) as (r & Er & Hr).
  rewrite Er. cbn [is_Rational andb].
  assert (Expr_eqb (Add ts) r = false) as ->.
  { apply Expr_eqb_neq. destruct Hr as [->|[_ Hr]].
    - intros E. injection E as E. subst. lia.
    - intros E. subst r. discriminate. }
  destruct (Hneg r Er) as (n & En & Hn). rewrite En. cbn [and_then].
  assert (Expr_eqb (Add ts) n = false) as ->
    by (apply Expr_eqb_neq; congruence).
  unfold subs_rest. cbn [is_Add]. unfold subs_subset.
  rewrite (as_coeff_add_sum cs ts Hts_ne Hts), (as_coeff_add_sum co to Hne Hto).
  apply Nat.ltb_lt in Hlen. rewrite Hlen.
  rewrite (proper_subset_spec to ts Hsub Hprop).
  cbn [negate and_then]. apply and_then_found.
Qed.

Lemma eval_subs_equal : forall fuel cs co ts new,
  cs <> co ->
  is_FunctionClass X (Add (Num co :: ts)) = false ->
  eval_subs X fuel (Add (Num cs :: ts)) (Add (Num co :: ts)) new
  = Add_new X fuel [new; Num cs; Num (number_neg co)].
Proof.
  intros fuel cs co ts new Hc Hfc. unfold eval_subs.
  assert (Expr_eqb (Add (Num cs :: ts)) (Add (Num co :: ts)) = false) as ->
    by (apply Expr_eqb_neq; congruence).
  rewrite Hfc. cbn [as_coeff_Add is_Number].
  destruct ts as [|t [|t' tl]]; cbn [is_Rational andb];
    rewrite Expr_eqb_refl; reflexivity.
Qed.

Lemma eval_subs_negated : forall fuel cs co ts to rs ro new,
  as_coeff_Add (Add (Num cs :: ts)) = Return (Num cs, rs) ->
  as_coeff_Add (Add (Num co :: to)) = Return (Num co, ro) ->
  rs <> ro ->
  negate X fuel ro = Return rs ->
  is_FunctionClass X (Add (Num co :: to)) = false ->
  eval_subs X fuel (Add (Num cs :: ts)) (Add (Num co :: to)) new
  = and_then (negate X fuel new)
      (fun minus_new => Add_new X fuel [minus_new; Num cs; Num co]).
Proof.
  intros fuel cs co ts to rs ro new Es Eo Hd Hn Hfc. unfold eval_subs.
  assert (Expr_eqb (Add (Num cs :: ts)) (Add (Num co :: to)) = false) as ->.
  { apply Expr_eqb_neq. intros E. injection E as -> ->.
    rewrite Es in Eo. injection Eo as E. contradiction. }
  rewrite Hfc, Es, Eo. cbn [is_Rational andb].
  apply Expr_eqb_neq in Hd. rewrite Hd, Hn. cbn [and_then].
  rewrite Expr_eqb_refl. reflexivity.
Qed.

End SubsFacts.

Section SubsExamples.

Variable X : Env.

Lemma collect_done : forall fuel st,
  collect X fuel [] st = Return (Some st).
Proof.
  intros fuel st. destruct fuel; reflexivity.
Qed.

Lemma collect_cons : forall fuel o rest st st' ext,
  body X st o = Continue st' ext ->
  collect X (S fuel) (o :: rest) st = collect X fuel (rest ++ ext) st'.
Proof.
  intros fuel o rest st st' ext H. cbn [collect]. now rewrite H.
Qed.

(** The constructor on operands that the loop collects without an early
    return, when at least two operands come out. *)
Lemma Add_new_general : forall fuel args st e1 e2 l,
  filter (fun a => negb (is_Zero a)) args = args ->
  (3 <= List.length args)%nat ->
  collect X fuel args initial = Return (Some st) ->
  operands (finish X st) = e1 :: e2 :: l ->
  Add_new X fuel args = Return (Add (e1 :: e2 :: l)).
Proof.
  intros fuel args st e1 e2 l Hfil Hlen Hc Hops. unfold Add_new. rewrite Hfil.
  destruct args as [|a1 [|a2 [|a3 rest]]]; cbn [List.length] in Hlen; try lia.
  unfold flatten. cbn [shortcut]. unfold flatten_general. rewrite Hc.
  unfold operands in Hops. destruct (finish X st) as [[c_part nc_part] os].
  cbn [fst snd] in Hops. rewrite Hops. reflexivity.
Qed.

Lemma subs_subset_example : forall fuel a b c d x,
  NoDup [a; b; c; d; x] ->
  is_FunctionClass X (Add [Symbol b; Symbol c]) = false ->
  (exists n, negate X (S (S (S fuel))) (Add [Symbol b; Symbol c]) = Return n
             /\ n <> Add [Symbol a; Symbol b; Symbol c; Symbol d]) ->
  subs_operand X (Symbol a) (Add [Symbol b; Symbol c]) (Symbol x) = Symbol a ->
  subs_operand X (Symbol d) (Add [Symbol b; Symbol c]) (Symbol x) = Symbol d ->
  eval_subs X (S (S (S fuel)))
    (Add [Symbol a; Symbol b; Symbol c; Symbol d])
    (Add [Symbol b; Symbol c]) (Symbol x)
  = Return (Add (sort_by (hash X) [Symbol x; Symbol a; Symbol d])).
Proof.
  intros fuel a b c d x Hnd Hfc (n & Hneg & Hn) Ha Hd.
  assert (Hdist : a <> b /\ a <> c /\ a <> d /\ a <> x /\ b <> c /\ b <> d
                  /\ b <> x /\ c <> d /\ c <> x /\ d <> x).
  { repeat match goal with
           | H : NoDup (_ :: _) |- _ => inversion H; clear H; subst
           end.
    simpl in *. intuition congruence. }
  destruct Hdist as (Hab & Hac & Had & Hax & Hbc & Hbd & Hbx & Hcd & Hcx & Hdx).
  unfold eval_subs.
  assert (Expr_eqb (Add [Symbol a; Symbol b; Symbol c; Symbol d])
            (Add [Symbol b; Symbol c]) = false) as Hso
    by (apply Expr_eqb_neq; discriminate).
  rewrite Hso, Hfc. cbn [as_coeff_Add is_Number is_Rational andb].
  rewrite Hso, Hneg. cbn [and_then].
  assert (Expr_eqb (Add [Symbol a; Symbol b; Symbol c; Symbol d]) n = false) as ->
    by (apply Expr_eqb_neq; congruence).
  unfold subs_rest. cbn [is_Add]. unfold subs_subset.
  cbn [as_coeff_add is_Zero negb List.length Nat.ltb Nat.leb].
  assert (Number_eqb Zero Zero = true) as -> by reflexivity. cbn [negb].
  cbn [List.length Nat.ltb Nat.leb].
  assert (to_set [Symbol a; Symbol b; Symbol c; Symbol d]
          = [Symbol a; Symbol b; Symbol c; Symbol d]) as ->.
  { apply nodup_fixed_point. repeat constructor; simpl; intuition congruence. }
  assert (to_set [Symbol b; Symbol c] = [Symbol b; Symbol c]) as ->.
  { apply nodup_fixed_point. repeat constructor; simpl; intuition congruence. }
  unfold proper_subset, set_minus, mem.
  cbn [forallb existsb filter].
  rewrite !Expr_eqb_refl.
  rewrite !Symbol_eqb_false by congruence.
  cbn [orb andb negb map negate and_then]. rewrite Ha, Hd.
  rewrite and_then_found.
  unfold Add_new at 1. cbn [filter is_Zero].
  assert (Number_eqb (number_neg Zero) Zero = true) as -> by reflexivity.
  assert (Number_eqb Zero Zero = true) as -> by reflexivity.
  cbn [negb].
  assert (Hops : operands
            (finish X (mkState (Num Zero)
                         [(Symbol x, One); (Symbol a, One); (Symbol d, One)] []))
          = sort_by (hash X) [Symbol x; Symbol a; Symbol d])
    by (rewrite operands_finish; reflexivity).
  assert (Hlen : List.length (sort_by (hash X) [Symbol x; Symbol a; Symbol d]) = 3%nat)
    by (rewrite (Permutation_length (sort_by_perm _ _)); reflexivity).
  destruct (sort_by (hash X) [Symbol x; Symbol a; Symbol d])
    as [|e1 [|e2 l]] eqn:Es; try discriminate.
  apply (Add_new_general (S (S (S fuel))) [Symbol x; Symbol a; Symbol d]
           (mkState (Num Zero)
              [(Symbol x, One); (Symbol a, One); (Symbol d, One)] []));
    [reflexivity | cbn; lia | | exact Hops].
  unfold initial.
  cbn [collect body collect_term app terms coeff order_factors terms_add].
  rewrite !Symbol_eqb_false by congruence.
  cbn [terms_add]. rewrite !Symbol_eqb_false by congruence.
  apply collect_done.
Qed.

Lemma subs_numeral_example : forall fuel a b c x,
  NoDup [a; b; c; x] ->
  is_FunctionClass X (Add [int 3; Symbol b; Symbol c]) = false ->
  (exists n, negate X (S (S (S (S fuel)))) (Add [Symbol b; Symbol c]) = Return n
             /\ n <> Add [Symbol a; Symbol b; Symbol c]) ->
  subs_operand X (Symbol a) (Add [int 3; Symbol b; Symbol c]) (Symbol x)
  = Symbol a ->
  eval_subs X (S (S (S (S fuel))))
    (Add [int 2; Symbol a; Symbol b; Symbol c])
    (Add [int 3; Symbol b; Symbol c]) (Symbol x)
  = Return (Add (int (-1) :: sort_by (hash X) [Symbol x; Symbol a])).
Proof.
  intros fuel a b c x Hnd Hfc Hneg Ha.
  assert (Hdist : a <> b /\ a <> c /\ a <> x /\ b <> c /\ b <> x /\ c <> x).
  { repeat match goal with
           | H : NoDup (_ :: _) |- _ => inversion H; clear H; subst
           end.
    simpl in *. intuition congruence. }
  destruct Hdist as (Hab & Hac & Hax & Hbc & Hbx & Hcx).
  assert (Hplain : forall s, plain_operand (Symbol s)) by (intros s; now split).
  destruct (eval_subs_subset X (S (S (S (S fuel)))) (Integer 2) (Integer 3)
              [Symbol a; Symbol b; Symbol c] [Symbol b; Symbol c] (Symbol x))
    as (rest & Hnd' & Hin & E).
  - repeat constructor.
  - repeat constructor.
  - discriminate.
  - cbn. lia.
  - intros t [<-|[<-|[]]]; cbn; auto.
  - exists (Symbol a). split; [now left|].
    intros [E|[E|[]]]; injection E; congruence.
  - exact Hfc.
  - intros r Er. cbn in Er. injection Er as <-. exact Hneg.
  - change (Add (scalar_slot (Num (Integer 2)) ++ [Symbol a; Symbol b; Symbol c]))
      with (Add [int 2; Symbol a; Symbol b; Symbol c]) in E.
    change (Add (scalar_slot (Num (Integer 3)) ++ [Symbol b; Symbol c]))
      with (Add [int 3; Symbol b; Symbol c]) in E.
    rewrite E.
    assert (Hrest : rest = [Symbol a]).
    { destruct rest as [|r1 rest].
      - exfalso. apply (proj2 (Hin (Symbol a))).
        split; [now left|]. intros [E'|[E'|[]]]; injection E'; congruence.
      - assert (Hr1 : forall r, In r (r1 :: rest) -> r = Symbol a).
        { intros r Hr. apply Hin in Hr. destruct Hr as [[<-|[<-|[<-|[]]]] Hno];
            [reflexivity | |]; exfalso; apply Hno; cbn; auto. }
        rewrite (Hr1 r1) by now left. f_equal.
        destruct rest as [|r2 rest]; [reflexivity|]. exfalso.
        assert (r1 = r2) by (rewrite (Hr1 r1), (Hr1 r2); cbn; auto).
        subst r2. inversion Hnd' as [|? ? Hnot _]. apply Hnot. now left. }
    rewrite Hrest. cbn [map]. rewrite Ha.
    assert (Hops : operands
              (finish X (mkState (int (-1))
                           [(Symbol x, One); (Symbol a, One)] []))
            = int (-1) :: sort_by (hash X) [Symbol x; Symbol a])
      by (rewrite operands_finish; reflexivity).
    assert (Hlen : List.length (sort_by (hash X) [Symbol x; Symbol a]) = 2%nat)
      by (rewrite (Permutation_length (sort_by_perm _ _)); reflexivity).
    destruct (sort_by (hash X) [Symbol x; Symbol a]) as [|e1 l] eqn:Es;
      try discriminate.
    apply (Add_new_general (S (S (S (S fuel))))
             [Symbol x; Num (Integer 2); Num (number_neg (Integer 3)); Symbol a]
             (mkState (int (-1)) [(Symbol x, One); (Symbol a, One)] []));
      [reflexivity | cbn; lia | | exact Hops].
    unfold initial.
    do 4 (erewrite collect_cons by reflexivity; cbn [app]).
    rewrite collect_done. cbn [terms_add coeff terms order_factors initial].
    rewrite !Symbol_eqb_false by congruence. reflexivity.
Qed.

End SubsExamples.

(** C9.  Let [self] and [old] be sums in canonical form, each an optional
    nonzero numeral followed by operands that are neither numerals nor sums.
    When [old] has an operand, fewer operands than [self], every operand of
    [old] is an operand of [self] and [self] has one more, and [self] without
    its numeral is not the negation of [old] without its numeral, then
    [_eval_subs] answers the sum of [new], the numeral of [self], the negated
    numeral of [old] and the operands of [self] that are not operands of
    [old], each once and with the substitution applied.  When the two sums
    differ by their numerals only, it answers the sum of [new], the numeral of
    [self] and the negated numeral of [old]; when the remainder of [self] is
    the negated remainder of [old], the sum of [-new] and the two numerals.
    Replacing [b + c] by [x] in [a + b + c + d] gives the sum of [a], [x] and
    [d], and replacing [3 + b + c] by [x] in [2 + a + b + c] gives the sum of
    [-1], [a] and [x]. *)
Theorem C9_eval_subs : forall X fuel,
  (forall cs co ts to new,
     Forall plain_operand ts ->
     Forall plain_operand to ->
     to <> [] ->
     (List.length to < List.length ts)%nat ->
     (forall t, In t to -> In t ts) ->
     (exists t, In t ts /\ ~ In t to) ->
     is_FunctionClass X (Add (scalar_slot (Num co) ++ to)) = false ->
     (forall r,
        as_coeff_Add (Add (scalar_slot (Num co) ++ to)) = Return (Num co, r) ->
        exists n, negate X fuel r = Return n /\ n <> Add ts) ->
     exists rest,
       NoDup rest
       /\ (forall t, In t rest <-> In t ts /\ ~ In t to)
       /\ eval_subs X fuel (Add (scalar_slot (Num cs) ++ ts))
            (Add (scalar_slot (Num co) ++ to)) new
          = Add_new X fuel
              (new :: Num cs :: Num (number_neg co)
               :: map (fun s =>
                         subs_operand X s (Add (scalar_slot (Num co) ++ to)) new)
                    rest))
  /\ (forall cs co ts new,
        cs <> co ->
        is_FunctionClass X (Add (Num co :: ts)) = false ->
        eval_subs X fuel (Add (Num cs :: ts)) (Add (Num co :: ts)) new
        = Add_new X fuel [new; Num cs; Num (number_neg co)])
  /\ (forall cs co ts to rs ro new,
        as_coeff_Add (Add (Num cs :: ts)) = Return (Num cs, rs) ->
        as_coeff_Add (Add (Num co :: to)) = Return (Num co, ro) ->
        rs <> ro ->
        negate X fuel ro = Return rs ->
        is_FunctionClass X (Add (Num co :: to)) = false ->
        eval_subs X fuel (Add (Num cs :: ts)) (Add (Num co :: to)) new
        = and_then (negate X fuel new)
            (fun minus_new => Add_new X fuel [minus_new; Num cs; Num co]))
  /\ (forall a b c d x,
        NoDup [a; b; c; d; x] ->
        is_FunctionClass X (Add [Symbol b; Symbol c]) = false ->
        (exists n,
           negate X (S (S (S fuel))) (Add [Symbol b; Symbol c]) = Return n
           /\ n <> Add [Symbol a; Symbol b; Symbol c; Symbol d]) ->
        subs_operand X (Symbol a) (Add [Symbol b; Symbol c]) (Symbol x)
        = Symbol a ->
        subs_operand X (Symbol d) (Add [Symbol b; Symbol c]) (Symbol x)
        = Symbol d ->
        eval_subs X (S (S (S fuel)))
          (Add [Symbol a; Symbol b; Symbol c; Symbol d])
          (Add [Symbol b; Symbol c]) (Symbol x)
        = Return (Add (sort_by (hash X) [Symbol x; Symbol a; Symbol d])))
  /\ (forall a b c x,
        NoDup [a; b; c; x] ->
        is_FunctionClass X (Add [int 3; Symbol b; Symbol c]) = false ->
        (exists n,
           negate X (S (S (S (S fuel)))) (Add [Symbol b; Symbol c]) = Return n
           /\ n <> Add [Symbol a; Symbol b; Symbol c]) ->
        subs_operand X (Symbol a) (Add [int 3; Symbol b; Symbol c]) (Symbol x)
        = Symbol a ->
        eval_subs X (S (S (S (S fuel))))
          (Add [int 2; Symbol a; Symbol b; Symbol c])
          (Add [int 3; Symbol b; Symbol c]) (Symbol x)
        = Return (Add (int (-1) :: sort_by (hash X) [Symbol x; Symbol a]))).
Proof.
  intros X fuel.
  split; [apply eval_subs_subset|].
  split; [apply eval_subs_equal|].
  split; [apply eval_subs_negated|].
  split; [apply subs_subset_example | apply subs_numeral_example].
Qed.

Lemma C9_eval_subs_witness :
  eval_subs toy 5 (Add [sym "a"; sym "b"; sym "c"; sym "d"])
    (Add [sym "b"; sym "c"]) (sym "x")
  = Return (Add [sym "a"; sym "d"; sym "x"])
  /\ eval_subs toy 6 (Add [int 2; sym "a"; sym "b"; sym "c"])
       (Add [int 3; sym "b"; sym "c"]) (sym "x")
     = Return (Add [int (-1); sym "a"; sym "x"])
  /\ eval_subs toy 6 (Add [int 2; sym "a"]) (Add [int 3; sym "a"]) (sym "y")
     = Return (Add [int (-1); sym "y"])
  /\ eval_subs toy 6 (Add [int 2; sym "a"; sym "b"])
       (Add [int (-3); Mul [int (-1); sym "a"]; Mul [int (-1); sym "b"]])
       (sym "y")
     = Return (Add [int (-1); Mul [int (-1); sym "y"]]).
Proof.
  destruct (C9_eval_subs toy 2) as (_ & _ & _ & H4 & _).
  destruct (C9_eval_subs toy 2) as (_ & _ & _ & _ & H5).
  destruct (C9_eval_subs toy 6) as (_ & H2 & H3 & _).
  split; [|split; [|split]].
  - apply (H4 "a"%string "b"%string "c"%string "d"%string "x"%string).
    + repeat constructor; simpl; intuition discriminate.
    + reflexivity.
    + eexists. split; [reflexivity | discriminate].
    + reflexivity.
    + reflexivity.
  - apply (H5 "a"%string "b"%string "c"%string "x"%string).
    + repeat constructor; simpl; intuition discriminate.
    + reflexivity.
    + eexists. split; [reflexivity | discriminate].
    + reflexivity.
  - refine (eq_trans (H2 (Integer 2) (Integer 3) [sym "a"] (sym "y") _ _) _);
      [discriminate | reflexivity | reflexivity].
  - refine (eq_trans
              (H3 (Integer 2) (Integer (-3)) [sym "a"; sym "b"]
                 [Mul [int (-1); sym "a"]; Mul [int (-1); sym "b"]]
                 (Add [sym "a"; sym "b"])
                 (Add [Mul [int (-1); sym "a"]; Mul [int (-1); sym "b"]])
                 (sym "y") _ _ _ _ _) _);
      [reflexivity | reflexivity | discriminate | reflexivity | reflexivity
      | reflexivity].
Defined.

(** ** Independence of the order of the addends *)

Section Walk.

Variable X : Env.
Variable weight : Expr -> nat.
Hypothesis weight_splice : weight_ok X weight.

Lemma body_step : forall st o,
  body X st o
  = match step_state X st o with
    | None => ReturnNaN
    | Some st' => Continue st' (splice X o)
    end.
Proof.
  intros [c d os] o. unfold step_state, add_term.
  destruct o; cbn [body scalar_step term_of splice order_step coeff terms
                   order_factors collect_term].
  - destruct (is_NaN (Num n) || _); [reflexivity|].
    destruct c; try reflexivity.
    destruct (is_NaN _); reflexivity.
  - destruct (is_False _); reflexivity.
  - reflexivity.
  - reflexivity.
  - destruct (as_coeff_Mul (Mul args)) as [c0 s].
    destruct (is_Add s); reflexivity.
  - destruct (as_base_exp X (Pow o1 o2)) as [b e].
    destruct (is_Number b && _); reflexivity.
  - destruct (existsb _ _); reflexivity.
  - reflexivity.
Qed.

Lemma work_app : forall a b, work weight (a ++ b) = (work weight a + work weight b)%nat.
Proof.
  intros a b. unfold work. rewrite map_app, list_sum_app. reflexivity.
Qed.

Lemma work_perm : forall a b, Permutation a b -> work weight a = work weight b.
Proof.
  intros a b H. unfold work. induction H; simpl; lia.
Qed.

Lemma work_step : forall o rest n,
  (work weight (o :: rest) <= S n)%nat ->
  (work weight (rest ++ splice X o) <= n)%nat.
Proof.
  intros o rest n H. rewrite work_app. pose proof (weight_splice o).
  unfold work in *. simpl in *. lia.
Qed.

(** With enough fuel the loop ends, and its result is that of the three
    updates along the walk. *)
Lemma collect_run : forall fuel seq st,
  (work weight seq <= fuel)%nat ->
  collect X fuel seq st = Return (run X (walk X fuel seq) st).
Proof.
  induction fuel as [|n IH]; intros seq st H.
  - destruct seq; [reflexivity|]. unfold work in H. simpl in H. lia.
  - destruct seq as [|o rest]; [reflexivity|].
    cbn [collect walk run]. rewrite body_step.
    destruct (step_state X st o) as [st'|]; [|reflexivity].
    apply IH. now apply work_step.
Qed.

Lemma walk_fuel : forall n m seq,
  (work weight seq <= n)%nat -> (work weight seq <= m)%nat ->
  walk X n seq = walk X m seq.
Proof.
  induction n as [|n IH]; intros m seq Hn Hm.
  - destruct seq; [destruct m; reflexivity|]. unfold work in Hn. simpl in Hn. lia.
  - destruct seq as [|o rest]; [destruct m; reflexivity|].
    destruct m as [|m]; [unfold work in Hm; simpl in Hm; lia|].
    cbn [walk]. f_equal. apply IH; now apply work_step.
Qed.

Lemma walk_app : forall n a b,
  (work weight (a ++ b) <= n)%nat ->
  Permutation (walk X n (a ++ b)) (walk X n a ++ walk X n b).
Proof.
  induction n as [|n IH]; intros a b H.
  - destruct a, b; simpl; try constructor;
      unfold work in H; simpl in H; lia.
  - destruct a as [|o a]; [reflexivity|].
    assert (H' := work_step o (a ++ b) n H).
    rewrite work_app in H, H'. rewrite work_app in H'.
    assert (Hb : walk X (S n) b = walk X n b).
    { apply walk_fuel; lia. }
    rewrite Hb.
    change (walk X (S n) ((o :: a) ++ b))
      with (o :: walk X n ((a ++ b) ++ splice X o)).
    change (walk X (S n) (o :: a)) with (o :: walk X n (a ++ splice X o)).
    cbn [app]. constructor.
    rewrite <- app_assoc.
    assert (E : Permutation (a ++ b ++ splice X o) ((a ++ splice X o) ++ b)).
    { rewrite <- app_assoc. apply Permutation_app_head. apply Permutation_app_comm. }
    rewrite (IH a (b ++ splice X o)) by (rewrite !work_app; lia).
    rewrite (IH b (splice X o)) by (rewrite !work_app; lia).
    rewrite (IH a (splice X o)) by (rewrite !work_app; lia).
    rewrite <- !app_assoc. apply Permutation_app_head. apply Permutation_app_comm.
Qed.

Lemma walk_perm : forall a b,
  Permutation a b -> forall n, (work weight a <= n)%nat ->
  Permutation (walk X n a) (walk X n b).
Proof.
  intros a b H. induction H as [|x l l' H IH|x y l|l l' l'' H1 IH1 H2 IH2];
    intros n Hn.
  - reflexivity.
  - assert (Hn1 : (work weight ([x] ++ l) <= n)%nat) by exact Hn.
    assert (Hn2 : (work weight ([x] ++ l') <= n)%nat)
      by (rewrite work_app, <- (work_perm _ _ H), <- work_app; exact Hn).
    change (x :: l) with ([x] ++ l). change (x :: l') with ([x] ++ l').
    rewrite !walk_app by assumption.
    apply Permutation_app_head. apply IH. rewrite work_app in Hn1. lia.
  - assert (Hn1 : (work weight ([y; x] ++ l) <= n)%nat) by exact Hn.
    assert (Hn2 : (work weight ([x; y] ++ l) <= n)%nat)
      by (unfold work in *; simpl in *; lia).
    assert (Hn3 : (work weight ([y] ++ [x]) <= n)%nat)
      by (unfold work in *; simpl in *; lia).
    assert (Hn4 : (work weight ([x] ++ [y]) <= n)%nat)
      by (unfold work in *; simpl in *; lia).
    change (y :: x :: l) with ([y; x] ++ l). change (x :: y :: l) with ([x; y] ++ l).
    rewrite !walk_app by assumption. apply Permutation_app_tail.
    change [y; x] with ([y] ++ [x]). change [x; y] with ([x] ++ [y]).
    rewrite !walk_app by assumption.
    apply Permutation_app_comm.
  - rewrite (IH1 n Hn). apply IH2. now rewrite <- (work_perm _ _ H1).
Qed.

End Walk.

Section Regrouping.

Variable X : Env.
Variable weight : Expr -> nat.
Hypothesis weight_splice : weight_ok X weight.

Lemma filter_perm : forall (f : Expr -> bool) l l',
  Permutation l l' -> Permutation (filter f l) (filter f l').
Proof.
  intros f l l' H. induction H; simpl.
  - constructor.
  - destruct (f x); [now constructor | assumption].
  - destruct (f x), (f y); try reflexivity. apply perm_swap.
  - etransitivity; eassumption.
Qed.

Lemma in_work : forall x l, In x l -> (S (weight x) <= work weight l)%nat.
Proof.
  intros x l H. induction l as [|y l IH]; [destruct H|].
  unfold work in *. simpl. destruct H as [->|H]; [lia|].
  specialize (IH H). lia.
Qed.

(** Opening the nested sums beforehand changes the walk by the [Add] nodes
    only, which leave the state as it is. *)
Lemma walk_addends : forall k l n,
  (forall x, In x l -> (weight x < k)%nat) ->
  (work weight l <= n)%nat ->
  (work weight (flat_map addends l) <= work weight l)%nat
  /\ Permutation (filter not_Add (walk X n l))
       (filter not_Add (walk X n (flat_map addends l))).
Proof.
  induction k as [|k IHk]; intros l n Hk Hn.
  - destruct l as [|x l]; [split; reflexivity|].
    specialize (Hk x (or_introl eq_refl)). lia.
  - revert n Hn. induction l as [|x l IHl]; intros n Hn; [split; reflexivity|].
    assert (Hl : forall y, In y l -> (weight y < S k)%nat)
      by (intros y Hy; apply Hk; now right).
    assert (Hx : (weight x < S k)%nat) by (apply Hk; now left).
    assert (Hwl : (work weight l <= n)%nat)
      by (unfold work in *; simpl in *; lia).
    destruct (IHl Hl n Hwl) as [Hw1 Hp1].
    assert (Hone : (work weight (addends x) <= work weight [x])%nat
                   /\ Permutation (filter not_Add (walk X n [x]))
                        (filter not_Add (walk X n (addends x)))).
    { destruct x; try (split; reflexivity).
      cbn [addends].
      assert (Hsp : (work weight args <= weight (Add args))%nat)
        by exact (weight_splice (Add args)).
      destruct n as [|n]; [unfold work in Hn; simpl in Hn; lia|].
      assert (Hargs : forall y, In y args -> (weight y < k)%nat).
      { intros y Hy. pose proof (in_work y args Hy). lia. }
      assert (Hn' : (work weight args <= n)%nat)
        by (unfold work in *; simpl in *; lia).
      destruct (IHk args n Hargs Hn') as [Hw2 Hp2].
      split; [unfold work in *; simpl in *; lia|].
      change (walk X (S n) [Add args]) with (Add args :: walk X n ([] ++ args)).
      cbn [app filter not_Add is_Add negb].
      rewrite Hp2.
      rewrite (walk_fuel X weight weight_splice n (S n)); [reflexivity | lia | lia]. }
    destruct Hone as [Hw0 Hp0].
    cbn [flat_map]. split.
    + rewrite work_app. unfold work in *. simpl in *. lia.
    + apply Permutation_trans
        with (filter not_Add (walk X n [x] ++ walk X n l)).
      { apply filter_perm.
        exact (walk_app X weight weight_splice n [x] l Hn). }
      apply Permutation_trans
        with (filter not_Add (walk X n (addends x)
                              ++ walk X n (flat_map addends l))).
      { rewrite !filter_app. now apply Permutation_app. }
      apply Permutation_sym. apply filter_perm.
      apply (walk_app X weight weight_splice n).
      rewrite work_app. unfold work in *. simpl in *. lia.
Qed.

Lemma step_Add : forall st l, step_state X st (Add l) = Some st.
Proof.
  intros [c d os] l. reflexivity.
Qed.

Lemma run_not_Add : forall l st, run X l st = run X (filter not_Add l) st.
Proof.
  induction l as [|o l IH]; intros st; [reflexivity|].
  cbn [filter]. destruct o; cbn [not_Add is_Add negb run];
    try (destruct (step_state X st _); [apply IH | reflexivity]).
  rewrite step_Add. apply IH.
Qed.

End Regrouping.

Section Commutation.

Variable X : Env.

Lemma number_add_comm : forall a b, number_add a b = number_add b a.
Proof.
  intros [x| | |] [y| | |]; try reflexivity.
  cbn [number_add]. f_equal. apply Qred_complete. ring.
Qed.

Lemma number_add_swap : forall c a b,
  number_add (number_add c a) b = number_add (number_add c b) a.
Proof.
  intros [z| | |] [x| | |] [y| | |]; try reflexivity.
  cbn [number_add]. f_equal. apply Qred_complete. rewrite !Qred_correct. ring.
Qed.

Lemma scalar_step_sane : forall c o c',
  scalar_sane c -> scalar_step X c o = Some c' -> scalar_sane c'.
Proof.
  intros c o c' Hc H. destruct o; cbn [scalar_step] in H;
    try (inversion H; subst; exact Hc).
  - destruct (is_NaN (Num n) || _); [discriminate|].
    destruct c; try (inversion H; subst; exact Hc).
    destruct (is_NaN _) eqn:E; [discriminate|]. inversion H. left.
    eexists. split; [reflexivity|]. intros E'. rewrite E' in E. discriminate.
  - destruct (is_False _); [discriminate|]. inversion H. now right.
Qed.

Lemma scalar_step_swap : forall c a b,
  scalar_sane c ->
  bind_scalar X (scalar_step X c a) b = bind_scalar X (scalar_step X c b) a.
Proof.
  intros c a b Hc.
  assert (Hpass : forall o, is_Number o = false -> o <> ComplexInfinity ->
                            forall c0, scalar_step X c0 o = Some c0).
  { intros o H1 H2 c0. destruct o; try reflexivity; [discriminate | congruence]. }
  destruct (is_Number a) eqn:Ea; [|destruct (Expr_eq_dec a ComplexInfinity) as [Za|Za]].
  2: destruct (is_Number b) eqn:Eb; [|destruct (Expr_eq_dec b ComplexInfinity) as [Zb|Zb]].
  1: destruct (is_Number b) eqn:Eb; [|destruct (Expr_eq_dec b ComplexInfinity) as [Zb|Zb]].
  all: try (rewrite (Hpass a Ea Za); cbn [bind_scalar];
            destruct (scalar_step X c b); cbn [bind_scalar];
            [rewrite (Hpass a Ea Za) |]; reflexivity).
  all: try (rewrite (Hpass b Eb Zb); cbn [bind_scalar];
            destruct (scalar_step X c a); cbn [bind_scalar];
            [rewrite (Hpass b Eb Zb) |]; reflexivity).
  all: try subst a; try subst b.
  all: destruct Hc as [(c0 & -> & Hc)|Hc]; [|subst c].
  all: repeat match goal with
              | a : Expr |- _ => destruct a; try discriminate
              end.
  all: repeat match goal with
              | n : Number |- _ => destruct n
              end.
  all: try congruence.
  all: try reflexivity.
  all: cbn [bind_scalar scalar_step is_NaN is_zoo is_False is_bounded
            number_is_bounded number_add orb andb]; try reflexivity.
  all: f_equal; f_equal; f_equal; apply Qred_complete; rewrite !Qred_correct; ring.
Qed.

End Commutation.

Section TermsCommute.

Variable X : Env.

Lemma terms_add_swap : forall s1 c1 s2 c2 d,
  Permutation (terms_add s2 c2 (terms_add s1 c1 d))
              (terms_add s1 c1 (terms_add s2 c2 d)).
Proof.
  intros s1 c1 s2 c2 d. induction d as [|[k v] d IH].
  - simpl. destruct (Expr_eqb s1 s2) eqn:E12.
    + apply Expr_eqb_eq in E12. subst s2. rewrite Expr_eqb_refl.
      rewrite number_add_comm. reflexivity.
    + rewrite (Expr_eqb_sym_false _ _ E12). apply perm_swap.
  - cbn [terms_add].
    destruct (Expr_eqb k s1) eqn:E1, (Expr_eqb k s2) eqn:E2;
      cbn [terms_add]; rewrite ?E1, ?E2.
    + rewrite number_add_swap. reflexivity.
    + reflexivity.
    + reflexivity.
    + constructor. exact IH.
Qed.

Lemma add_term_swap : forall a b d,
  Permutation (add_term X (add_term X d a) b) (add_term X (add_term X d b) a).
Proof.
  intros a b d. unfold add_term.
  destruct (term_of X a) as [[s1 c1]|], (term_of X b) as [[s2 c2]|];
    try reflexivity.
  apply terms_add_swap.
Qed.

Lemma terms_add_perm : forall s c d d',
  Permutation d d' -> NoDup (map fst d) ->
  Permutation (terms_add s c d) (terms_add s c d').
Proof.
  intros s c d d' H. induction H as [|[k v] l l' H IH|[k1 v1] [k2 v2] l|l l' l'' H1 IH1 H2 IH2];
    intros Hnd.
  - reflexivity.
  - cbn [terms_add]. destruct (Expr_eqb k s); [now constructor|].
    constructor. apply IH. now inversion Hnd.
  - cbn [terms_add].
    assert (k1 <> k2) as Hk.
    { inversion Hnd as [|? ? Hin _]; subst. simpl in Hin. intros E. apply Hin.
      left. now symmetry. }
    destruct (Expr_eqb k2 s) eqn:E2, (Expr_eqb k1 s) eqn:E1; cbn [terms_add];
      rewrite ?E1, ?E2; try apply perm_swap.
    apply Expr_eqb_eq in E1, E2. congruence.
  - etransitivity; [apply IH1; exact Hnd|]. apply IH2.
    apply (Permutation_NoDup (Permutation_map fst H1) Hnd).
Qed.

Lemma add_term_perm : forall o d d',
  Permutation d d' -> NoDup (map fst d) ->
  Permutation (add_term X d o) (add_term X d' o).
Proof.
  intros o d d' H Hnd. unfold add_term.
  destruct (term_of X o) as [[s c]|]; [now apply terms_add_perm | exact H].
Qed.

Lemma add_term_NoDup : forall o d,
  NoDup (map fst d) -> NoDup (map fst (add_term X d o)).
Proof.
  intros o d H. unfold add_term.
  destruct (term_of X o) as [[s c]|]; [now apply terms_add_NoDup | exact H].
Qed.

(** Order entries. *)
Hypothesis contains_po : contains_order X.

Lemma existsb_perm : forall (f : Expr -> bool) l l',
  Permutation l l' -> existsb f l = existsb f l'.
Proof.
  intros f l l' H. induction H; simpl.
  - reflexivity.
  - now rewrite IHPermutation.
  - destruct (f x), (f y); reflexivity.
  - congruence.
Qed.

Lemma insert_order_perm : forall o os os',
  Permutation os os' -> Permutation (insert_order X os o) (insert_order X os' o).
Proof.
  intros o os os' H. unfold insert_order.
  rewrite (existsb_perm _ _ _ H).
  destruct (existsb _ os'); [exact H|]. constructor. now apply filter_perm.
Qed.

Lemma existsb_filter_false : forall (f g : Expr -> bool) l,
  existsb f l = false -> existsb f (filter g l) = false.
Proof.
  intros f g l H. induction l as [|x l IH]; [reflexivity|].
  simpl in *. apply orb_false_iff in H. destruct H as [H1 H2].
  destruct (g x); simpl; [rewrite H1|]; now apply IH.
Qed.

Lemma filter_filter_swap : forall (f g : Expr -> bool) l,
  filter f (filter g l) = filter g (filter f l).
Proof.
  intros f g l. induction l as [|x l IH]; [reflexivity|].
  simpl. destruct (g x) eqn:Eg, (f x) eqn:Ef; simpl; rewrite ?Eg, ?Ef, IH;
    reflexivity.
Qed.

Lemma filter_absorb : forall a b os,
  (forall x, contains X b x = true -> contains X a x = true) ->
  filter (fun o1 => negb (contains X a o1))
    (filter (fun o1 => negb (contains X b o1)) os)
  = filter (fun o1 => negb (contains X a o1)) os.
Proof.
  intros a b os H. induction os as [|x os IH]; [reflexivity|].
  simpl. destruct (contains X b x) eqn:Eb; simpl.
  - rewrite (H x Eb). simpl. exact IH.
  - destruct (contains X a x); simpl; now rewrite IH.
Qed.

(** [a] contains [b]: inserting [b] after [a] changes nothing, and [a]
    removes [b] when it comes second. *)
Lemma insert_order_above : forall a b os,
  contains X a b = true -> contains X b a = false ->
  insert_order X (insert_order X os a) b = insert_order X (insert_order X os b) a.
Proof.
  intros a b os Hab Hba. destruct contains_po as [Htr _].
  unfold insert_order at 2 4.
  destruct (existsb (fun o1 => contains X o1 a) os) eqn:Ea.
  - assert (existsb (fun o1 => contains X o1 b) os = true) as Eb.
    { apply existsb_exists in Ea. destruct Ea as (x & Hx & Hxa).
      apply existsb_exists. exists x. split; [exact Hx|]. now apply Htr with a. }
    rewrite Eb. unfold insert_order. now rewrite Ea, Eb.
  - assert (E1 : insert_order X (a :: filter (fun o1 => negb (contains X a o1)) os) b
                 = a :: filter (fun o1 => negb (contains X a o1)) os).
    { unfold insert_order. simpl. now rewrite Hab. }
    rewrite E1.
    destruct (existsb (fun o1 => contains X o1 b) os) eqn:Eb.
    + unfold insert_order. now rewrite Ea.
    + unfold insert_order. simpl. rewrite Hba, Hab. simpl.
      rewrite (existsb_filter_false _ _ _ Ea). f_equal.
      symmetry. apply filter_absorb. intros x Hx. now apply Htr with b.
Qed.

Lemma insert_order_apart : forall a b os,
  contains X a b = false -> contains X b a = false ->
  Permutation (insert_order X (insert_order X os a) b)
              (insert_order X (insert_order X os b) a).
Proof.
  intros a b os Hab Hba. destruct contains_po as [Htr _].
  assert (Hkeep : forall p q, contains X p q = false ->
            existsb (fun o1 => contains X o1 q) os = true ->
            existsb (fun o1 => contains X o1 q)
              (filter (fun o1 => negb (contains X p o1)) os) = true).
  { intros p q Hpq H. apply existsb_exists in H. destruct H as (x & Hx & Hxq).
    apply existsb_exists. exists x. split; [|exact Hxq].
    apply filter_In. split; [exact Hx|]. apply negb_true_iff.
    destruct (contains X p x) eqn:E; [|reflexivity].
    rewrite (Htr p x q E Hxq) in Hpq. discriminate. }
  unfold insert_order at 2 4.
  destruct (existsb (fun o1 => contains X o1 a) os) eqn:Ea,
           (existsb (fun o1 => contains X o1 b) os) eqn:Eb.
  - unfold insert_order. rewrite Ea, Eb. reflexivity.
  - unfold insert_order. rewrite Eb. simpl. rewrite Hba. simpl.
    rewrite (Hkeep b a Hba Ea). reflexivity.
  - unfold insert_order. rewrite Ea. simpl. rewrite Hab. simpl.
    rewrite (Hkeep a b Hab Eb). reflexivity.
  - unfold insert_order. simpl. rewrite Hab, Hba. simpl.
    rewrite (existsb_filter_false _ _ _ Ea), (existsb_filter_false _ _ _ Eb).
    rewrite filter_filter_swap. apply perm_swap.
Qed.

Lemma insert_order_swap : forall a b os,
  Permutation (insert_order X (insert_order X os a) b)
              (insert_order X (insert_order X os b) a).
Proof.
  intros a b os. destruct contains_po as [_ Has].
  destruct (Expr_eq_dec a b) as [->|Hne]; [reflexivity|].
  destruct (contains X a b) eqn:Eab, (contains X b a) eqn:Eba.
  - exfalso. apply Hne. now apply Has.
  - rewrite insert_order_above by assumption. reflexivity.
  - rewrite <- insert_order_above by assumption. reflexivity.
  - now apply insert_order_apart.
Qed.

Lemma order_step_swap : forall a b os,
  Permutation (order_step X (order_step X os a) b)
              (order_step X (order_step X os b) a).
Proof.
  intros a b os.
  destruct a; try reflexivity; destruct b; try reflexivity.
  apply insert_order_swap.
Qed.

Lemma order_step_perm : forall o os os',
  Permutation os os' -> Permutation (order_step X os o) (order_step X os' o).
Proof.
  intros o os os' H. destruct o; try exact H.
  apply (insert_order_perm _ _ _ H).
Qed.

End TermsCommute.

Section RunPermutation.

Variable X : Env.
Hypothesis contains_po : contains_order X.

Lemma state_equiv_refl : forall s, state_equiv s s.
Proof.
  intros s. repeat split; reflexivity.
Qed.

Lemma state_equiv_trans : forall a b c,
  state_equiv a b -> state_equiv b c -> state_equiv a c.
Proof.
  intros a b c (H1 & H2 & H3) (H4 & H5 & H6). repeat split.
  - congruence.
  - etransitivity; eassumption.
  - etransitivity; eassumption.
Qed.

Lemma opt_equiv_trans : forall a b c,
  opt_equiv a b -> opt_equiv b c -> opt_equiv a c.
Proof.
  intros [a|] [b|] [c|]; simpl; try tauto. apply state_equiv_trans.
Qed.

Lemma sane_equiv : forall s s', state_equiv s s' -> sane s -> sane s'.
Proof.
  intros s s' (H1 & H2 & _) [Hc Hd]. split.
  - now rewrite <- H1.
  - apply (Permutation_NoDup (Permutation_map fst H2) Hd).
Qed.

Lemma step_sane : forall s o s',
  sane s -> step_state X s o = Some s' -> sane s'.
Proof.
  intros s o s' [Hc Hd] H. unfold step_state in H.
  destruct (scalar_step X (coeff s) o) as [c'|] eqn:E; [|discriminate].
  inversion H; subst. split; cbn [coeff terms].
  - eapply scalar_step_sane; eassumption.
  - now apply add_term_NoDup.
Qed.

Lemma step_equiv : forall s s' o,
  state_equiv s s' -> sane s ->
  opt_equiv (step_state X s o) (step_state X s' o).
Proof.
  intros s s' o (H1 & H2 & H3) [_ Hd]. unfold step_state. rewrite <- H1.
  destruct (scalar_step X (coeff s) o); [|exact I].
  repeat split; cbn [coeff terms order_factors].
  - now apply add_term_perm.
  - now apply order_step_perm.
Qed.

Lemma run_equiv : forall l s s',
  state_equiv s s' -> sane s -> opt_equiv (run X l s) (run X l s').
Proof.
  induction l as [|o l IH]; intros s s' He Hs; [exact He|].
  cbn [run]. pose proof (step_equiv s s' o He Hs) as H.
  destruct (step_state X s o) as [s1|] eqn:E1,
           (step_state X s' o) as [s1'|] eqn:E1'; cbn [opt_equiv] in H |- *; try contradiction; [|exact I].
  apply IH; [exact H | eapply step_sane; eassumption].
Qed.

Lemma two_steps_swap : forall s a b,
  sane s -> opt_equiv (two_steps X s a b) (two_steps X s b a).
Proof.
  intros s a b [Hc _]. unfold two_steps, step_state.
  pose proof (scalar_step_swap X (coeff s) a b Hc) as Hsw.
  destruct (scalar_step X (coeff s) a) as [ca|],
           (scalar_step X (coeff s) b) as [cb|];
    cbn [bind_scalar coeff terms order_factors] in *.
  - destruct (scalar_step X ca b) as [c1|], (scalar_step X cb a) as [c2|];
      try discriminate; [|exact I].
    inversion Hsw; subst. repeat split; cbn [coeff terms order_factors].
    + apply add_term_swap.
    + now apply order_step_swap.
  - rewrite Hsw. exact I.
  - rewrite <- Hsw. exact I.
  - exact I.
Qed.

Lemma two_steps_sane : forall s a b s2,
  sane s -> two_steps X s a b = Some s2 -> sane s2.
Proof.
  intros s a b s2 Hs H. unfold two_steps in H.
  destruct (step_state X s a) as [s1|] eqn:E; [|discriminate].
  eapply step_sane; [|exact H]. eapply step_sane; eassumption.
Qed.

Lemma two_steps_equiv : forall s s' a b,
  state_equiv s s' -> sane s ->
  opt_equiv (two_steps X s a b) (two_steps X s' a b).
Proof.
  intros s s' a b He Hs. unfold two_steps.
  pose proof (step_equiv s s' a He Hs) as H.
  destruct (step_state X s a) as [s1|] eqn:E1,
           (step_state X s' a) as [s1'|]; cbn [opt_equiv] in H |- *; try contradiction; [|exact I].
  apply step_equiv; [exact H | eapply step_sane; eassumption].
Qed.

Lemma run_two : forall a b l s,
  run X (a :: b :: l) s
  = match two_steps X s a b with Some s2 => run X l s2 | None => None end.
Proof.
  intros a b l s. cbn [run]. unfold two_steps.
  destruct (step_state X s a); reflexivity.
Qed.

(** The state after a list of addends depends on the addends only, not on
    their order. *)
Lemma run_perm : forall l l',
  Permutation l l' ->
  forall s s', state_equiv s s' -> sane s ->
    opt_equiv (run X l s) (run X l' s').
Proof.
  intros l l' H. induction H as [|x l l' H IH|x y l|l l' l'' H1 IH1 H2 IH2];
    intros s s' He Hs.
  - exact He.
  - cbn [run]. pose proof (step_equiv s s' x He Hs) as Hx.
    destruct (step_state X s x) as [s1|] eqn:E1,
             (step_state X s' x) as [s1'|]; cbn [opt_equiv] in Hx |- *; try contradiction; [|exact I].
    apply IH; [exact Hx | eapply step_sane; eassumption].
  - rewrite !run_two.
    assert (Hsw : opt_equiv (two_steps X s y x) (two_steps X s' x y)).
    { eapply opt_equiv_trans; [apply two_steps_swap; exact Hs|].
      now apply two_steps_equiv. }
    destruct (two_steps X s y x) as [s2|] eqn:E2,
             (two_steps X s' x y) as [s2'|]; cbn [opt_equiv] in Hsw |- *; try contradiction; [|exact I].
    apply run_equiv; [exact Hsw | eapply two_steps_sane; eassumption].
  - eapply opt_equiv_trans.
    + apply (IH1 s s (state_equiv_refl s) Hs).
    + apply IH2; assumption.
Qed.

(** Equivalent states give the same result when no two operands to be sorted
    share a key. *)
Lemma flat_map_perm : forall (f : Expr * Number -> list Expr) d d',
  Permutation d d' -> Permutation (flat_map f d) (flat_map f d').
Proof.
  intros f d d' H. induction H; simpl.
  - constructor.
  - now apply Permutation_app_head.
  - rewrite !app_assoc. apply Permutation_app_tail. apply Permutation_app_comm.
  - etransitivity; eassumption.
Qed.

Lemma existsb_perm_pair : forall (f : Expr * Number -> bool) l l',
  Permutation l l' -> existsb f l = existsb f l'.
Proof.
  intros f l l' H. induction H; simpl.
  - reflexivity.
  - now rewrite IHPermutation.
  - destruct (f x), (f y); reflexivity.
  - congruence.
Qed.

Lemma prune_perm : forall c l l',
  Permutation l l' -> Permutation (prune X c l) (prune X c l').
Proof.
  intros c l l' H. unfold prune.
  destruct c as [[| | |]| | | | | | |]; try exact H; now apply filter_perm.
Qed.

Lemma finish_equiv : forall s s',
  state_equiv s s' -> NoDup (map (hash X) (presort X s)) ->
  finish X s = finish X s'.
Proof.
  intros s s' (Hc & Ht & Ho) Hnd. unfold finish. unfold presort in Hnd.
  rewrite <- Hc. unfold is_noncommutative.
  rewrite (existsb_perm_pair _ _ _ Ht).
  assert (Hp : Permutation (prune X (coeff s) (build_newseq X (terms s)))
                 (prune X (coeff s) (build_newseq X (terms s')))).
  { apply prune_perm. unfold build_newseq. now apply flat_map_perm. }
  assert (Habs : forall t, absorbed X (order_factors s) t
                           = absorbed X (order_factors s') t).
  { intros t. unfold absorbed. now apply existsb_perm. }
  unfold process_order in *.
  destruct (order_factors s) as [|o os] eqn:Eo.
  - apply Permutation_nil in Ho. rewrite Ho. cbn [snd] in Hnd.
    rewrite (sort_by_unique (hash X) _ _ Hp Hnd). reflexivity.
  - destruct (order_factors s') as [|o' os'] eqn:Eo'.
    { apply Permutation_sym, Permutation_nil in Ho. discriminate. }
    cbn [snd] in Hnd. rewrite <- (Habs (coeff s)).
    assert (Hq : Permutation
                   (filter (fun t => negb (absorbed X (o :: os) t))
                      (prune X (coeff s) (build_newseq X (terms s)))
                    ++ o :: os)
                   (filter (fun t => negb (absorbed X (o' :: os') t))
                      (prune X (coeff s) (build_newseq X (terms s')))
                    ++ o' :: os')).
    { apply Permutation_app; [|exact Ho].
      rewrite (filter_ext (fun t => negb (absorbed X (o :: os) t))
                 (fun t => negb (absorbed X (o' :: os') t))
                 (fun t => f_equal negb (Habs t))).
      now apply filter_perm. }
    rewrite (sort_by_unique (hash X) _ _ Hq Hnd). reflexivity.
Qed.

End RunPermutation.

(** ** The small instance meets the assumptions *)

Lemma toy_Mul2_weight : forall c a,
  (toy_weight (toy_Mul2 (Num c) a) <= 2 * toy_weight a)%nat.
Proof.
  intros c a. unfold toy_Mul2.
  destruct (Number_eqb c One); [lia|].
  destruct a as [m| | | |l| | |]; try (cbn; lia).
  destruct l as [|x rest]; [cbn; lia|].
  destruct x as [m| | | | | | |]; try (cbn [toy_weight map list_sum]; cbn; lia).
  destruct (Number_eqb (number_mul c m) One).
  - destruct rest as [|y [|z rest]];
      cbn [toy_weight map list_sum]; simpl; lia.
  - cbn [toy_weight map list_sum]. simpl. lia.
Qed.

Lemma toy_weight_ok : weight_ok toy toy_weight.
Proof.
  intros o. destruct o; try (cbn; lia).
  - (* a sum *)
    cbn [splice toy_weight]. unfold work. lia.
  - (* a product *)
    cbn [splice].
    destruct (as_coeff_Mul (Mul args)) as [c s] eqn:E.
    destruct (is_Add s) eqn:Ea; [|cbn; lia].
    destruct s as [| | |l| | | |]; try discriminate.
    assert (args = [Num c; Add l]) as ->.
    { cbn [as_coeff_Mul] in E.
      destruct args as [|a0 rest]; [inversion E|].
      destruct a0; try (inversion E; fail).
      destruct rest as [|s rest]; [inversion E|].
      destruct rest; inversion E; subst; reflexivity. }
    assert (Hsum : forall l0,
              (list_sum (map (fun a => S (toy_weight (toy_Mul2 (Num c) a))) l0)
               <= 2 * list_sum (map (fun a => S (toy_weight a)) l0))%nat).
    { induction l0 as [|a l0 IH]; [simpl; lia|].
      pose proof (toy_Mul2_weight c a) as Ha.
      change (list_sum (map (fun a => S (toy_weight (toy_Mul2 (Num c) a))) (a :: l0)))
        with (S (toy_weight (toy_Mul2 (Num c) a))
              + list_sum (map (fun a => S (toy_weight (toy_Mul2 (Num c) a))) l0))%nat.
      change (list_sum (map (fun a => S (toy_weight a)) (a :: l0)))
        with (S (toy_weight a) + list_sum (map (fun a => S (toy_weight a)) l0))%nat.
      lia. }
    specialize (Hsum l).
    cbn [args_of toy Mul2]. unfold work. rewrite map_map.
    change (toy_weight (Mul [Num c; Add l]))
      with (2 * (0 + (S (list_sum (map (fun a => S (toy_weight a)) l)) + 0)))%nat.
    lia.
  - (* a power *)
    cbn [splice toy as_base_exp toy_as_base_exp Pow2 toy_weight].
    destruct (is_Number o1 && _) eqn:E; [|cbn; lia].
    apply andb_true_iff in E. destruct E as [E1 E2].
    destruct o1 as [x| | | | | | |]; try discriminate.
    destruct o2 as [y| | | | | | |]; try discriminate.
    unfold work, toy_Pow2. cbn [map list_sum].
    destruct x, y; try (cbn; lia).
    destruct (Pos.eqb (Qden r0) 1); cbn; lia.
Qed.

Lemma toy_contains_order : contains_order toy.
Proof.
  split.
  - intros a b c Hab Hbc. cbn [toy contains] in *. unfold toy_contains in *.
    destruct a as [| | | | | |ea|]; try discriminate.
    destruct b as [| | | | | |eb|]; try discriminate.
    apply Expr_eqb_eq in Hab. subst eb. exact Hbc.
  - intros a b Hab Hba. cbn [toy contains] in *. unfold toy_contains in *.
    destruct a as [| | | | | |ea|]; try discriminate.
    destruct b as [| | | | | |eb|]; try discriminate.
    apply Expr_eqb_eq in Hab. now subst eb.
Qed.

(** ** Permutations and regroupings of the addends *)

(** C1 as stated fails: two distinct symbols with the same key keep the
    order in which they are given. *)
Lemma C1_counterexample :
  Permutation (flat_map addends [sym "ab"; sym "ba"])
              (flat_map addends [sym "ba"; sym "ab"])
  /\ flatten toy 2 [sym "ab"; sym "ba"] = Return ([sym "ab"; sym "ba"], [], None)
  /\ flatten toy 2 [sym "ba"; sym "ab"] = Return ([sym "ba"; sym "ab"], [], None)
  /\ flatten toy 2 [sym "ab"; sym "ba"] <> flatten toy 2 [sym "ba"; sym "ab"].
Proof.
  repeat split; try reflexivity; [apply perm_swap | discriminate].
Qed.

(** C1 (amended).  Take two sequences that hold the same addends once their
    nested sums are opened, in any order and any grouping, and on neither of
    which the two operand shortcut fires.  If [contains] is transitive and
    antisymmetric and no two operands handed to the final sort share a key,
    then, with fuel for the whole worklist, [flatten] returns on both, and
    returns the same triple. *)
Theorem C1_regrouping_invariance : forall X weight seq1 seq2 fuel1 fuel2,
  weight_ok X weight ->
  contains_order X ->
  Permutation (flat_map addends seq1) (flat_map addends seq2) ->
  shortcut X seq1 = Return None ->
  shortcut X seq2 = Return None ->
  (work weight seq1 <= fuel1)%nat ->
  (work weight seq2 <= fuel2)%nat ->
  NoDup (map (hash X) (sort_input X fuel1 seq1)) ->
  (exists r, flatten X fuel1 seq1 = Return r)
  /\ flatten X fuel1 seq1 = flatten X fuel2 seq2.
Proof.
  intros X weight seq1 seq2 fuel1 fuel2 Hw Hpo Hperm Hs1 Hs2 Hf1 Hf2 Hnd.
  unfold flatten, flatten_general. rewrite Hs1, Hs2.
  unfold sort_input in Hnd.
  rewrite (collect_run X weight Hw fuel1 seq1 initial Hf1) in *.
  rewrite (collect_run X weight Hw fuel2 seq2 initial Hf2).
  rewrite (run_not_Add X (walk X fuel1 seq1)) in *.
  rewrite (run_not_Add X (walk X fuel2 seq2)).
  assert (Hin : forall seq x, In x seq -> (weight x < S (work weight seq))%nat).
  { intros seq x Hx. pose proof (in_work weight x seq Hx). lia. }
  destruct (walk_addends X weight Hw _ seq1 fuel1 (Hin seq1) Hf1) as [Hw1 Hp1].
  destruct (walk_addends X weight Hw _ seq2 fuel2 (Hin seq2) Hf2) as [Hw2 Hp2].
  assert (Hwe : work weight (flat_map addends seq2)
                = work weight (flat_map addends seq1))
    by (symmetry; now apply work_perm).
  assert (HP : Permutation (filter not_Add (walk X fuel1 seq1))
                 (filter not_Add (walk X fuel2 seq2))).
  { rewrite Hp1, Hp2. apply filter_perm.
    rewrite (walk_fuel X weight Hw fuel2 fuel1 (flat_map addends seq2)) by lia.
    apply (walk_perm X weight Hw); [exact Hperm | lia]. }
  assert (Hsane : sane initial).
  { split; [left; exists Zero; split; [reflexivity | discriminate] | constructor]. }
  pose proof (run_perm X Hpo _ _ HP initial initial
                (state_equiv_refl initial) Hsane) as He.
  destruct (run X (filter not_Add (walk X fuel1 seq1)) initial) as [s1|],
           (run X (filter not_Add (walk X fuel2 seq2)) initial) as [s2|];
    cbn [opt_equiv] in He; try contradiction.
  - rewrite (finish_equiv X s1 s2 He Hnd). split; [eexists|]; reflexivity.
  - split; [eexists|]; reflexivity.
Qed.

Lemma C1_regrouping_invariance_witness :
  flatten toy 5 [Add [sym "x"; sym "y"]; Mul [int 2; sym "x"]]
  = flatten toy 5 [Mul [int 2; sym "x"]; Add [sym "x"; sym "y"]].
Proof.
  apply (C1_regrouping_invariance toy toy_weight
           [Add [sym "x"; sym "y"]; Mul [int 2; sym "x"]]
           [Mul [int 2; sym "x"]; Add [sym "x"; sym "y"]] 5 5).
  - exact toy_weight_ok.
  - exact toy_contains_order.
  - exact (Permutation_sym
             (Permutation_cons_append [sym "x"; sym "y"] (Mul [int 2; sym "x"]))).
  - reflexivity.
  - reflexivity.
  - vm_compute. lia.
  - vm_compute. lia.
  - repeat constructor; simpl; intuition discriminate.
Defined.

(** ** Non-commutative operands *)

Lemma collect_scalar_sane : forall X fuel seq st,
  collect X fuel seq initial = Return (Some st) -> scalar_sane (coeff st).
Proof.
  intros X fuel seq st H.
  apply (collect_invariant X (fun s => scalar_sane (coeff s)))
    with (fuel := fuel) (seq := seq) (st := initial); [| |exact H].
  - intros s o s' ext Hs E. rewrite body_step in E.
    destruct (step_state X s o) as [s1|] eqn:Es; [|discriminate].
    inversion E; subst s1. unfold step_state in Es.
    destruct (scalar_step X (coeff s) o) as [c'|] eqn:Ec; [|discriminate].
    inversion Es; subst s'. cbn [coeff].
    exact (scalar_step_sane X _ _ _ Hs Ec).
  - left. exists Zero. split; [reflexivity | discriminate].
Qed.

(** C4 as stated fails: the operands [B] and [A] do not commute, are given
    in the order [B, A], and come back sorted by key as [A, B] (in the
    non-commutative part of the result). *)
Lemma C4_counterexample :
  flatten toy 2 [sym "B"; sym "A"] = Return ([], [sym "A"; sym "B"], None)
  /\ toy_ask commutative (sym "A") = Some false
  /\ toy_ask commutative (sym "B") = Some false.
Proof.
  repeat split; reflexivity.
Qed.

(** C4 (amended).  On the term collection path, for a sequence that does not
    collapse to [[NaN]]: when some collected term with a nonzero coefficient
    is flagged non-commutative, the whole operand sequence is returned in the
    non-commutative part of the result and the commutative part is empty;
    when no such term exists it is returned in the commutative part.  In both
    cases the operand sequence is the scalar of the loop in slot 0 (left out
    when it is zero or an Order entry contains it) followed by the list handed
    to the sort, sorted by the key: every operand of a dictionary entry that
    is neither pruned nor absorbed is in the sorted part, the non-commutative
    ones like the others. *)
Theorem C4_noncommutative_part : forall X fuel seq st,
  collect X fuel seq initial = Return (Some st) ->
  exists r sorted,
    flatten_general X fuel seq = Return r
    /\ ((exists s c, In (s, c) (terms st) /\ c <> Zero
                     /\ truth (is_commutative X s) = false) ->
        fst (fst r) = [] /\ snd (fst r) = operands r)
    /\ ((forall s c, In (s, c) (terms st) -> c <> Zero ->
                     truth (is_commutative X s) = true) ->
        snd (fst r) = [] /\ fst (fst r) = operands r)
    /\ operands r
       = scalar_slot (if absorbed X (order_factors st) (coeff st)
                      then Num Zero else coeff st) ++ sorted
    /\ (is_Number (coeff st) = true \/ coeff st = ComplexInfinity)
    /\ key_sorted (hash X) sorted
    /\ Permutation sorted (presort X st)
    /\ (forall s c f,
          In (s, c) (terms st) -> emitted X s c f ->
          In f (prune X (coeff st) [f]) ->
          absorbed X (order_factors st) f = false ->
          In f sorted).
Proof.
  intros X fuel seq st H.
  exists (finish X st), (sort_by (hash X) (presort X st)).
  split; [unfold flatten_general; now rewrite H|].
  assert (Hparts : forall b,
            is_noncommutative X (terms st) = b ->
            (b = true -> fst (fst (finish X st)) = []
                         /\ snd (fst (finish X st)) = operands (finish X st))
            /\ (b = false -> snd (fst (finish X st)) = []
                             /\ fst (fst (finish X st)) = operands (finish X st))).
  { intros b Hb. unfold operands, finish. rewrite Hb.
    destruct (process_order X (order_factors st) (coeff st)
                (prune X (coeff st) (build_newseq X (terms st)))) as [c' newseq].
    destruct b; split; intros E; try discriminate; cbn [fst snd];
      rewrite ?app_nil_r; split; reflexivity. }
  split; [|split; [|split; [|split; [|split; [|split]]]]].
  - intros (s & c & Hin & Hc & Hnc). apply (Hparts true); [|reflexivity].
    apply existsb_exists. exists (s, c). split; [exact Hin|]. simpl.
    rewrite Hnc. unfold Number_eqb.
    destruct (Number_eq_dec c Zero); [contradiction | reflexivity].
  - intros Hall. apply (Hparts false); [|reflexivity].
    destruct (is_noncommutative X (terms st)) eqn:E; [|reflexivity].
    apply existsb_exists in E. destruct E as ([s c] & Hin & Hb).
    simpl in Hb. apply andb_true_iff in Hb. destruct Hb as [Hz Hn].
    unfold Number_eqb in Hz. destruct (Number_eq_dec c Zero); [discriminate|].
    rewrite (Hall s c Hin n) in Hn. discriminate.
  - rewrite operands_finish. unfold presort. f_equal. f_equal.
    unfold process_order. destruct (order_factors st); reflexivity.
  - destruct (collect_scalar_sane X fuel seq st H) as [(n & -> & _)| ->];
      [now left | now right].
  - apply sort_by_sorted.
  - apply sort_by_perm.
  - intros s c f Hin He Hp Ha.
    apply (Permutation_in _ (Permutation_sym (sort_by_perm _ _))).
    unfold presort, process_order.
    assert (Hb : In f (prune X (coeff st) (build_newseq X (terms st)))).
    { apply prune_In. split; [|exact Hp]. unfold build_newseq.
      apply in_flat_map. exists (s, c).
      split; [exact Hin | now apply emitted_new_arg]. }
    destruct (order_factors st) as [|o os] eqn:Eo; cbn [snd]; [exact Hb|].
    apply in_or_app. left. apply filter_In. split; [exact Hb|].
    now rewrite Ha.
Qed.

Lemma C4_noncommutative_part_witness :
  exists r sorted,
    flatten_general toy 2 [sym "B"; sym "A"] = Return r
    /\ ((exists s c, In (s, c) [(sym "B", One); (sym "A", One)] /\ c <> Zero
                     /\ truth (is_commutative toy s) = false) ->
        fst (fst r) = [] /\ snd (fst r) = operands r)
    /\ ((forall s c, In (s, c) [(sym "B", One); (sym "A", One)] -> c <> Zero ->
                     truth (is_commutative toy s) = true) ->
        snd (fst r) = [] /\ fst (fst r) = operands r)
    /\ operands r = scalar_slot (Num Zero) ++ sorted
    /\ (is_Number (Num Zero) = true \/ Num Zero = ComplexInfinity)
    /\ key_sorted (hash toy) sorted
    /\ Permutation sorted [sym "B"; sym "A"]
    /\ (forall s c f,
          In (s, c) [(sym "B", One); (sym "A", One)] -> emitted toy s c f ->
          In f (prune toy (Num Zero) [f]) ->
          absorbed toy [] f = false ->
          In f sorted).
Proof.
  apply (C4_noncommutative_part toy 2 [sym "B"; sym "A"]
           (mkState (Num Zero) [(sym "B", One); (sym "A", One)] [])).
  reflexivity.
Defined.

(** * Further properties of the code *)

(** ** [removeO] and [getO] *)

Lemma filter_split_perm : forall (f : Expr -> bool) l,
  Permutation (filter (fun a => negb (f a)) l ++ filter f l) l.
Proof.
  intros f l. induction l as [|x l IH]; [constructor|].
  simpl. destruct (f x); simpl.
  - apply Permutation_sym. apply Permutation_cons_app. now apply Permutation_sym.
  - now constructor.
Qed.

(** [removeO] and [getO] split the operands of a sum: the list that [removeO]
    rebuilds holds no Order node, the list that [getO] rebuilds holds nothing
    else, together they hold every operand exactly once, and [getO] answers
    [None] exactly when no operand is an Order node. *)
Theorem removeO_getO_split : forall new_rawargs self,
  exists rest orders,
    removeO new_rawargs self = new_rawargs rest
    /\ getO new_rawargs self
       = match orders with [] => None | _ => Some (new_rawargs orders) end
    /\ Permutation (rest ++ orders) (args_of self)
    /\ Forall (fun a => is_Order a = false) rest
    /\ Forall (fun a => is_Order a = true) orders
    /\ (getO new_rawargs self = None
        <-> Forall (fun a => is_Order a = false) (args_of self)).
Proof.
  intros new_rawargs self.
  exists (filter (fun a => negb (is_Order a)) (args_of self)),
         (filter is_Order (args_of self)).
  split; [reflexivity|].
  split; [unfold getO; now destruct (filter is_Order (args_of self))|].
  split; [apply filter_split_perm|].
  split.
  { rewrite Forall_forall. intros a Ha. apply filter_In in Ha.
    now apply negb_true_iff. }
  split.
  { rewrite Forall_forall. intros a Ha. now apply filter_In in Ha. }
  unfold getO. split.
  - intros H. rewrite Forall_forall. intros a Ha.
    destruct (is_Order a) eqn:E; [|reflexivity].
    assert (In a (filter is_Order (args_of self))) as Hin
      by (apply filter_In; now split).
    destruct (filter is_Order (args_of self)); [destruct Hin | discriminate].
  - intros H.
    assert (filter is_Order (args_of self) = []) as ->; [|reflexivity].
    induction H as [|x l Hx _ IH]; [reflexivity|].
    simpl. now rewrite Hx.
Qed.

(** ** [extract_leading_order] *)

Section LeadingOrderFacts.

Variable X : Env.
Variable Order_of : Expr -> Expr.

Lemma contains_other_flip : forall o o',
  (contains X o o' && negb (Expr_eqb o' o)) = contains_other X o o'.
Proof.
  intros o o'. unfold contains_other. f_equal. f_equal.
  destruct (Expr_eqb o' o) eqn:E.
  - apply Expr_eqb_eq in E. subst. now rewrite Expr_eqb_refl.
  - now rewrite (Expr_eqb_sym_false _ _ E).
Qed.

Lemma leading_step_ok : forall args lst f,
  In f args -> leading_ok X Order_of args lst ->
  leading_ok X Order_of args (leading_step X lst (f, Order_of f)).
Proof.
  intros args lst f Hf [Hall Hpairs]. unfold leading_step. cbn [snd].
  destruct (existsb _ lst) eqn:Ex; [now split|].
  split.
  - constructor; [now split|].
    rewrite Forall_forall in *. intros eo Heo. apply filter_In in Heo.
    now apply Hall.
  - constructor.
    + rewrite Forall_forall. intros eo Heo. apply filter_In in Heo.
      destruct Heo as [Hin Hk]. cbn [snd]. split.
      * rewrite contains_other_flip in Hk. now apply negb_true_iff in Hk.
      * destruct (contains_other X (snd eo) (Order_of f)) eqn:E; [|reflexivity].
        assert (existsb (fun eo0 => contains_other X (snd eo0) (Order_of f)) lst
                = true) by (apply existsb_exists; eauto).
        congruence.
    + clear Hall Ex. induction Hpairs as [|a l Ha Hl IH]; simpl; [constructor|].
      destruct (negb _); [|exact IH]. constructor; [|exact IH].
      rewrite Forall_forall in *. intros x Hx. apply filter_In in Hx.
      now apply Ha.
Qed.

Lemma leading_step_nonempty : forall lst p,
  leading_step X lst p = [] -> False.
Proof.
  intros lst p. unfold leading_step.
  destruct (existsb _ lst) eqn:E; [|discriminate].
  intros H. subst lst. discriminate.
Qed.

End LeadingOrderFacts.

(** Every pair that [extract_leading_order] returns is an operand of the sum
    with its own Order node, no Order node returned contains another one that
    differs from it, and a sum with an operand has at least one leading
    term. *)
Theorem extract_leading_order_sound : forall X Order_of self,
  Forall (fun eo => In (fst eo) (args_of self) /\ snd eo = Order_of (fst eo))
    (extract_leading_order X Order_of self)
  /\ ForallOrdPairs
       (fun p q => contains_other X (snd p) (snd q) = false
                   /\ contains_other X (snd q) (snd p) = false)
       (extract_leading_order X Order_of self)
  /\ (args_of self <> [] -> extract_leading_order X Order_of self <> []).
Proof.
  intros X Order_of self. unfold extract_leading_order.
  assert (Hgen : forall todo lst,
            (forall f, In f todo -> In f (args_of self)) ->
            leading_ok X Order_of (args_of self) lst ->
            leading_ok X Order_of (args_of self)
              (fold_left (leading_step X) (map (fun f => (f, Order_of f)) todo) lst)
            /\ (todo <> [] \/ lst <> [] ->
                fold_left (leading_step X) (map (fun f => (f, Order_of f)) todo) lst
                <> [])).
  { induction todo as [|f todo IH]; intros lst Hin Hok.
    - split; [exact Hok|]. simpl. intros [H|H]; [congruence | exact H].
    - cbn [map fold_left].
      destruct (IH (leading_step X lst (f, Order_of f))) as [H1 H2].
      + intros g Hg. apply Hin. now right.
      + apply leading_step_ok; [apply Hin; now left | exact Hok].
      + split; [exact H1|]. intros _. apply H2. right.
        intros E. exact (leading_step_nonempty X _ _ E). }
  destruct (Hgen (args_of self) []) as [[H1 H2] H3].
  - auto.
  - split; constructor.
  - split; [exact H1|]. split; [exact H2|]. intros Hne. apply H3. now left.
Qed.

(** ** The sign of a sum *)

(** [_eval_is_negative] is [_eval_is_positive] read with the sign attributes
    exchanged: positive with negative, nonnegative with nonpositive. *)
Theorem eval_is_negative_mirror : forall new_rawargs sign self,
  eval_is_negative new_rawargs sign self
  = eval_is_positive new_rawargs (fun s => sign (mirror s)) self.
Proof.
  intros new_rawargs sign self. unfold eval_is_negative, eval_is_positive.
  destruct (as_two_terms new_rawargs self) as [|e|[c r]]; reflexivity.
Qed.

(** When no node is known to have two signs that exclude each other, a sum
    is never answered to be positive and negative at once. *)
Theorem eval_sign_exclusive : forall new_rawargs sign self,
  consistent_signs sign ->
  ~ (eval_is_positive new_rawargs sign self = Return (Some true)
     /\ eval_is_negative new_rawargs sign self = Return (Some true)).
Proof.
  intros new_rawargs sign self Hc [Hp Hn].
  unfold eval_is_positive, eval_is_negative in *.
  destruct (as_two_terms new_rawargs self) as [|e|[c r]]; try discriminate.
  destruct (Hc c) as (Hc1 & Hc2 & Hc3). destruct (Hc r) as (Hr1 & Hr2 & Hr3).
  assert (Ht : forall a, a = Some true -> truth a = true)
    by (intros a ->; reflexivity).
  destruct (truth (sign Positive c)) eqn:Pc;
  destruct (truth (sign Positive r)) eqn:Pr;
  destruct (truth (sign Negative c)) eqn:Nc;
  destruct (truth (sign Negative r)) eqn:Nr;
  try (exfalso; solve [apply Hc1; now split | apply Hr1; now split]);
  destruct (truth (sign Unbounded c)) eqn:Uc;
  destruct (truth (sign Unbounded r)) eqn:Ur;
  cbn [andb] in Hp, Hn; try discriminate;
  try (injection Hp as Hp; apply Ht in Hp; congruence);
  try (injection Hn as Hn; apply Ht in Hn; congruence);
  destruct (truth (sign NonNegative c)) eqn:NNc;
  destruct (truth (sign NonNegative r)) eqn:NNr;
  destruct (truth (sign NonPositive c)) eqn:NPc;
  destruct (truth (sign NonPositive r)) eqn:NPr;
  cbn [andb] in Hp, Hn; try discriminate;
  try (exfalso;
       solve [apply Hc1; now split | apply Hr1; now split
             | apply Hc2; now split | apply Hr2; now split
             | apply Hc3; now split | apply Hr3; now split]).
Qed.

(** ** [_eval_is_irrational] *)

Section IrrationalFacts.

Variable is_irrational : Expr -> option bool.
Variable is_rational : Expr -> option bool.

Lemma irrational_loop_true : forall args todo,
  irrational_loop is_irrational is_rational args todo = Some true
  <-> exists pre t post,
        todo = pre ++ t :: post
        /\ Forall (fun x => is_irrational x = Some false) pre
        /\ is_irrational t = Some true
        /\ forallb (fun x => is_True (is_rational x)) (remove_first t args) = true.
Proof.
  intros args todo. induction todo as [|x todo IH]; cbn [irrational_loop].
  - split; [discriminate|]. intros (pre & t & post & E & _).
    now destruct pre.
  - destruct (is_irrational x) as [[|]|] eqn:Ex.
    + destruct (forallb _ (remove_first x args)) eqn:Ef.
      * split; [|reflexivity]. intros _. exists [], x, todo. now repeat split.
      * split; [discriminate|]. intros (pre & t & post & E & Hpre & Ht & Hf).
        destruct pre as [|p pre]; cbn [app] in E; injection E as -> ->.
        -- congruence.
        -- inversion Hpre; congruence.
    + rewrite IH. split; intros (pre & t & post & E & Hpre & Ht & Hf).
      * exists (x :: pre), t, post. subst todo. repeat split; auto.
      * destruct pre as [|p pre]; cbn [app] in E; injection E as -> ->.
        -- congruence.
        -- exists pre, t, post. inversion Hpre. now repeat split.
    + split; [discriminate|]. intros (pre & t & post & E & Hpre & Ht & Hf).
      destruct pre as [|p pre]; cbn [app] in E; injection E as -> ->.
      * congruence.
      * inversion Hpre; congruence.
Qed.

Lemma irrational_loop_false : forall args todo,
  irrational_loop is_irrational is_rational args todo = Some false
  <-> Forall (fun x => is_irrational x = Some false) todo.
Proof.
  intros args todo. induction todo as [|x todo IH]; cbn [irrational_loop].
  - split; [constructor | reflexivity].
  - destruct (is_irrational x) as [[|]|] eqn:Ex.
    + destruct (forallb _ _); (split; [discriminate|]);
        intros H; inversion H; congruence.
    + rewrite IH. split; intros H; [now constructor | now inversion H].
    + split; [discriminate|]. intros H; inversion H; congruence.
Qed.

Lemma remove_first_middle : forall pre t post,
  ~ In t pre -> remove_first t (pre ++ t :: post) = pre ++ post.
Proof.
  intros pre t post. induction pre as [|p pre IH]; intros Hn; cbn [app remove_first].
  - now rewrite Expr_eqb_refl.
  - destruct (Expr_eqb p t) eqn:E.
    + apply Expr_eqb_eq in E. subst p. exfalso. apply Hn. now left.
    + rewrite IH; [reflexivity|]. intros H. apply Hn. now right.
Qed.

End IrrationalFacts.

(** A sum is answered irrational exactly when some operand is known
    irrational, the operands before it are known not to be irrational, and
    every operand other than it is known rational; it is answered not
    irrational exactly when every operand is known not to be irrational. *)
Theorem eval_is_irrational_answers : forall is_irrational is_rational self,
  (eval_is_irrational is_irrational is_rational self = Some true
   <-> exists pre t post,
         args_of self = pre ++ t :: post
         /\ Forall (fun x => is_irrational x = Some false) pre
         /\ is_irrational t = Some true
         /\ Forall (fun x => is_rational x = Some true) (pre ++ post))
  /\ (eval_is_irrational is_irrational is_rational self = Some false
      <-> Forall (fun x => is_irrational x = Some false) (args_of self)).
Proof.
  intros irr rat self. unfold eval_is_irrational. split.
  - rewrite irrational_loop_true.
    assert (Hrat : forall l,
              forallb (fun x => is_True (rat x)) l = true
              <-> Forall (fun x => rat x = Some true) l).
    { intros l. rewrite forallb_forall, Forall_forall.
      split; intros H x Hx; specialize (H x Hx).
      - now destruct (rat x) as [[|]|].
      - now rewrite H. }
    split; intros (pre & t & post & E & Hpre & Ht & Hf);
      exists pre, t, post; (split; [exact E|]); (split; [exact Hpre|]);
      (split; [exact Ht|]);
      assert (Hnot : ~ In t pre)
        by (intros Hin; rewrite Forall_forall in Hpre;
            specialize (Hpre t Hin); congruence).
    + apply Hrat. rewrite E, remove_first_middle in Hf by exact Hnot. exact Hf.
    + rewrite E, remove_first_middle by exact Hnot. now apply Hrat.
  - apply irrational_loop_false.
Qed.

(** ** [as_coefficients_dict] *)

Lemma dict_append_fresh : forall m c d,
  ~ In m (map fst d) -> dict_append m c d = d ++ [(m, [c])].
Proof.
  intros m c d. induction d as [|[k v] d IH]; intros Hn; [reflexivity|].
  cbn [dict_append app]. destruct (Expr_eqb k m) eqn:E.
  - apply Expr_eqb_eq in E. subst k. exfalso. apply Hn. now left.
  - rewrite IH; [reflexivity|]. intros H. apply Hn. now right.
Qed.

Lemma coefficient_lists_distinct : forall args d,
  NoDup (map fst d ++ map (fun ai => snd (as_coeff_Mul ai)) args) ->
  fold_left (fun d ai => dict_append (snd (as_coeff_Mul ai))
                           (fst (as_coeff_Mul ai)) d) args d
  = d ++ map (fun ai => (snd (as_coeff_Mul ai), [fst (as_coeff_Mul ai)])) args.
Proof.
  induction args as [|a args IH]; intros d Hnd.
  - cbn. now rewrite app_nil_r.
  - cbn [fold_left map]. rewrite dict_append_fresh.
    + rewrite IH.
      * now rewrite <- app_assoc.
      * rewrite map_app. cbn [map fst]. rewrite <- app_assoc. exact Hnd.
    + cbn [map] in Hnd. apply NoDup_remove_2 in Hnd. intros H. apply Hnd.
      apply in_or_app. now left.
Qed.

Lemma dict_values_singletons : forall X fuel (f : Expr -> Expr * Number) args,
  dict_values X fuel (map (fun ai => (fst (f ai), [snd (f ai)])) args)
  = Return (map (fun ai => (fst (f ai), Num (snd (f ai)))) args).
Proof.
  intros X fuel f args. induction args as [|a args IH]; [reflexivity|].
  cbn [map dict_values dict_value]. now rewrite IH.
Qed.

Lemma dict_get_missing : forall m (d : list (Expr * Expr)),
  ~ In m (map fst d) -> dict_get m d = Num Zero.
Proof.
  intros m d. induction d as [|[k v] d IH]; intros Hn; [reflexivity|].
  cbn [dict_get]. destruct (Expr_eqb k m) eqn:E.
  - apply Expr_eqb_eq in E. subst k. exfalso. apply Hn. now left.
  - apply IH. intros H. apply Hn. now right.
Qed.

Lemma dict_get_present : forall k v (d : list (Expr * Expr)),
  NoDup (map fst d) -> In (k, v) d -> dict_get k d = v.
Proof.
  intros k v d. induction d as [|[k' v'] d IH]; intros Hnd Hin; [destruct Hin|].
  cbn [dict_get]. cbn [map fst] in Hnd. inversion Hnd as [|? ? Hk Hd]; subst.
  destruct Hin as [E|Hin].
  - injection E as -> ->. now rewrite Expr_eqb_refl.
  - destruct (Expr_eqb k' k) eqn:E.
    + apply Expr_eqb_eq in E. subst k'. exfalso. apply Hk.
      now apply (in_map fst) in Hin.
    + now apply IH.
Qed.

(** For a sum whose operands have pairwise different residuals (as the
    operands that [flatten] returns have), [as_coefficients_dict] needs no
    evaluation of a coefficient sum, looking a residual up gives the
    coefficient of its operand, and looking any other key up gives 0. *)
Theorem as_coefficients_dict_lookup : forall X fuel a,
  NoDup (map (fun ai => snd (as_coeff_Mul ai)) (args_of a)) ->
  exists d,
    as_coefficients_dict X fuel a = Return d
    /\ (forall ai, In ai (args_of a) ->
          dict_get (snd (as_coeff_Mul ai)) d = Num (fst (as_coeff_Mul ai)))
    /\ (forall m, ~ In m (map (fun ai => snd (as_coeff_Mul ai)) (args_of a)) ->
          dict_get m d = Num Zero).
Proof.
  intros X fuel a Hnd.
  exists (map (fun ai => (snd (as_coeff_Mul ai), Num (fst (as_coeff_Mul ai))))
            (args_of a)).
  assert (Hkeys : map fst (map (fun ai => (snd (as_coeff_Mul ai),
                                           Num (fst (as_coeff_Mul ai))))
                             (args_of a))
                  = map (fun ai => snd (as_coeff_Mul ai)) (args_of a)).
  { rewrite map_map. reflexivity. }
  split; [|split].
  - unfold as_coefficients_dict, coefficient_lists.
    rewrite coefficient_lists_distinct by exact Hnd. cbn [app].
    exact (dict_values_singletons X fuel
             (fun ai => (snd (as_coeff_Mul ai), fst (as_coeff_Mul ai)))
             (args_of a)).
  - intros ai Hin. apply dict_get_present.
    + now rewrite Hkeys.
    + exact (in_map (fun ai => (snd (as_coeff_Mul ai),
                                Num (fst (as_coeff_Mul ai)))) _ _ Hin).
  - intros m Hm. apply dict_get_missing. now rewrite Hkeys.
Qed.

(** ** Termination and the scalar of the loop *)

Lemma expand_2arg_raises : forall X b e,
  expand_2arg X b = Raise e -> e = IndexError.
Proof.
  intros X b e H. unfold expand_2arg in H.
  destruct b; try discriminate.
  destruct (as_coeff_Mul (Mul args)) as [c t].
  destruct (is_Add t); [|discriminate].
  destruct t as [| | |l| | | |]; cbn [as_coeff_Add] in H; try discriminate.
  destruct l as [|h tl]; [now inversion H|].
  destruct (is_Number h); [destruct tl as [|? [|? ?]]|]; discriminate.
Qed.

Lemma expand_2arg_fuel : forall X b, expand_2arg X b <> OutOfFuel.
Proof.
  intros X b H. unfold expand_2arg in H.
  destruct b; try discriminate.
  destruct (as_coeff_Mul (Mul args)) as [c t].
  destruct (is_Add t); [|discriminate].
  destruct t as [| | |l| | | |]; cbn [as_coeff_Add] in H; try discriminate.
  destruct l as [|h tl]; [discriminate|].
  destruct (is_Number h); [destruct tl as [|? [|? ?]]|]; discriminate.
Qed.

Lemma shortcut_fuel : forall X seq, shortcut X seq <> OutOfFuel.
Proof.
  intros X seq H. unfold shortcut in H.
  destruct seq as [|a0 [|b0 [|? ?]]]; try discriminate.
  destruct (if is_Rational b0 then (b0, a0) else (a0, b0)) as [a b].
  destruct (negb (truthy a)); [discriminate|].
  destruct a as [[ra| | |]| | | | | | |]; try discriminate.
  pose proof (expand_2arg_fuel X b) as Hf.
  destruct (expand_2arg X b) as [|e|r]; [now apply Hf | discriminate |].
  destruct r; try discriminate.
  destruct args as [|[n| | | | | | |] tl]; discriminate.
Qed.

(** The worklist loop ends: when distributing a coefficient over a sum and
    evaluating a numeric power never produce more work than the addend they
    replace, a fuel of the total work of the sequence is enough for the term
    collection path to return a result, more fuel gives the same result, and
    [flatten] does not run out of fuel either. *)
Theorem flatten_terminates : forall X weight fuel seq,
  weight_ok X weight ->
  (work weight seq <= fuel)%nat ->
  exists r,
    flatten_general X fuel seq = Return r
    /\ (forall fuel', (fuel <= fuel')%nat -> flatten_general X fuel' seq = Return r)
    /\ flatten X fuel seq <> OutOfFuel.
Proof.
  intros X weight fuel seq Hw Hfuel.
  assert (Hg : forall fuel', (fuel <= fuel')%nat ->
                 collect X fuel' seq initial
                 = Return (run X (walk X fuel seq) initial)).
  { intros fuel' Hle.
    rewrite (collect_run X weight Hw fuel' seq initial) by lia.
    rewrite (walk_fuel X weight Hw fuel' fuel seq) by lia. reflexivity. }
  exists (match run X (walk X fuel seq) initial with
          | Some st => finish X st
          | None => NaN_result
          end).
  assert (Hr : forall fuel', (fuel <= fuel')%nat ->
                 flatten_general X fuel' seq
                 = Return (match run X (walk X fuel seq) initial with
                           | Some st => finish X st
                           | None => NaN_result
                           end)).
  { intros fuel' Hle. unfold flatten_general. rewrite (Hg fuel' Hle).
    now destruct (run X (walk X fuel seq) initial). }
  split; [apply Hr; lia|]. split; [exact Hr|].
  unfold flatten. pose proof (shortcut_fuel X seq) as Hs.
  destruct (shortcut X seq) as [|e|[rv|]]; try discriminate.
  - now exfalso.
  - rewrite (Hr fuel) by lia. discriminate.
Qed.

Lemma flatten_terminates_witness :
  weight_ok toy toy_weight
  /\ (work toy_weight
        [int 3; Add [sym "x"; Mul [int 2; Add [sym "y"; sym "z"]]]] <= 40)%nat
  /\ exists r,
       flatten_general toy 40
         [int 3; Add [sym "x"; Mul [int 2; Add [sym "y"; sym "z"]]]] = Return r
       /\ (forall fuel', (40 <= fuel')%nat ->
             flatten_general toy fuel'
               [int 3; Add [sym "x"; Mul [int 2; Add [sym "y"; sym "z"]]]]
             = Return r)
       /\ flatten toy 40
            [int 3; Add [sym "x"; Mul [int 2; Add [sym "y"; sym "z"]]]]
          <> OutOfFuel.
Proof.
  assert (H : (work toy_weight
                 [int 3; Add [sym "x"; Mul [int 2; Add [sym "y"; sym "z"]]]]
               <= 40)%nat) by (vm_compute; lia).
  split; [exact toy_weight_ok|]. split; [exact H|].
  exact (flatten_terminates toy toy_weight 40 _ toy_weight_ok H).
Defined.

(** The scalar that the loop accumulates is a numeral or [zoo] and never
    [NaN]: whenever the loop runs to its end, the value in [coeff] is not
    [NaN]. *)
Theorem loop_scalar_never_NaN : forall X fuel seq st,
  collect X fuel seq initial = Return (Some st) ->
  scalar_sane (coeff st)
  /\ is_NaN (coeff st) = false
  /\ (coeff st = ComplexInfinity \/ is_Number (coeff st) = true).
Proof.
  intros X fuel seq st H.
  assert (Hs : scalar_sane (coeff st)).
  { apply (collect_invariant X (fun s => scalar_sane (coeff s)))
      with (fuel := fuel) (seq := seq) (st := initial); [| |exact H].
    - intros s o s' ext Hs E. rewrite body_step in E.
      destruct (step_state X s o) as [s1|] eqn:Es; [|discriminate].
      inversion E; subst s1. unfold step_state in Es.
      destruct (scalar_step X (coeff s) o) as [c'|] eqn:Ec; [|discriminate].
      inversion Es; subst s'. cbn [coeff].
      exact (scalar_step_sane X _ _ _ Hs Ec).
    - left. exists Zero. split; [reflexivity | discriminate]. }
  split; [exact Hs|].
  destruct Hs as [(n & -> & Hn)| ->].
  - split; [destruct n; try reflexivity; congruence | now right].
  - split; [reflexivity | now left].
Qed.

Lemma loop_scalar_never_NaN_witness :
  collect toy 3 [int 3; Num Infinity; sym "x"] initial
  = Return (Some (mkState (Num Infinity) [(sym "x", One)] []))
  /\ scalar_sane (Num Infinity)
  /\ is_NaN (Num Infinity) = false
  /\ (Num Infinity = ComplexInfinity \/ is_Number (Num Infinity) = true).
Proof.
  split; [reflexivity|].
  exact (loop_scalar_never_NaN toy 3 [int 3; Num Infinity; sym "x"]
           (mkState (Num Infinity) [(sym "x", One)] []) eq_refl).
Defined.

(** ** Sums of numerals *)

Lemma collect_rationals : forall X qs fuel c ts os,
  (List.length qs <= fuel)%nat ->
  collect X fuel (map (fun q => Num (Rat q)) qs) (mkState (Num (Rat c)) ts os)
  = Return (Some (mkState
                    (Num (Rat (fold_left (fun acc q => Qred (acc + q)%Q) qs c)))
                    ts os)).
Proof.
  intros X qs. induction qs as [|q qs IH]; intros fuel c ts os Hf.
  - destruct fuel; reflexivity.
  - destruct fuel as [|fuel]; [cbn in Hf; lia|].
    cbn [map collect body coeff terms order_factors is_NaN is_zoo andb orb
         number_add fold_left].
    rewrite app_nil_r. apply IH. cbn in Hf. lia.
Qed.

Lemma fold_Qred_sum : forall qs c,
  (fold_left (fun acc q => Qred (acc + q)) qs c
   == c + fold_right Qplus (0 # 1) qs)%Q.
Proof.
  induction qs as [|q qs IH]; intros c; cbn [fold_left fold_right].
  - ring.
  - rewrite IH, Qred_correct. ring.
Qed.

Lemma fold_Qred_reduced : forall qs c,
  Qred c = c ->
  Qred (fold_left (fun acc q => Qred (acc + q)%Q) qs c)
  = fold_left (fun acc q => Qred (acc + q)%Q) qs c.
Proof.
  induction qs as [|q qs IH]; intros c Hc; cbn [fold_left]; [exact Hc|].
  apply IH. apply Qred_complete, Qred_correct.
Qed.

(** On a sequence of finite rationals the term collection path answers their
    exact sum in lowest terms as the only operand, or no operand when the sum
    is zero; [flatten] does the same when no numeral of the sequence is
    zero. *)
Theorem flatten_rationals : forall X fuel qs,
  (List.length qs <= fuel)%nat ->
  (rational_total qs == fold_right Qplus (0 # 1) qs)%Q
  /\ Qred (rational_total qs) = rational_total qs
  /\ flatten_general X fuel (map (fun q => Num (Rat q)) qs)
     = Return (if Qeq_bool (rational_total qs) (0 # 1) then []
               else [Num (Rat (rational_total qs))], [], None)
  /\ (Forall (fun q => q <> 0 # 1) qs ->
      flatten X fuel (map (fun q => Num (Rat q)) qs)
      = flatten_general X fuel (map (fun q => Num (Rat q)) qs)).
Proof.
  intros X fuel qs Hf.
  assert (Hsum : (rational_total qs == fold_right Qplus (0 # 1) qs)%Q).
  { unfold rational_total. rewrite fold_Qred_sum. ring. }
  assert (Hred : Qred (rational_total qs) = rational_total qs).
  { unfold rational_total. now apply fold_Qred_reduced. }
  split; [exact Hsum|]. split; [exact Hred|]. split.
  - unfold flatten_general, initial, Zero.
    rewrite (collect_rationals X qs fuel (0 # 1) [] [] Hf).
    fold (rational_total qs). unfold finish.
    cbn [terms coeff order_factors build_newseq flat_map is_noncommutative
         existsb prune process_order sort_by fold_right is_Zero].
    destruct (Qeq_bool (rational_total qs) (0 # 1)) eqn:E.
    + apply Qeq_bool_eq in E.
      assert (rational_total qs = 0 # 1) as ->; [|reflexivity].
      rewrite <- Hred. change (0 # 1) with (Qred (0 # 1)). now apply Qred_complete.
    + unfold Number_eqb, Zero.
      destruct (Number_eq_dec (Rat (rational_total qs)) (Rat (0 # 1))) as [E'|_];
        [|reflexivity].
      injection E' as E'. exfalso. apply (Qeq_bool_neq _ _ E).
      rewrite E'. reflexivity.
  - intros Hnz. unfold flatten.
    destruct qs as [|a [|b [|c qs]]]; try reflexivity.
    inversion Hnz as [|? ? Ha Hb']; subst. inversion Hb' as [|? ? Hb _]; subst.
    cbn [map]. unfold shortcut, truthy. cbn [is_Rational is_Zero expand_2arg].
    unfold Number_eqb, Zero.
    destruct (Number_eq_dec (Rat b) (Rat (0 # 1))) as [E|_];
      [injection E as E; contradiction|].
    reflexivity.
Qed.

Lemma flatten_rationals_witness :
  (List.length [1 # 2; 1 # 3; -5 # 6] <= 3)%nat
  /\ (rational_total [1 # 2; 1 # 3; -5 # 6]
      == fold_right Qplus (0 # 1) [1 # 2; 1 # 3; -5 # 6])%Q
  /\ Qred (rational_total [1 # 2; 1 # 3; -5 # 6])
     = rational_total [1 # 2; 1 # 3; -5 # 6]
  /\ flatten_general toy 3 (map (fun q => Num (Rat q)) [1 # 2; 1 # 3; -5 # 6])
     = Return (if Qeq_bool (rational_total [1 # 2; 1 # 3; -5 # 6]) (0 # 1) then []
               else [Num (Rat (rational_total [1 # 2; 1 # 3; -5 # 6]))], [], None)
  /\ (Forall (fun q => q <> 0 # 1) [1 # 2; 1 # 3; -5 # 6] ->
      flatten toy 3 (map (fun q => Num (Rat q)) [1 # 2; 1 # 3; -5 # 6])
      = flatten_general toy 3
          (map (fun q => Num (Rat q)) [1 # 2; 1 # 3; -5 # 6])).
Proof.
  split; [simpl; lia|].
  apply (flatten_rationals toy 3 [1 # 2; 1 # 3; -5 # 6]). simpl. lia.
Defined.

(** ** The shortcut for two operands *)

(** [flatten] fails its assertion exactly on two operands of which the second
    is the numeral zero, or the first is the numeral zero and the second is
    no numeral; on any other sequence it raises nothing but an index
    error. *)
Theorem flatten_assertion : forall X fuel seq,
  (flatten X fuel seq = Raise AssertionError
   <-> exists a0 b0,
         seq = [a0; b0]
         /\ (b0 = Num Zero \/ (is_Rational b0 = false /\ a0 = Num Zero)))
  /\ (forall e, flatten X fuel seq = Raise e ->
        e = AssertionError \/ e = IndexError).
Proof.
  intros X fuel seq.
  assert (Hz : forall a, is_Zero a = true <-> a = Num Zero).
  { intros a. split; [|now intros ->].
    destruct a; try discriminate. cbn [is_Zero]. unfold Number_eqb.
    destruct (Number_eq_dec n Zero); [now subst | discriminate]. }
  assert (Hgen : forall e, flatten_general X fuel seq <> Raise e).
  { intros e. unfold flatten_general.
    destruct (collect X fuel seq initial) as [|e'|[s|]] eqn:Ec; try discriminate.
    exfalso. clear -Ec. revert seq Ec. generalize initial.
    induction fuel as [|n IH]; intros st seq Ec.
    - destruct seq; discriminate.
    - destruct seq as [|o rest]; [discriminate|]. cbn [collect] in Ec.
      destruct (body X st o); [discriminate|]. now apply IH in Ec. }
  assert (Hshort : forall e, shortcut X seq = Raise e ->
            (e = AssertionError /\ exists a0 b0, seq = [a0; b0]
               /\ is_Zero (if is_Rational b0 then b0 else a0) = true)
            \/ (e = IndexError /\ exists a0 b0, seq = [a0; b0]
               /\ is_Zero (if is_Rational b0 then b0 else a0) = false)).
  { intros e H. unfold shortcut in H.
    destruct seq as [|a0 [|b0 [|? ?]]]; try discriminate.
    assert (Ea : fst (if is_Rational b0 then (b0, a0) else (a0, b0))
                 = if is_Rational b0 then b0 else a0)
      by now destruct (is_Rational b0).
    destruct (if is_Rational b0 then (b0, a0) else (a0, b0)) as [a b].
    cbn [fst] in Ea. subst a.
    unfold truthy in H. rewrite negb_involutive in H.
    destruct (is_Zero (if is_Rational b0 then b0 else a0)) eqn:Ez.
    - left. inversion H. split; [reflexivity|]. now exists a0, b0.
    - right. split; [|now exists a0, b0].
      destruct (if is_Rational b0 then b0 else a0) as [[ra| | |]| | | | | | |];
        try discriminate.
      destruct (expand_2arg X b) as [|e'|r] eqn:Ee; try discriminate.
      + inversion H; subst e'. exact (expand_2arg_raises X b e Ee).
      + destruct r; try discriminate.
        destruct args as [|[n| | | | | | |] tl]; try discriminate.
        now inversion H. }
  assert (Hflat : forall e, flatten X fuel seq = Raise e -> shortcut X seq = Raise e).
  { intros e H. unfold flatten in H.
    destruct (shortcut X seq) as [|e'|[rv|]]; try discriminate.
    - now inversion H.
    - now apply Hgen in H. }
  split; [split|].
  - intros H. apply Hflat in H. apply Hshort in H.
    destruct H as [[_ (a0 & b0 & -> & Hzero)]|[E _]]; [|discriminate].
    exists a0, b0. split; [reflexivity|].
    destruct (is_Rational b0) eqn:Eb; [left | right; split; [reflexivity|]];
      now apply Hz.
  - intros (a0 & b0 & -> & [->|[Hb ->]]); unfold flatten, shortcut.
    + reflexivity.
    + rewrite Hb. reflexivity.
  - intros e H. apply Hflat in H. apply Hshort in H.
    destruct H as [[-> _]|[-> _]]; [now left | now right].
Qed.

Lemma as_coeff_Mul_product : forall X l,
  ((forall n tl, l <> Num n :: tl)
   \/ exists c a b tl, l = Num c :: a :: b :: tl /\ c <> Zero /\ c <> One) ->
  is_Add (snd (as_coeff_Mul (Mul l))) = false
  /\ new_arg X (snd (as_coeff_Mul (Mul l))) (fst (as_coeff_Mul (Mul l)))
     = [Mul l].
Proof.
  intros X l [Hl|(c & a & b & tl & -> & Hc0 & Hc1)].
  - assert (E : as_coeff_Mul (Mul l) = (One, Mul l)).
    { destruct l as [|[n| | | | | | |] tl]; try reflexivity.
      now elim (Hl n tl). }
    rewrite E. split; reflexivity.
  - cbn [as_coeff_Mul fst snd is_Add]. split; [reflexivity|].
    unfold new_arg, Number_eqb.
    destruct (Number_eq_dec c Zero); [contradiction|].
    destruct (Number_eq_dec c One); [contradiction|]. reflexivity.
Qed.

(** On a nonzero rational and a commutative product in the form that the
    product constructor gives it (no leading numeral, or a leading numeral
    other than 0 and 1 before at least two factors), the shortcut and the term
    collection path agree, in either order of the two operands: the result is
    the rational followed by the product. *)
Theorem shortcut_agrees_on_products : forall X fuel r l,
  (2 <= fuel)%nat ->
  Qred r = r ->
  r <> 0 # 1 ->
  ((forall n tl, l <> Num n :: tl)
   \/ exists c a b tl, l = Num c :: a :: b :: tl /\ c <> Zero /\ c <> One) ->
  truth (is_commutative X (snd (as_coeff_Mul (Mul l)))) = true ->
  flatten X fuel [Num (Rat r); Mul l] = Return ([Num (Rat r); Mul l], [], None)
  /\ flatten X fuel [Mul l; Num (Rat r)]
     = Return ([Num (Rat r); Mul l], [], None)
  /\ flatten_general X fuel [Num (Rat r); Mul l]
     = Return ([Num (Rat r); Mul l], [], None)
  /\ flatten_general X fuel [Mul l; Num (Rat r)]
     = Return ([Num (Rat r); Mul l], [], None).
Proof.
  intros X fuel r l Hfuel Hred Hr Hl Hcomm.
  destruct (as_coeff_Mul_product X l Hl) as [HnotAdd Hnew].
  assert (Hzero : is_Zero (Num (Rat r)) = false).
  { cbn [is_Zero]. unfold Number_eqb, Zero.
    destruct (Number_eq_dec (Rat r) (Rat (0 # 1))) as [E|_]; [|reflexivity].
    injection E as E. contradiction. }
  assert (Hadd : number_add Zero (Rat r) = Rat r).
  { unfold Zero. cbn [number_add]. f_equal. rewrite <- Hred at 2.
    apply Qred_complete. ring. }
  assert (Hexp : expand_2arg X (Mul l) = Return (Mul l)).
  { unfold expand_2arg. destruct (as_coeff_Mul (Mul l)) as [c t].
    cbn [snd] in HnotAdd. now rewrite HnotAdd. }
  assert (Hfin : finish X (mkState (Num (Rat r))
                             [(snd (as_coeff_Mul (Mul l)),
                               fst (as_coeff_Mul (Mul l)))] [])
                 = ([Num (Rat r); Mul l], [], None)).
  { unfold finish.
    cbn [terms coeff order_factors build_newseq flat_map fst snd
         is_noncommutative existsb].
    rewrite Hnew, Hcomm. cbn [negb andb orb app prune process_order].
    rewrite Hzero, andb_false_r. reflexivity. }
  assert (Hbody : forall c os,
            body X (mkState c [] os) (Mul l)
            = Continue
                (mkState c [(snd (as_coeff_Mul (Mul l)),
                             fst (as_coeff_Mul (Mul l)))] os) []).
  { intros c os. cbn [body]. destruct (as_coeff_Mul (Mul l)) as [c0 t].
    cbn [snd fst] in *. now rewrite HnotAdd. }
  assert (Hnum : forall ts os,
            body X (mkState (Num Zero) ts os) (Num (Rat r))
            = Continue (mkState (Num (Rat r)) ts os) []).
  { intros ts os.
    cbn [body is_NaN is_zoo coeff terms order_factors andb orb].
    rewrite Hadd. reflexivity. }
  destruct fuel as [|[|fuel]]; try lia.
  split; [|split; [|split]].
  - unfold flatten, shortcut. cbn [is_Rational]. unfold truthy.
    rewrite Hzero, Hexp. reflexivity.
  - unfold flatten, shortcut. cbn [is_Rational]. unfold truthy.
    rewrite Hzero, Hexp. reflexivity.
  - unfold flatten_general, initial. cbn [collect].
    rewrite Hnum. cbn [app]. rewrite Hbody. cbn [app].
    destruct fuel; cbn [collect]; rewrite Hfin; reflexivity.
  - unfold flatten_general, initial. cbn [collect].
    rewrite Hbody. cbn [app]. rewrite Hnum. cbn [app].
    destruct fuel; cbn [collect]; rewrite Hfin; reflexivity.
Qed.

Lemma shortcut_agrees_on_products_witness :
  (2 <= 2)%nat
  /\ Qred (3 # 4) = 3 # 4
  /\ 3 # 4 <> 0 # 1
  /\ flatten toy 2 [Num (Rat (3 # 4)); Mul [int 2; sym "x"; sym "y"]]
     = Return ([Num (Rat (3 # 4)); Mul [int 2; sym "x"; sym "y"]], [], None)
  /\ flatten toy 2 [Mul [int 2; sym "x"; sym "y"]; Num (Rat (3 # 4))]
     = Return ([Num (Rat (3 # 4)); Mul [int 2; sym "x"; sym "y"]], [], None)
  /\ flatten_general toy 2 [Num (Rat (3 # 4)); Mul [int 2; sym "x"; sym "y"]]
     = Return ([Num (Rat (3 # 4)); Mul [int 2; sym "x"; sym "y"]], [], None)
  /\ flatten_general toy 2 [Mul [int 2; sym "x"; sym "y"]; Num (Rat (3 # 4))]
     = Return ([Num (Rat (3 # 4)); Mul [int 2; sym "x"; sym "y"]], [], None).
Proof.
  split; [lia|]. split; [reflexivity|]. split; [discriminate|].
  apply (shortcut_agrees_on_products toy 2 (3 # 4) [int 2; sym "x"; sym "y"]).
  - lia.
  - reflexivity.
  - discriminate.
  - right. exists (Integer 2), (sym "x"), (sym "y"), [].
    split; [reflexivity|]. split; discriminate.
  - reflexivity.
Defined.

(** ** Order terms that the loop has seen *)

Section Cover.

Variable X : Env.
Hypothesis contains_trans : forall a b c,
  contains X a b = true -> contains X b c = true -> contains X a c = true.

Lemma order_step_cover : forall os o,
  (forall k, covered X os k -> covered X (order_step X os o) k)
  /\ (is_Order o = true -> covered X (order_step X os o) o).
Proof.
  intros os o. destruct o; cbn [order_step is_Order];
    try (split; [auto | discriminate]).
  destruct (existsb (fun o1 => contains X o1 (Order o)) os) eqn:Ex.
  - split; [auto|]. intros _. apply existsb_exists in Ex.
    destruct Ex as (k & Hk & Hc). exists k. auto.
  - split.
    + intros k (k0 & Hin & Hk0).
      destruct (contains X (Order o) k0) eqn:Ec.
      * exists (Order o). split; [now left|]. right.
        destruct Hk0 as [->|Hk0]; [exact Ec | eapply contains_trans; eauto].
      * exists k0. split; [|exact Hk0]. right. apply filter_In.
        split; [exact Hin | now rewrite Ec].
    + intros _. exists (Order o). split; [now left | now left].
Qed.

Lemma addends_worklist : forall o x rest,
  is_Order o = true ->
  In o (flat_map addends (x :: rest)) ->
  o = x \/ In o (flat_map addends (rest ++ splice X x)).
Proof.
  intros o x rest Ho Hin. cbn [flat_map] in Hin. apply in_app_or in Hin.
  rewrite flat_map_app. destruct Hin as [Hin|Hin].
  - destruct x; cbn [addends] in Hin;
      try (destruct Hin as [<-|[]]; now left).
    right. apply in_or_app. right. exact Hin.
  - right. apply in_or_app. now left.
Qed.

Lemma collect_cover : forall fuel seq st st',
  collect X fuel seq st = Return (Some st') ->
  (forall k, covered X (order_factors st) k -> covered X (order_factors st') k)
  /\ (forall o, In o (flat_map addends seq) -> is_Order o = true ->
        covered X (order_factors st') o).
Proof.
  induction fuel as [|n IH]; intros seq st st' H.
  - destruct seq; [|discriminate]. inversion H; subst.
    split; [auto | intros o []].
  - destruct seq as [|x rest].
    + inversion H; subst. split; [auto | intros o []].
    + cbn [collect] in H. rewrite body_step in H.
      destruct (step_state X st x) as [st1|] eqn:Es; [|discriminate].
      destruct (IH _ _ _ H) as [Hmono Hin].
      assert (Eo : order_factors st1 = order_step X (order_factors st) x).
      { unfold step_state in Es.
        destruct (scalar_step X (coeff st) x); [|discriminate].
        now inversion Es. }
      destruct (order_step_cover (order_factors st) x) as [Hs1 Hs2].
      rewrite <- Eo in Hs1, Hs2. split.
      * intros k Hk. auto.
      * intros o Ho Hord.
        destruct (addends_worklist o x rest Hord Ho) as [->|Hrest]; auto.
Qed.

End Cover.

(** When [contains] is transitive and the term collection path returns a
    result, either the loop has returned early and the result is [[NaN]], or
    no Order term is lost without a reason: every Order addend of the
    sequence, nested sums opened, is an operand of the result or is contained
    in an Order operand of the result. *)
Theorem order_terms_covered : forall X fuel seq r,
  (forall a b c, contains X a b = true -> contains X b c = true ->
                 contains X a c = true) ->
  flatten_general X fuel seq = Return r ->
  (collect X fuel seq initial = Return None /\ r = NaN_result)
  \/ (forall o, In o (flat_map addends seq) -> is_Order o = true ->
        exists k, In k (operands r) /\ is_Order k = true
                  /\ (k = o \/ contains X k o = true)).
Proof.
  intros X fuel seq r Htrans Hr. unfold flatten_general in Hr.
  destruct (collect X fuel seq initial) as [|e|[st|]] eqn:H; try discriminate.
  - right. injection Hr as <-. intros o Ho Hord.
    destruct (collect_cover X Htrans _ _ _ _ H) as [_ Hc].
    destruct (Hc o Ho Hord) as (k & Hk & Hko).
    destruct (orders_unrelated X _ _ _ H) as [_ Hall].
    exists k. split; [|split; [|exact Hko]].
    + rewrite operands_finish. apply in_or_app. right.
      apply (Permutation_in _ (Permutation_sym (sort_by_perm _ _))).
      unfold process_order.
      destruct (order_factors st) as [|o1 os] eqn:Eo; [destruct Hk|].
      cbn [snd]. apply in_or_app. now right.
    + rewrite Forall_forall in Hall. now apply Hall.
  - left. injection Hr as <-. now split.
Qed.

Lemma order_terms_covered_witness :
  (collect toy 4 [Order (sym "x"); Add [sym "y"; Order (sym "x")]] initial
   = Return None
   /\ ([Order (sym "x"); sym "y"], @nil Expr, @None (list Expr)) = NaN_result)
  \/ (forall o,
        In o (flat_map addends [Order (sym "x"); Add [sym "y"; Order (sym "x")]]) ->
        is_Order o = true ->
        exists k,
          In k (operands ([Order (sym "x"); sym "y"], @nil Expr,
                          @None (list Expr)))
          /\ is_Order k = true
          /\ (k = o \/ contains toy k o = true)).
Proof.
  apply (order_terms_covered toy 4
           [Order (sym "x"); Add [sym "y"; Order (sym "x")]]
           ([Order (sym "x"); sym "y"], [], None)).
  - exact (proj1 toy_contains_order).
  - reflexivity.
Defined.

(** ** Like terms that cancel *)

(** Two products of the same residual whose coefficients add up to zero
    leave nothing: [flatten] answers no operand at all, whatever the residual
    is and whether or not it commutes. *)
Theorem flatten_cancels : forall X fuel c1 c2 t,
  (2 <= fuel)%nat ->
  is_Add t = false ->
  number_add c1 c2 = Zero ->
  flatten X fuel [Mul [Num c1; t]; Mul [Num c2; t]] = Return ([], [], None).
Proof.
  intros X fuel c1 c2 t Hfuel Ht Hsum.
  assert (Hbody : forall c st,
            body X st (Mul [Num c; t])
            = Continue (mkState (coeff st) (terms_add t c (terms st))
                          (order_factors st)) []).
  { intros c st. cbn [body as_coeff_Mul]. now rewrite Ht. }
  destruct fuel as [|[|fuel]]; try lia.
  unfold flatten, shortcut. cbn [is_Rational]. unfold truthy. cbn [is_Zero negb].
  unfold flatten_general, initial. cbn [collect].
  rewrite Hbody. cbn [app]. rewrite Hbody.
  cbn [coeff terms order_factors terms_add app].
  rewrite Expr_eqb_refl, Hsum.
  assert (Hfin : finish X (mkState (Num Zero) [(t, Zero)] [])
                 = ([], [], None)) by reflexivity.
  destruct fuel; cbn [collect]; rewrite Hfin; reflexivity.
Qed.

Lemma flatten_cancels_witness :
  (2 <= 2)%nat
  /\ is_Add (sym "A") = false
  /\ number_add (Integer 3) (Integer (-3)) = Zero
  /\ flatten toy 2 [Mul [Num (Integer 3); sym "A"]; Mul [Num (Integer (-3)); sym "A"]]
     = Return ([], [], None).
Proof.
  split; [lia|]. split; [reflexivity|]. split; [reflexivity|].
  apply (flatten_cancels toy 2 (Integer 3) (Integer (-3)) (sym "A"));
    [lia | reflexivity | reflexivity].
Defined.

(** ** [as_coeff_Add] and the constructor *)

(** Adding the two parts that [as_coeff_Add] answers gives the sum back:
    when slot 0 holds no numeral the parts are 0 and the sum itself, and
    when slot 0 holds a nonzero rational before at least two operands of
    which the first is no numeral, the parts are that rational and the sum of
    the other operands. *)
Theorem as_coeff_Add_round_trip : forall X fuel args,
  ((exists h tl, args = h :: tl /\ is_Number h = false)
   \/ (exists r a b tl, args = Num (Rat r) :: a :: b :: tl
                        /\ r <> 0 # 1 /\ is_Number a = false)) ->
  exists c t,
    as_coeff_Add (Add args) = Return (c, t)
    /\ Add_new X fuel [c; t] = Return (Add args).
Proof.
  intros X fuel args [(h & tl & -> & Hh)|(r & a & b & tl & -> & Hr & Ha)].
  - exists (Num Zero), (Add (h :: tl)). cbn [as_coeff_Add]. rewrite Hh.
    split; reflexivity.
  - exists (Num (Rat r)), (Add (a :: b :: tl)). split; [reflexivity|].
    assert (Hzero : is_Zero (Num (Rat r)) = false).
    { cbn [is_Zero]. unfold Number_eqb, Zero.
      destruct (Number_eq_dec (Rat r) (Rat (0 # 1))) as [E|_]; [|reflexivity].
      injection E as E. contradiction. }
    unfold Add_new. cbn [filter]. rewrite Hzero. cbn [is_Zero negb].
    unfold flatten, shortcut. cbn [is_Rational]. unfold truthy.
    rewrite Hzero. cbn [negb expand_2arg].
    destruct a; try discriminate; cbn [app]; rewrite app_nil_r; reflexivity.
Qed.

Lemma as_coeff_Add_round_trip_witness :
  exists c t,
    as_coeff_Add (Add [int 3; sym "x"; sym "y"]) = Return (c, t)
    /\ Add_new toy 0 [c; t] = Return (Add [int 3; sym "x"; sym "y"]).
Proof.
  apply (as_coeff_Add_round_trip toy 0 [int 3; sym "x"; sym "y"]).
  right. exists (3 # 1), (sym "x"), (sym "y"), [].
  split; [reflexivity|]. split; [discriminate | reflexivity].
Defined.

(** ** Instances *)

Lemma as_coefficients_dict_lookup_witness :
  NoDup (map (fun ai => snd (as_coeff_Mul ai))
           (args_of (Add [int 4; Mul [int 3; sym "x"]; Mul [sym "a"; sym "x"]])))
  /\ exists d,
       as_coefficients_dict toy 0
         (Add [int 4; Mul [int 3; sym "x"]; Mul [sym "a"; sym "x"]]) = Return d
       /\ (forall ai,
             In ai (args_of (Add [int 4; Mul [int 3; sym "x"];
                                  Mul [sym "a"; sym "x"]])) ->
             dict_get (snd (as_coeff_Mul ai)) d = Num (fst (as_coeff_Mul ai)))
       /\ (forall m,
             ~ In m (map (fun ai => snd (as_coeff_Mul ai))
                       (args_of (Add [int 4; Mul [int 3; sym "x"];
                                      Mul [sym "a"; sym "x"]]))) ->
             dict_get m d = Num Zero).
Proof.
  assert (H : NoDup (map (fun ai => snd (as_coeff_Mul ai))
                       (args_of (Add [int 4; Mul [int 3; sym "x"];
                                      Mul [sym "a"; sym "x"]])))).
  { cbn. repeat constructor; cbn; intros H;
      repeat (destruct H as [H|H]; [discriminate|]); exact H. }
  split; [exact H|].
  exact (as_coefficients_dict_lookup toy 0 _ H).
Defined.

Lemma eval_sign_exclusive_witness :
  consistent_signs
    (fun s e => match s with
                | Positive | NonNegative => Some true
                | _ => Some false
                end)
  /\ ~ (eval_is_positive Add
          (fun s e => match s with
                      | Positive | NonNegative => Some true
                      | _ => Some false
                      end) (Add [sym "x"; sym "y"; sym "z"])
        = Return (Some true)
        /\ eval_is_negative Add
             (fun s e => match s with
                         | Positive | NonNegative => Some true
                         | _ => Some false
                         end) (Add [sym "x"; sym "y"; sym "z"])
           = Return (Some true)).
Proof.
  assert (H : consistent_signs
                (fun s e => match s with
                            | Positive | NonNegative => Some true
                            | _ => Some false
                            end)).
  { intros e. repeat split; intros [H1 H2]; discriminate. }
  split; [exact H|].
  exact (eval_sign_exclusive Add _ (Add [sym "x"; sym "y"; sym "z"]) H).
Defined.

(** ** Errors of [primitive] *)

Lemma igcd_all_zero : forall l,
  igcd_all l = 0 <-> Forall (fun x => x = 0) l.
Proof.
  intros l. destruct (igcd_all_spec l) as (_ & Hdiv & Hmax). split.
  - intros E. rewrite Forall_forall. intros x Hx.
    specialize (Hdiv x Hx). rewrite E in Hdiv. now apply Z.divide_0_l.
  - intros H. rewrite Forall_forall in H. apply Z.divide_0_l. apply Hmax.
    intros x Hx. rewrite (H x Hx). apply Z.divide_0_r.
Qed.

Lemma finite_numerators : forall inf (ts : list (Z * Z * Expr)),
  inf = existsb sets_inf ts ->
  numerators inf ts
  = map (fun t => fst (fst t)) (filter (fun t => negb (snd (fst t) =? 0)) ts).
Proof.
  intros inf ts E. unfold numerators. destruct inf; [reflexivity|].
  f_equal. symmetry in E.
  assert (H : forall t, In t ts -> sets_inf t = false).
  { intros t Ht. destruct (sets_inf t) eqn:Et; [|reflexivity].
    assert (existsb sets_inf ts = true) by (apply existsb_exists; eauto).
    congruence. }
  clear E. induction ts as [|t ts IH]; [reflexivity|]. cbn [filter].
  assert (Ht : sets_inf t = false) by (apply H; now left).
  destruct t as [[p q] m]. cbn [sets_inf fst snd] in *.
  apply orb_false_iff in Ht. destruct Ht as [Hq _]. rewrite Hq. cbn [negb].
  f_equal. apply IH. intros t' Ht'. apply H. now right.
Qed.

(** [primitive] fails in two ways only: with an index error exactly on a sum
    without operands, and with a division by zero exactly when some operand
    has a finite coefficient and every finite coefficient is zero. *)
Theorem primitive_errors : forall X self,
  (primitive X self = Raise IndexError <-> args_of self = [])
  /\ (primitive X self = Raise ZeroDivisionError
      <-> (exists a, In a (args_of self) /\ snd (fst (split_term a)) <> 0)
          /\ (forall a, In a (args_of self) ->
                snd (fst (split_term a)) <> 0 -> fst (fst (split_term a)) = 0))
  /\ primitive X self <> Raise AssertionError
  /\ primitive X self <> OutOfFuel.
Proof.
  intros X self.
  set (ts := map split_term (args_of self)).
  set (inf := existsb sets_inf ts).
  assert (Hzero : igcd_all (numerators inf ts) = 0
                  <-> forall a, In a (args_of self) ->
                        snd (fst (split_term a)) <> 0 ->
                        fst (fst (split_term a)) = 0).
  { rewrite (finite_numerators inf ts eq_refl), igcd_all_zero, Forall_forall.
    split.
    - intros H a Ha Hq. apply H.
      apply (in_map (fun t => fst (fst t))) with (x := split_term a).
      apply filter_In. split; [now apply in_map|].
      apply negb_true_iff. now apply Z.eqb_neq.
    - intros H x Hx. apply in_map_iff in Hx. destruct Hx as (t & <- & Ht).
      apply filter_In in Ht. destruct Ht as [Ht Hq].
      apply in_map_iff in Ht. destruct Ht as (a & <- & Ha).
      apply H; [exact Ha|]. apply negb_true_iff in Hq. now apply Z.eqb_neq. }
  assert (Hsome : existsb (fun t => negb (snd (fst t) =? 0)) ts = true
                  <-> exists a, In a (args_of self)
                                /\ snd (fst (split_term a)) <> 0).
  { rewrite existsb_exists. split.
    - intros (t & Ht & Hq). apply in_map_iff in Ht. destruct Ht as (a & <- & Ha).
      exists a. split; [exact Ha|]. apply negb_true_iff in Hq.
      now apply Z.eqb_neq.
    - intros (a & Ha & Hq). exists (split_term a). split; [now apply in_map|].
      apply negb_true_iff. now apply Z.eqb_neq. }
  assert (Hresort : forall l,
            (resort X l = Raise IndexError <-> l = [])
            /\ (forall e, resort X l = Raise e -> e = IndexError)
            /\ resort X l <> OutOfFuel).
  { intros l. unfold resort. destruct l as [|t0 rest].
    - repeat split; try discriminate. intros e E. now inversion E.
    - destruct (is_Number t0 || is_zoo t0); repeat split; discriminate. }
  unfold primitive. fold ts. fold inf.
  destruct ((igcd_all (numerators inf ts) =? 1)
            && (ilcm_all (denominators inf ts) =? 1)) eqn:E1.
  { apply andb_true_iff in E1. destruct E1 as [E1 _]. apply Z.eqb_eq in E1.
    split; [|split; [|split]]; try discriminate.
    - split; [discriminate|]. intros Hargs. exfalso.
      assert (igcd_all (numerators inf ts) = 0); [|lia].
      apply Hzero. rewrite Hargs. intros a [].
    - split; [discriminate|]. intros [_ Hall]. exfalso.
      apply Hzero in Hall. lia. }
  destruct ((igcd_all (numerators inf ts) =? 0)
            && existsb (fun t => negb (snd (fst t) =? 0)) ts) eqn:E2.
  { apply andb_true_iff in E2. destruct E2 as [E2 E3]. apply Z.eqb_eq in E2.
    split; [|split; [|split]]; try discriminate.
    - split; [discriminate|]. intros Hargs. exfalso.
      apply Hsome in E3. destruct E3 as (a & Ha & _). rewrite Hargs in Ha.
      destruct Ha.
    - split; [|reflexivity]. intros _. split; [now apply Hsome | now apply Hzero]. }
  destruct (Hresort (map (rescale X inf (igcd_all (numerators inf ts))
                            (ilcm_all (denominators inf ts))) ts))
    as (Hr1 & Hr2 & Hr3).
  destruct (resort X _) as [|e|ts'] eqn:Er.
  - now exfalso.
  - pose proof (Hr2 e eq_refl) as ->.
    assert (Hnil : args_of self = []).
    { pose proof (proj1 Hr1 eq_refl) as Hm. apply map_eq_nil in Hm.
      unfold ts in Hm. now apply map_eq_nil in Hm. }
    split; [|split; [|split]]; try discriminate.
    + split; [intros _; exact Hnil | reflexivity].
    + split; [discriminate|]. intros [(a & Ha & _) _]. rewrite Hnil in Ha.
      destruct Ha.
  - split; [|split; [|split]]; try discriminate.
    + split; [discriminate|]. intros Hnil. exfalso.
      assert (Return ts' = @Raise (list Expr) IndexError) as Habs;
        [|discriminate Habs].
      apply Hr1. unfold ts. now rewrite Hnil.
    + split; [discriminate|]. intros [Hex Hall]. exfalso.
      apply Hzero in Hall. apply Hsome in Hex.
      rewrite Hall, Hex in E2. discriminate.
Qed.
